(** * feature_fit.py: a shallow embedding and its verified properties

    The script measures how well word embeddings encode the McRae feature
    norms.  This development embeds the functions of
    [src/subgraphs/feature_fit.py] that carry logic of their own
    ([load_embeddings], [load_features_concepts], [loocv_feature],
    [analyze_features], [get_values], the clustering metric, the weights
    and the returned clusters of [do_cluster], the loops of
    [analyze_domains], the points of [produce_unified_graph] and of
    [produce_unified_domain_graph], and the index
    and the report aggregation of [main]) and proves or refutes the
    properties the specification states about them, and further properties
    read off the code.

    Conventions of the embedding:
    - a Python exception is a value [Raise e] of the [result] type;
    - text is [string], a character being a code point below 256;
    - a [dict] with string keys is a [gmap string _], a [set] of strings a
      [gset string]; dictionaries whose insertion order or key type matter
      are association lists;
    - a finite float is the rational it denotes ([Q]); the float type of the
      clustering metric, where NaN matters, is [float];
    - scikit-learn, NumPy, SciPy and the process pool are interfaces
      ([Estimator], [Numeric], [Rng], [Executor]): the script only calls
      them. *)

From Stdlib Require Import Ascii String QArith Qround Lqa.
From stdpp Require Import base option list gmap strings sorting.

Set Default Proof Using "Type".
Close Scope Q_scope.

(** ** Exceptions *)

Inductive exn : Set :=
| AssertionError | FileNotFoundError | IndexError | KeyError
| TypeError | ValueError.

Inductive result (A : Type) : Type :=
| Ok (a : A)
| Raise (e : exn).
Arguments Ok {A} a.
Arguments Raise {A} e.

(** [x ← r; k] runs [k] on the value of [r] and propagates its exception. *)
#[global] Instance result_ret : MRet result := @Ok.
#[global] Instance result_bind : MBind result := λ A B k r,
  match r with
  | Ok a => k a
  | Raise e => Raise e
  end.

(** A [for] loop whose body may raise: the first exception ends the loop. *)
Fixpoint for_each {A B} (body : A -> B -> result A) (l : list B) (a : A)
  : result A :=
  match l with
  | [] => Ok a
  | x :: l' => a' ← body a x; for_each body l' a'
  end.

(** [seq[i]] for a non-negative index. *)
Definition index {A} (l : list A) (i : nat) : result A :=
  match l !! i with
  | Some x => Ok x
  | None => Raise IndexError
  end.

(** ** Text: the [str] methods the script uses *)

Module Text.

Definition tab : ascii := "009"%char.
Definition lf : ascii := "010"%char.
Definition cr : ascii := "013"%char.

(** [str.isspace] on one code point below 256. *)
Definition is_space (c : ascii) : bool :=
  let n := N_of_ascii c in
  ((9 <=? n) && (n <=? 13) || (28 <=? n) && (n <=? 32)
   || (n =? 133) || (n =? 160))%N.

Definition eqb_ascii (a b : ascii) : bool := Ascii.eqb a b.

Fixpoint lstrip (s : string) : string :=
  match s with
  | String c s' => if is_space c then lstrip s' else s
  | EmptyString => EmptyString
  end.

Fixpoint rstrip (s : string) : string :=
  match s with
  | EmptyString => EmptyString
  | String c s' =>
      match rstrip s' with
      | EmptyString => if is_space c then EmptyString else String c EmptyString
      | r => String c r
      end
  end.

(** [s.strip()] *)
Definition strip (s : string) : string := rstrip (lstrip s).

Definition snoc (s : string) (c : ascii) : string := s +:+ String c "".

Definition flush (cur : string) (rest : list string) : list string :=
  match cur with
  | EmptyString => rest
  | _ => cur :: rest
  end.

(** [s.split()]: maximal runs of non-space characters. *)
Fixpoint split_from (cur s : string) : list string :=
  match s with
  | EmptyString => flush cur []
  | String c s' =>
      if is_space c then flush cur (split_from "" s')
      else split_from (snoc cur c) s'
  end.
Definition split (s : string) : list string := split_from "" s.

(** [s.split(sep)] for a one-character separator: empty fields are kept. *)
Fixpoint split_on_from (sep : ascii) (cur s : string) : list string :=
  match s with
  | EmptyString => [cur]
  | String c s' =>
      if eqb_ascii c sep then cur :: split_on_from sep "" s'
      else split_on_from sep (snoc cur c) s'
  end.
Definition split_on (sep : ascii) (s : string) : list string :=
  split_on_from sep "" s.

(** [sep.join(l)] *)
Fixpoint join (sep : string) (l : list string) : string :=
  match l with
  | [] => ""
  | x :: l' =>
      match l' with
      | [] => x
      | _ => x +:+ sep +:+ join sep l'
      end
  end.

(** Iterating over a file opened in text mode: the lines, each with its
    terminator, every terminator ("\n", "\r\n", "\r") read as "\n". *)
Fixpoint lines_from (cur s : string) : list string :=
  match s with
  | EmptyString => flush cur []
  | String c s' =>
      if eqb_ascii c lf then snoc cur lf :: lines_from "" s'
      else if eqb_ascii c cr then
        match s' with
        | String c' s'' =>
            if eqb_ascii c' lf then snoc cur lf :: lines_from "" s''
            else snoc cur lf :: lines_from "" s'
        | EmptyString => snoc cur lf :: lines_from "" s'
        end
      else lines_from (snoc cur c) s'
  end.
Definition file_lines (content : string) : list string :=
  lines_from "" content.

Fixpoint no_space (s : string) : bool :=
  match s with
  | EmptyString => true
  | String c s' => negb (is_space c) && no_space s'
  end.

(** A word as [split] yields them: not empty, no white space inside. *)
Definition is_word (s : string) : bool :=
  negb (String.eqb s "") && no_space s.

End Text.

(** ** The data model *)

(** [Feature = namedtuple("Feature", ["name", "concepts", "wb_label",
    "wb_maj", "wb_min", "br_label", "disting"])] *)
Record Feature : Type := mkFeature {
  name : string;
  concepts : gset string;
  wb_label : string;
  wb_maj : string;
  wb_min : string;
  br_label : string;
  disting : string
}.

(** [feature.concepts.add(c)]: the set is shared with the dictionary entry,
    so adding to it updates the entry. *)
Definition add_concept (c : string) (f : Feature) : Feature :=
  mkFeature (name f) ({[c]} ∪ concepts f) (wb_label f) (wb_maj f)
            (wb_min f) (br_label f) (disting f).

(** ** [load_features_concepts] *)

(** The body of the loop over the lines of the catalog file. *)
Definition catalog_row (st : gmap string Feature * gset string) (line : string)
  : result (gmap string Feature * gset string) :=
  let '(features, cs) := st in
  let fields := Text.split_on Text.tab (Text.strip line) in
  match fields with
  | concept_name :: feature_name :: _ =>
      if String.eqb concept_name "Concept" || String.eqb concept_name "dunebuggy"
      then Ok st
      else
        features' ←
          match features !! feature_name with
          | Some _ => Ok features
          | None =>
              f10 ← index fields 10;
              match take 4 (drop 2 fields) with
              | [f2; f3; f4; f5] =>
                  Ok (<[feature_name :=
                          mkFeature feature_name ∅ f2 f3 f4 f5 f10]> features)
              | _ => Raise TypeError
              end
          end;
        Ok (alter (add_concept concept_name) feature_name features',
            {[concept_name]} ∪ cs)
  | _ => Raise ValueError
  end.

(** [features_file] is the content of FEATURES, [None] when the file does
    not exist.  The histogram the function prints is not modelled. *)
Definition load_features_concepts (features_file : option string)
  : result (gmap string Feature * gset string) :=
  match features_file with
  | None => Raise FileNotFoundError
  | Some content => for_each catalog_row (Text.file_lines content) (∅, ∅)
  end.

(** ** [sorted] *)

(** Python's [sorted] is stable and compares with [<] only; a stable sort has
    one possible result, which insertion from the right computes. *)
Section Sorted.
Context {A K : Type} (ltb : K -> K -> bool) (key : A -> K).

Fixpoint insert_sorted (x : A) (l : list A) : list A :=
  match l with
  | [] => [x]
  | y :: l' =>
      if ltb (key y) (key x) then y :: insert_sorted x l' else x :: y :: l'
  end.

(** [sorted(l, key=key)] *)
Fixpoint sorted (l : list A) : list A :=
  match l with
  | [] => []
  | x :: l' => insert_sorted x (sorted l')
  end.

(** [sorted(l, key=key, reverse=True)]: equal elements keep their order. *)
Definition sorted_reverse (l : list A) : list A := rev (sorted (rev l)).
End Sorted.

(** ** The libraries the script calls *)

(** Floats as rationals: [float_of_string] is [float(s)] on a string ([None]
    when it raises ValueError); the NumPy reductions are the library's. *)
Class Numeric : Type := {
  float_of_string : string -> option Q;
  np_log : Q -> Q;
  np_mean : list Q -> Q;
  np_percentile : list Q -> Q -> Q
}.

(** [np.array(rows)] of a list of lists of floats: the rows must agree in
    length. *)
Definition np_array (rows : list (list Q)) : result (list (list Q)) :=
  match rows with
  | [] => Ok rows
  | r :: rows' =>
      if forallb (fun r' => length r' =? length r)%nat rows' then Ok rows
      else Raise ValueError
  end.

(** ** [load_embeddings] *)

(** The three files the function touches; [None] is a file that does not
    exist.  The [.npy] store holds the matrix [np.save] was given. *)
Record files : Type := mkFiles {
  EMBEDDINGS : option (list (list Q));
  VOCAB : option string;
  INPUT : option string
}.

Section LoadEmbeddings.
Context `{Numeric}.

(** [float(x)] for [x] a string. *)
Definition float_str (x : string) : result Q :=
  match float_of_string x with
  | Some q => Ok q
  | None => Raise ValueError
  end.

(** [[float(x) for x in xs]] *)
Fixpoint floats (xs : list string) : result (list Q) :=
  match xs with
  | [] => Ok []
  | x :: xs' => q ← float_str x; qs ← floats xs'; Ok (q :: qs)
  end.

(** The body of the loop over the lines of the raw embedding file; the
    state is the pair of lists [vocab], [embeddings] zipped. *)
Definition embedding_row (cs : gset string) (acc : list (string * list Q))
    (line : string) : result (list (string * list Q)) :=
  let fields := Text.split (Text.strip line) in
  word ← index fields 0;
  if decide (word ∈ cs) then
    vec ← floats (drop 1 fields);
    Ok (acc ++ [(word, vec)])
  else Ok acc.

Definition scan_input (cs : gset string) (content : string)
  : result (list (string * list Q)) :=
  for_each (embedding_row cs) (Text.file_lines content) [].

Definition load_embeddings (fs : files) (cs : gset string)
  : result (files * (list string * list (list Q))) :=
  match EMBEDDINGS fs with
  | Some embeddings =>
      match VOCAB fs with
      | None => Raise AssertionError
      | Some content =>
          let vocab := map Text.strip (Text.file_lines content) in
          if (length embeddings =? length vocab)%nat
          then Ok (fs, (vocab, embeddings))
          else Raise AssertionError
      end
  | None =>
      match INPUT fs with
      | None => Raise FileNotFoundError
      | Some content =>
          pairs ← scan_input cs content;
          let voc_embeddings := sorted String.ltb fst pairs in
          let vocab := map fst voc_embeddings in
          embeddings ← np_array (map snd voc_embeddings);
          let fs' := mkFiles (Some embeddings)
                             (Some (Text.join (String Text.lf "") vocab))
                             (INPUT fs) in
          Ok (fs', (vocab, embeddings))
      end
  end.
End LoadEmbeddings.

(** ** [get_values] *)

(** A value in a [csv.DictReader] row: [None] (a field the row lacks), a
    string, or the integer the loop stores for "n/a". *)
Abbreviation cell := (option (string + Z)).
Definition CNone : cell := None.
Definition CStr (s : string) : cell := Some (inl s).
Definition CInt (z : Z) : cell := Some (inr z).

Section GetValues.
Context `{Numeric}.

(** [float(v)] *)
Definition float_cell (v : cell) : result Q :=
  match v with
  | None => Raise TypeError
  | Some (inl s) => float_str s
  | Some (inr z) => Ok (inject_Z z)
  end.

(** [row[k]] *)
Definition row_get (row : gmap string cell) (k : string) : result cell :=
  match row !! k with
  | Some v => Ok v
  | None => Raise KeyError
  end.

(** The body of the loop over the rows of the reader. *)
Definition get_values_row (c_string value : string)
    (concept_values : gmap cell Q) (row : gmap string cell)
  : result (gmap cell Q) :=
  v ← row_get row value;
  let row := if decide (v = CStr "n/a") then <[value := CInt 0]> row
             else row in
  v' ← row_get row value;
  x ← float_cell v';
  k ← row_get row c_string;
  Ok (<[k := x]> concept_values).

(** [input_file] holds the rows [csv.DictReader] yields for the file, [None]
    when the file does not exist. *)
Definition get_values (input_file : option (list (gmap string cell)))
    (c_string value : string) : result (gmap cell Q) :=
  match input_file with
  | None => Raise FileNotFoundError
  | Some rows => for_each (get_values_row c_string value) rows ∅
  end.
End GetValues.

(** ** Arrays *)

(** [np.zeros((n, m))] *)
Definition zeros (n m : nat) : list (list nat) := replicate n (replicate m 0).

(** The number of columns of a two-dimensional array. *)
Definition width {A} (M : list (list A)) : nat :=
  match M with
  | [] => 0
  | row :: _ => length row
  end.

(** [M[i, j] = v] *)
Definition set_entry {A} (M : list (list A)) (i j : nat) (v : A)
  : result (list (list A)) :=
  row ← index M i;
  if (j <? length row)%nat then Ok (<[i := <[j := v]> row]> M)
  else Raise IndexError.

(** [M[:, j]] *)
Fixpoint column {A} (M : list (list A)) (j : nat) : result (list A) :=
  match M with
  | [] => Ok []
  | row :: M' => x ← index row j; xs ← column M' j; Ok (x :: xs)
  end.

(** [M[idxs]] for a list of row numbers. *)
Fixpoint rows_at {A} (M : list A) (idxs : list nat) : result (list A) :=
  match idxs with
  | [] => Ok []
  | i :: idxs' => x ← index M i; xs ← rows_at M idxs'; Ok (x :: xs)
  end.

(** [Y.sum(axis=0)] for [Y] with [m] columns. *)
Definition col_sums (m : nat) (Y : list (list nat)) : list nat :=
  foldr (zip_with Nat.add) (replicate m 0) Y.

(** [v.nonzero()[0]]: the positions of the non-zero entries, counted from
    [k]. *)
Fixpoint nonzero_from (k : nat) (v : list nat) : list nat :=
  match v with
  | [] => []
  | x :: v' =>
      if (x =? 0)%nat then nonzero_from (S k) v' else k :: nonzero_from (S k) v'
  end.
Definition nonzero (v : list nat) : list nat := nonzero_from 0 v.

(** [1 - v] on an indicator vector. *)
Definition complement (v : list nat) : list nat := map (fun y => 1 - y) v.

(** [np.concatenate([M[:i], M[i+1:]])] *)
Definition without_row {A} (M : list A) (i : nat) : list A :=
  take i M ++ drop (S i) M.

(** [range(a, b)] *)
Definition range (a b : Z) : list Z :=
  map (fun k => a + Z.of_nat k)%Z (seq 0 (Z.to_nat (b - a))).

(** [OneVsRestClassifier(LogisticRegression(class_weight="balanced",
    fit_intercept=False, C=C))], its clones fitted, and [metrics.f1_score].
    The two laws are the shapes scikit-learn promises: one row of
    predictions per input row, one column per label column given to
    [fit]. *)
Class Estimator : Type := {
  clf : Type;
  fitted : Type;
  new_clf : Q -> clf;
  fit : clf -> list (list Q) -> list (list nat) -> fitted;
  predict_proba : fitted -> list (list Q) -> list (list Q);
  predict : fitted -> list (list Q) -> list (list nat);
  f1_score : list nat -> list nat -> Q;
  predict_proba_shape : forall c X Y X',
    length (predict_proba (fit c X Y) X') = length X' /\
    Forall (fun row => length row = width Y) (predict_proba (fit c X Y) X');
  predict_shape : forall c X Y X',
    length (predict (fit c X Y) X') = length X' /\
    Forall (fun row => length row = width Y) (predict (fit c X Y) X')
}.

(** [np.random]: [choice l n g] draws [n] elements of [l] without
    replacement from the generator state [g]. *)
Class Rng : Type := {
  rng : Type;
  choice : forall {A}, list A -> nat -> rng -> list A * rng;
  choice_length : forall A (l : list A) n g,
    n <= length l -> length (choice l n g).1 = n;
  choice_sample : forall A (l : list A) n g,
    n <= length l -> (choice l n g).1 ⊆+ l
}.

(** [futures.as_completed]: the futures in the order they complete. *)
Class Executor : Type := {
  as_completed : forall {A}, list A -> list A;
  as_completed_perm : forall A (l : list A), as_completed l ≡ₚ l
}.

(** [np.random.choice(l, replace=False, size=n)] *)
Definition np_choice `{Rng} {A} (l : list A) (n : nat) (g : rng)
  : result (list A * rng) :=
  if (length l <? n)%nat then Raise ValueError else Ok (choice l n g).

(** ** [loocv_feature] *)

Section FeatureFit.
Context `{Numeric} `{Estimator} `{Rng} `{Executor}.

Definition n_concept_samples : nat := 5.

(** The score of one held-out concept [c_idx], as the loop body computes
    it.  [test] is built and never used: the probabilities are those of
    all the rows of [X]. *)
Definition loocv_score (X : list (list Q)) (Y : list (list nat))
    (f_idx : nat) (c : clf) (c_not_idxs : list nat) (c_idx : nat)
  : result Q :=
  let X_loo := without_row X c_idx in
  let Y_loo := without_row Y c_idx in
  let clf_loo := fit c X_loo Y_loo in
  X_neg ← rows_at X c_not_idxs;
  let test := take 1 (drop c_idx X) ++ X_neg in
  pred_prob ← column (predict_proba clf_loo X) f_idx;
  p0 ← index pred_prob 0;
  Ok (np_log p0 - np_mean (map np_log (drop 1 pred_prob)))%Q.

(** The worker runs with the generator state [g] it was started with; the
    state it ends with is lost with the process. *)
Definition loocv_feature (C : Q) (X : list (list Q)) (Y : list (list nat))
    (f_idx : nat) (c : clf) (g : rng) : result (Q * list Q) :=
  ycol ← column Y f_idx;
  let negative_candidates := nonzero (complement ycol) in
  let c_idxs := nonzero ycol in
  let c_not_idxs := nonzero (complement ycol) in
  let n_f_concepts := min (length c_idxs) n_concept_samples in
  '(f_concepts, _) ← np_choice c_idxs n_f_concepts g;
  scores ← for_each (fun scores c_idx =>
                       score ← loocv_score X Y f_idx c c_not_idxs c_idx;
                       Ok (scores ++ [score]))
                    f_concepts [];
  Ok (C, scores).

(** The score the specification describes: the probabilities of [test],
    the held-out positive followed by the negatives. *)
Definition margin_on_test (X : list (list Q)) (Y : list (list nat))
    (f_idx : nat) (c : clf) (c_not_idxs : list nat) (c_idx : nat)
  : result Q :=
  let clf_loo := fit c (without_row X c_idx) (without_row Y c_idx) in
  X_neg ← rows_at X c_not_idxs;
  let test := take 1 (drop c_idx X) ++ X_neg in
  pred_prob ← column (predict_proba clf_loo test) f_idx;
  p0 ← index pred_prob 0;
  Ok (np_log p0 - np_mean (map np_log (drop 1 pred_prob)))%Q.

(** ** [analyze_features] *)

(** [sorted(features.keys())] *)
Definition feature_names (features : gmap string Feature) : list string :=
  sorted String.ltb id (map fst (map_to_list features)).

(** [[word2idx[c] for c in feature.concepts if c in word2idx]] *)
Definition concept_idxs (word2idx : gmap string nat) (feature : Feature)
  : list nat :=
  omap (fun c => word2idx !! c) (elements (concepts feature)).

(** The body of the loop that fills [Y]. *)
Definition label_feature (features : gmap string Feature)
    (word2idx : gmap string nat) (Y : list (list nat)) (p : nat * string)
  : result (list (list nat)) :=
  let '(f_idx, f_name) := p in
  match features !! f_name with
  | None => Raise KeyError
  | Some feature =>
      let cidxs := concept_idxs word2idx feature in
      if (length cidxs <? 5)%nat then Ok Y
      else for_each (fun Y c_idx => set_entry Y c_idx f_idx 1) cidxs Y
  end.

Definition label_matrix (features : gmap string Feature)
    (word2idx : gmap string nat) : result (list (list nat)) :=
  for_each (label_feature features word2idx)
           (imap pair (feature_names features))
           (zeros (size word2idx) (size features)).

(** [[10 ** exp for exp in range(-5, 1)]] followed by
    [[5 * (10 ** exp) for exp in range(-5, 1)]] *)
Definition C_choices : list Q :=
  map (fun exp => 10 ^ exp)%Q (range (-5) 1)
  ++ map (fun exp => 5 * 10 ^ exp)%Q (range (-5) 1).

(** The body of the loop over [C_choices]: ten features are drawn and one
    task per feature is submitted.  A future holds what its task returned
    or raised. *)
Definition submit_C (X : list (list Q)) (Y : list (list nat))
    (nonzero_features : list nat)
    (st : list (result (Q * list Q)) * rng) (C : Q)
  : result (list (result (Q * list Q)) * rng) :=
  let '(C_futures, g) := st in
  let c := new_clf C in
  '(picks, g') ← np_choice (seq 0 (length nonzero_features)) 10 g;
  f_idxs ← rows_at nonzero_features picks;
  Ok (C_futures ++ map (fun f_idx => loocv_feature C X Y f_idx c g') f_idxs,
      g').

(** [C_results[C].extend(scores)] on a [defaultdict(list)] keyed by floats,
    in insertion order. *)
Fixpoint extend (C_results : list (Q * list Q)) (C : Q) (scores : list Q)
  : list (Q * list Q) :=
  match C_results with
  | [] => [(C, scores)]
  | (C', s) :: rest =>
      if Qeq_bool C' C then (C', s ++ scores) :: rest
      else (C', s) :: extend rest C scores
  end.

(** The loop over the completed futures; [future.result()] raises what the
    task raised. *)
Definition collect (C_futures : list (result (Q * list Q)))
  : result (list (Q * list Q)) :=
  for_each (fun C_results future =>
              '(C, scores) ← future; Ok (extend C_results C scores))
           C_futures [].

(** [<] on pairs of floats, as Python compares tuples. *)
Definition pair_ltb (a b : Q * Q) : bool :=
  if Qeq_bool a.1 b.1 then negb (Qle_bool b.2 a.2)
  else negb (Qle_bool b.1 a.1).

(** [sorted([(np.mean(scores), -C) for C, scores in C_results.items()],
    reverse=True)] and [best_C = -C_results[0][1]] *)
Definition ranking (C_results : list (Q * list Q)) : list (Q * Q) :=
  sorted_reverse pair_ltb id
    (map (fun '(C, scores) => (np_mean scores, - C)%Q) C_results).

Definition select_best_C (C_results : list (Q * list Q)) : result Q :=
  first ← index (ranking C_results) 0;
  Ok (- first.2)%Q.

Definition search_C (X : list (list Q)) (Y : list (list nat))
    (nonzero_features : list nat) (g : rng) : result Q :=
  '(C_futures, _) ← for_each (submit_C X Y nonzero_features) C_choices ([], g);
  C_results ← collect (as_completed C_futures);
  select_best_C C_results.

(** [metrics.f1_score(Y[:, i], preds[:, i]) if not ignore else None] *)
Definition ret_metric (Y preds : list (list nat)) (i count : nat)
  : result (option Q) :=
  if (count =? 0)%nat then Ok None
  else
    y ← column Y i;
    p ← column preds i;
    Ok (Some (f1_score y p)).

Fixpoint ret_metrics_from (Y preds : list (list nat)) (i : nat)
    (counts : list nat) : result (list (option Q)) :=
  match counts with
  | [] => Ok []
  | count :: counts' =>
      m ← ret_metric Y preds i count;
      ms ← ret_metrics_from Y preds (S i) counts';
      Ok (m :: ms)
  end.

Definition analyze_features (features : gmap string Feature)
    (word2idx : gmap string nat) (embeddings : list (list Q)) (g : rng)
  : result (list (string * nat * option Q)) :=
  let X := embeddings in
  Y ← label_matrix features word2idx;
  let nonzero_features := nonzero (col_sums (size features) Y) in
  best_C ← search_C X Y nonzero_features g;
  let cls := fit (new_clf best_C) X Y in
  let preds := predict cls X in
  let counts := col_sums (size features) Y in
  ret_metrics ← ret_metrics_from Y preds 0 counts;
  Ok (zip (zip (feature_names features) counts) ret_metrics).
End FeatureFit.

(** ** The report of [main] *)

Definition Qltb (a b : Q) : bool := negb (Qle_bool b a).

(** One row of a group table: [(len(data), np.mean(scores),
    np.percentile(scores, (0, 50, 100)), np.mean(n_entries))]. *)
Record Summary : Type := mkSummary {
  n : nat;
  mean : Q;
  pcts : Q * Q * Q;
  n_concepts : Q
}.

(** [pcts[1]] *)
Definition median (s : Summary) : Q := (pcts s).1.2.

(** [groups[k].append(v)] on a [defaultdict(list)], in insertion order. *)
Fixpoint group_append {V} (groups : list (string * list V)) (k : string)
    (v : V) : list (string * list V) :=
  match groups with
  | [] => [(k, [v])]
  | (k', vs) :: rest =>
      if String.eqb k' k then (k', vs ++ [v]) :: rest
      else (k', vs) :: group_append rest k v
  end.

Section Report.
Context `{Numeric}.

Definition underscore : ascii := "_"%char.

(** The two grouping functions, in the order of the dictionary. *)
Definition grouping_fns (features : gmap string Feature)
  : list (string * (string -> result string)) :=
  [("br_label"%string,
    fun name => match features !! name with
                | Some f => Ok (br_label f)
                | None => Raise KeyError
                end);
   ("first_word"%string,
    fun name => index (Text.split_on underscore name) 0)].

(** [filter(lambda f: f[2] is not None, feature_data)] *)
Definition scored (feature_data : list (string * nat * option Q))
  : list (string * nat * Q) :=
  omap (fun '(name, n_entries, score) =>
          match score with
          | Some x => Some (name, n_entries, x)
          | None => None
          end) feature_data.

(** [groups[grouping_fn_name][group].append((score, n_entries))] *)
Definition groups_append (groups : list (string * list (string * list (Q * nat))))
    (grouping_fn_name group : string) (v : Q * nat)
  : list (string * list (string * list (Q * nat))) :=
  map (fun '(k, table) =>
         if String.eqb k grouping_fn_name then (k, group_append table group v)
         else (k, table)) groups.

(** The body of the loop over the scored features: the feature's line of
    the report, then its entry in a group of each grouping. *)
Definition report_feature (features : gmap string Feature)
    (st : list (string * string * nat * Q)
          * list (string * list (string * list (Q * nat))))
    (f : string * nat * Q)
  : result (list (string * string * nat * Q)
            * list (string * list (string * list (Q * nat)))) :=
  let '(lines, groups) := st in
  let '(name, n_entries, score) := f in
  match features !! name with
  | None => Raise KeyError
  | Some feature =>
      groups' ← for_each (fun groups '(grouping_fn_name, grouping_fn) =>
                            group ← grouping_fn name;
                            Ok (groups_append groups grouping_fn_name group
                                              (score, n_entries)))
                         (grouping_fns features) groups;
      Ok (lines ++ [(name, br_label feature, n_entries, score)], groups')
  end.

Definition summarize (data : list (Q * nat)) : Summary :=
  let scores := map fst data in
  let n_entries := map (fun d => inject_Z (Z.of_nat d.2)) data in
  mkSummary (length data) (np_mean scores)
            (np_percentile scores 0, np_percentile scores 50,
             np_percentile scores 100)
            (np_mean n_entries).

(** [sorted(summary.items(), key=lambda x: x[1][2][1])] *)
Definition summary_table (groups_result : list (string * list (Q * nat)))
  : list (string * Summary) :=
  sorted Qltb (fun x => median x.2)
         (map (fun '(name, data) => (name, summarize data)) groups_result).

(** The loop that writes a group table and records the medians. *)
Definition record_medians (fcat_med : gmap string Q)
    (summary : list (string * Summary)) : gmap string Q :=
  foldl (fun fcat_med '(label_group, s) => <[label_group := median s]> fcat_med)
        fcat_med summary.

(** Lines 634 to 669 of [main]: the lines of the report, the group tables
    in the order they are written, and [fcat_med].  The layout of the text
    is not modelled. *)
Definition main_report (features : gmap string Feature)
    (feature_data : list (string * nat * option Q))
  : result (list (string * string * nat * Q)
            * list (string * list (string * Summary))
            * gmap string Q) :=
  let feature_data := sorted Qltb (fun f => f.2) (scored feature_data) in
  let groups := map (fun '(k, _) => (k, [])) (grouping_fns features) in
  '(lines, groups) ← for_each (report_feature features) feature_data
                              ([], groups);
  let tables := map (fun '(grouping_fn_name, groups_result) =>
                       (grouping_fn_name, summary_table groups_result))
                    (sorted String.ltb fst groups) in
  let fcat_med := foldl (fun fcat_med '(_, summary) =>
                           record_medians fcat_med summary) ∅ tables in
  Ok (lines, tables, fcat_med).
End Report.

(** ** The distance of [do_cluster] *)

(** A float that may be NaN. *)
Inductive float : Type :=
| NaN
| Fin (q : Q).

Definition isnan (x : float) : bool :=
  match x with NaN => true | Fin _ => false end.

Definition float_op (op : Q -> Q -> Q) (x y : float) : float :=
  match x, y with
  | Fin a, Fin b => Fin (op a b)
  | _, _ => NaN
  end.

Definition fadd : float -> float -> float := float_op Qplus.
Definition fsub : float -> float -> float := float_op Qminus.
Definition fmul : float -> float -> float := float_op Qmult.

(** [x ** 2] *)
Definition fsquare (x : float) : float := fmul x x.

(** [scipy.spatial.distance.cosine] *)
Class Scipy : Type := {
  cosine : list float -> list float -> float
}.

Section Cluster.
Context `{Scipy}.

(** [[concept_vals.get(label, np.nan) for label in labels]] *)
Definition mean_metric (concept_vals : gmap string Q) (labels : list string)
  : list float :=
  map (fun label => match concept_vals !! label with
                    | Some v => Fin v
                    | None => NaN
                    end) labels.

(** [np.append(np.array([mean_metric]).T, X, axis=1)]: the value comes
    first in each row. *)
Definition with_metric (mean_metric : list float) (X : list (list float))
  : list (list float) :=
  zip_with cons mean_metric X.

Definition metric_fn (x y : list float) : result float :=
  x_weight ← index x 0;
  y_weight ← index y 0;
  let x_emb := drop 1 x in
  let y_emb := drop 1 y in
  let emb_dist := cosine x_emb y_emb in
  if isnan x_weight || isnan y_weight then Ok emb_dist
  else
    let weight_dist := fsquare (fsub x_weight y_weight) in
    Ok (fadd emb_dist (fmul (Fin 100) weight_dist)).
End Cluster.

(** ** The index of [main] *)

(** [{w: i for i, w in enumerate(vocab)}]: a later position of a word
    replaces an earlier one. *)
Definition main_word2idx (vocab : list string) : gmap string nat :=
  foldl (fun word2idx '(i, w) => <[w := i]> word2idx) ∅ (imap pair vocab).

(** ** [main], up to the report *)

Section Main.
Context `{Numeric} `{Estimator} `{Rng} `{Executor}.

(** Lines 629 to 669 of [main]: the catalog, the embeddings, the index, the
    analysis and the report.  The result is the state of the cache files and
    what the report block leaves: the lines, the group tables and
    [fcat_med]. *)
Definition main_to_report (features_file : option string) (fs : files)
    (g : rng)
  : result (files * (list (string * string * nat * Q)
                     * list (string * list (string * Summary))
                     * gmap string Q)) :=
  '(features, concepts) ← load_features_concepts features_file;
  '(fs', (vocab, embeddings)) ← load_embeddings fs concepts;
  let word2idx := main_word2idx vocab in
  feature_data ← analyze_features features word2idx embeddings g;
  report ← main_report features feature_data;
  Ok (fs', report).
End Main.

(** ** The weights of the concepts *)

(** [{k: val for k, _, val in feature_data}], the [feature_dict] of
    [do_cluster] and the [feature_map] of the graphs; [main] passes the
    scored features. *)
Definition feature_dict (feature_data : list (string * nat * Q))
  : gmap string Q :=
  foldl (fun d '(k, _, val) => <[k := val]> d) ∅ feature_data.

Section DoCluster.
Context `{Numeric}.

(** [concept_vals[concept].append(v)] on a [defaultdict(list)] *)
Definition vals_append (concept_vals : gmap string (list Q))
    (concept : string) (v : Q) : gmap string (list Q) :=
  <[concept := default [] (concept_vals !! concept) ++ [v]]> concept_vals.

(** Lines 590 to 596 of [do_cluster]: the mean score of the scored features
    of each concept of the vocabulary.  The dictionary and the concept sets
    are walked in the order [map_to_list] and [elements] give. *)
Definition do_cluster_concept_vals (vocab : list string)
    (features : gmap string Feature) (feature_data : list (string * nat * Q))
  : gmap string Q :=
  let feature_dict := feature_dict feature_data in
  let concept_vals :=
    foldl (fun concept_vals '(f_name, feature) =>
             foldl (fun concept_vals concept =>
                      if decide (concept ∈ vocab) then
                        match feature_dict !! f_name with
                        | Some v => vals_append concept_vals concept v
                        | None => concept_vals
                        end
                      else concept_vals)
                   concept_vals (elements (concepts feature)))
          ∅ (map_to_list features) in
  np_mean <$> concept_vals.
End DoCluster.

(** ** [analyze_domains] *)

Section AnalyzeDomains.
Context {D : Type} `{Countable D}.

(** The body of the inner loop: a point of the plot, and its score filed
    under its domain. *)
Definition domain_point (ff_scores : list Q) (i : nat)
    (st : list D * list Q * gmap D (list Q)) (d : D)
  : result (list D * list Q * gmap D (list Q)) :=
  let '(x, y, domain_feat_fit) := st in
  s ← index ff_scores i;
  Ok (x ++ [d], y ++ [s],
      match domain_feat_fit !! d with
      | Some scores => <[d := scores ++ [s]]> domain_feat_fit
      | None => <[d := [s]]> domain_feat_fit
      end).

(** Lines 447 to 456: the points [x], [y] of the plot and
    [domain_feat_fit], for a given [concept_domains]. *)
Definition analyze_domains (labels : list string) (ff_scores : list Q)
    (concept_domains : gmap string (list D))
  : result (list D * list Q * gmap D (list Q)) :=
  for_each (fun st '(i, concept) =>
              match concept_domains !! concept with
              | None => Raise KeyError
              | Some ds => for_each (domain_point ff_scores i) ds st
              end)
           (imap pair labels) ([], [], ∅).
End AnalyzeDomains.

(** ** The points of [produce_unified_graph] *)

(** [np.median] *)
Class Median : Type := np_median : list Q -> Q.

Definition domain_choices : list nat := [16; 17; 18; 26; 30].
Definition domain_color_choices : list string :=
  ["Salmon"; "SpringGreen"; "Tan"; "LightBlue"; "MediumPurple"]%string.

(** [dict(zip(domain_choices, domain_color_choices))], in its order. *)
Definition interesting_domains : list (nat * string) :=
  zip domain_choices domain_color_choices.

(** [colors.pop()], for the list that is left. *)
Definition pop {A} (l : list A) : result (list A) :=
  match l with
  | [] => Raise IndexError
  | _ :: _ => Ok (removelast l)
  end.

Section UnifiedGraph.
Context `{Numeric} `{Median}.

(** [[feature_map[feature.name] for feature in features.values()
      if concept in feature.concepts and feature.name in feature_map]] *)
Definition concept_weights (features : gmap string Feature)
    (feature_map : gmap string Q) (concept : string) : list Q :=
  omap (fun feature => if decide (concept ∈ concepts feature)
                       then feature_map !! name feature else None)
       (map snd (map_to_list features)).

(** The loop over [interesting_domains] that recolours the point; 0.2 is
    the rational 1/5. *)
Definition unified_colors (domain_concepts : gmap nat (list string))
    (concept : string) (weights : list Q) (colors : list string)
  : result (list string) :=
  for_each (fun colors '(d, color) =>
              match domain_concepts !! d with
              | None => Raise KeyError
              | Some cs =>
                  if bool_decide (concept ∈ cs)
                     && Qltb (np_median weights) (1 # 5)
                  then colors ← pop colors; Ok (colors ++ [color])
                  else Ok colors
              end)
           interesting_domains colors.

(** The body of the loop over the vocabulary. *)
Definition unified_point (features : gmap string Feature)
    (feature_map : gmap string Q) (domain_concepts : gmap nat (list string))
    (concept_pearson1 concept_pearson2 : gmap cell Q)
    (st : list Q * list Q * list Q * list string * list string)
    (concept : string)
  : result (list Q * list Q * list Q * list string * list string) :=
  let '(xs, ys, zs, labels, colors) := st in
  let weights := concept_weights features feature_map concept in
  match weights with
  | [] => Ok st
  | _ :: _ =>
      colors ← unified_colors domain_concepts concept weights
                              (colors ++ ["LightGray"%string]);
      x ← match concept_pearson1 !! CStr concept with
          | Some x => Ok x
          | None => Raise KeyError
          end;
      y ← match concept_pearson2 !! CStr concept with
          | Some y => Ok y
          | None => Raise KeyError
          end;
      Ok (xs ++ [x], ys ++ [y], zs ++ [np_median weights],
          labels ++ [concept], colors)
  end.

(** Lines 471 to 513 of [produce_unified_graph], for a given
    [domain_concepts]: the two correlation tables, the assertions on their
    keys, and the points [xs], [ys], [zs], [labels], [colors].  The loop of
    lines 489 to 495 only prints, and reads the tables at keys the
    assertions have checked. *)
Definition produce_unified_graph_points
    (pearson1 pearson2 : option (list (gmap string cell)))
    (vocab : list string) (features : gmap string Feature)
    (feature_data : list (string * nat * Q))
    (domain_concepts : gmap nat (list string))
  : result (list Q * list Q * list Q * list string * list string) :=
  concept_pearson1 ← get_values pearson1 "Concept" "correlation";
  concept_pearson2 ← get_values pearson2 "Concept" "correlation";
  if negb (bool_decide (dom concept_pearson1 = dom concept_pearson2))
  then Raise AssertionError
  else if negb (bool_decide (dom concept_pearson1
                             = list_to_set (map CStr vocab)))
  then Raise AssertionError
  else
    let feature_map := feature_dict feature_data in
    for_each (unified_point features feature_map domain_concepts
                            concept_pearson1 concept_pearson2)
             vocab ([], [], [], [], []).
End UnifiedGraph.

(** ** The clusters [do_cluster] returns *)

(** [{i: concepts for i, concepts in enumerate(sib_clusters)
      if len(concepts) > 0}] *)
Definition do_cluster_domains (sib_clusters : list (list string))
  : gmap nat (list string) :=
  foldl (fun domains '(i, concepts) =>
           if (0 <? length concepts)%nat then <[i := concepts]> domains
           else domains)
        ∅ (imap pair sib_clusters).

(** ** The points of [produce_unified_domain_graph] *)

(** [np.var] *)
Class Variance : Type := np_var : list Q -> Q.

(** [sorted([d for d in domain_concepts.keys()
            if len(domain_concepts[d]) > 7])] *)
Definition all_domains (domain_concepts : gmap nat (list string)) : list nat :=
  sorted Nat.ltb id
         (map fst (filter (fun p => (7 <? length p.2)%nat)
                          (map_to_list domain_concepts))).

Section UnifiedDomainGraph.
Context `{Median} `{Variance}.

(** [[feature_map[feature.name] for feature in features.values()
      for concept in domain_concepts[domain]
      if concept in feature.concepts and feature.name in feature_map]] *)
Definition domain_weights (features : gmap string Feature)
    (feature_map : gmap string Q) (domain_concepts : gmap nat (list string))
    (domain : nat) : result (list Q) :=
  for_each (fun weights feature =>
              match domain_concepts !! domain with
              | None => Raise KeyError
              | Some cs =>
                  Ok (weights ++
                      omap (fun concept =>
                              if decide (concept ∈ concepts feature)
                              then feature_map !! name feature else None) cs)
              end)
           (map snd (map_to_list features)) [].

(** [d[domain]] *)
Definition at_domain (d : gmap nat Q) (domain : nat) : result Q :=
  match d !! domain with
  | Some v => Ok v
  | None => Raise KeyError
  end.

(** The body of the loop over [all_domains]; the state is [xs], [ys], [zs],
    [x_vars], [y_vars], [z_vars], [labels]. *)
Definition unified_domain_point (features : gmap string Feature)
    (feature_map : gmap string Q) (domain_concepts : gmap nat (list string))
    (domain_p1_means domain_p1_vars domain_p2_means domain_p2_vars : gmap nat Q)
    (st : list Q * list Q * list Q * list Q * list Q * list Q * list nat)
    (domain : nat)
  : result (list Q * list Q * list Q * list Q * list Q * list Q * list nat) :=
  let '(xs, ys, zs, x_vars, y_vars, z_vars, labels) := st in
  weights ← domain_weights features feature_map domain_concepts domain;
  match weights with
  | [] => Ok st
  | _ :: _ =>
      x ← at_domain domain_p1_means domain;
      y ← at_domain domain_p2_means domain;
      x_var ← at_domain domain_p1_vars domain;
      y_var ← at_domain domain_p2_vars domain;
      Ok (xs ++ [x], ys ++ [y], zs ++ [np_median weights],
          x_vars ++ [x_var], y_vars ++ [y_var], z_vars ++ [np_var weights],
          labels ++ [domain])
  end.

(** Lines 347 to 372 of [produce_unified_domain_graph], for the means and
    variances [domain_feat_freq.get_average] returned for the two
    correlation tables. *)
Definition produce_unified_domain_graph_points
    (domain_p1_means domain_p1_vars domain_p2_means domain_p2_vars : gmap nat Q)
    (features : gmap string Feature) (feature_data : list (string * nat * Q))
    (domain_concepts : gmap nat (list string))
  : result (list Q * list Q * list Q * list Q * list Q * list Q * list nat) :=
  if negb (bool_decide (dom domain_p1_means = dom domain_p2_means))
  then Raise AssertionError
  else
    let feature_map := feature_dict feature_data in
    for_each (unified_domain_point features feature_map domain_concepts
                domain_p1_means domain_p1_vars domain_p2_means domain_p2_vars)
             (all_domains domain_concepts) ([], [], [], [], [], [], []).
End UnifiedDomainGraph.

(** ** Instances of the interfaces, for running the model *)

Module Exact.

(** The arithmetic mean, exactly. *)
Definition q_mean (l : list Q) : Q :=
  (foldr Qplus 0 l / inject_Z (Z.of_nat (length l)))%Q.

(** The percentile by linear interpolation between the two neighbours,
    NumPy's default, exactly. *)
Definition q_percentile (data : list Q) (q : Q) : Q :=
  let a := sorted Qltb id data in
  let pos := (q / 100 * inject_Z (Z.of_nat (length a - 1)))%Q in
  let lo := Qfloor pos in
  let x := nth (Z.to_nat lo) a 0%Q in
  let y := nth (S (Z.to_nat lo)) a x in
  Qred (x + (pos - inject_Z lo) * (y - x))%Q.

Definition digit (c : ascii) : option Z :=
  let k := N_of_ascii c in
  if ((48 <=? k) && (k <=? 57))%N then Some (Z.of_N k - 48)%Z else None.

(** Digits read as an integer, with the power of ten of their number. *)
Fixpoint digits (acc scale : Z) (s : string) : option (Z * Z) :=
  match s with
  | EmptyString => Some (acc, scale)
  | String c s' =>
      match digit c with
      | Some d => digits (10 * acc + d)%Z (10 * scale)%Z s'
      | None => None
      end
  end.

Fixpoint before_point (cur s : string) : string * option string :=
  match s with
  | EmptyString => (cur, None)
  | String c s' =>
      if Text.eqb_ascii c "."%char then (cur, Some s')
      else before_point (Text.snoc cur c) s'
  end.

(** Plain decimals ("12", "0.25", "-3.5"): a part of what [float] reads. *)
Definition unsigned_decimal (s : string) : option Q :=
  match before_point "" s with
  | (EmptyString, _) => None
  | (whole, None) => '(w, _) ← digits 0 1 whole; Some (inject_Z w)
  | (whole, Some frac) =>
      '(w, _) ← digits 0 1 whole;
      '(f, scale) ← digits 0 1 frac;
      Some (Qred (inject_Z w + Qmake f (Z.to_pos scale)))
  end.

Definition decimal (s : string) : option Q :=
  match s with
  | String "-"%char s' => Qopp <$> unsigned_decimal s'
  | _ => unsigned_decimal s
  end.

(** Exact rational arithmetic.  The logarithm has no rational value: the
    identity, increasing like it, stands in where a run needs numbers. *)
Definition numeric : Numeric :=
  {| float_of_string := decimal;
     np_log := fun x => x;
     np_mean := q_mean;
     np_percentile := q_percentile |}.

(** A classifier that reads the probability of every label off the first
    coordinate of the row. *)
Definition proba_row (w : nat) (row : list Q) : list Q :=
  replicate w (hd 0%Q row).
Definition label_row (w : nat) (row : list Q) : list nat :=
  replicate w (if Qle_bool (1 # 2) (hd 0%Q row) then 1 else 0).

(** [2 tp / (2 tp + fp + fn)], 0 when nothing is positive. *)
Definition f1 (y p : list nat) : Q :=
  let tp := length (filter (fun yp => yp.1 ≠ 0 ∧ yp.2 ≠ 0) (zip y p)) in
  let fp := length (filter (fun yp => yp.1 = 0 ∧ yp.2 ≠ 0) (zip y p)) in
  let fn := length (filter (fun yp => yp.1 ≠ 0 ∧ yp.2 = 0) (zip y p)) in
  match (2 * tp + fp + fn)%nat with
  | O => 0%Q
  | S d => Qred (Qmake (Z.of_nat (2 * tp)%nat) (Pos.of_succ_nat d))
  end.

(** A generator that draws the first [n] elements. *)
Definition first_n {A} (l : list A) (n : nat) (g : unit) : list A * unit :=
  (take n l, g).

(** A unit-vector cosine distance, [1 - u . v], without the norms. *)
Fixpoint dot (u v : list float) : float :=
  match u, v with
  | a :: u', b :: v' => fadd (fmul a b) (dot u' v')
  | _, _ => Fin 0
  end.
Definition scipy : Scipy := {| cosine := fun u v => fsub (Fin 1) (dot u v) |}.

(** [np.median], exactly: the percentile 50. *)
Definition q_median : Median := fun data => q_percentile data 50.

(** [np.var], exactly: the mean of the squared distances to the mean. *)
Definition q_var : Variance :=
  fun data => q_mean (map (fun x => (x - q_mean data) * (x - q_mean data))%Q
                          data).

End Exact.

(** ** Sample inputs *)

Module Sample.

Definition tsv (fields : list string) : string :=
  Text.join (String Text.tab "") fields.
Definition text (lines : list string) : string :=
  Text.join (String Text.lf "") lines.

(** A row of the McRae catalog: concept, feature, the four labels read at
    columns 2 to 5 and the flag read at column 10. *)
Definition catalog_line (concept feature br : string) : string :=
  tsv [concept; feature; "wb"; "c"; "h"; br; "1"; "2"; "3"; "4"; "D"]%string.

Definition catalog_file : string :=
  text [catalog_line "Concept" "Feature" "BR_Label";
        catalog_line "accordion" "a_musical_instrument" "taxonomic";
        catalog_line "accordion" "has_keys" "visual-form_and_surface";
        catalog_line "dunebuggy" "has_wheels" "visual-form_and_surface";
        catalog_line "piano" "has_keys" "visual-form_and_surface"]%string.

(** Rows of a Pearson correlation table, as [csv.DictReader] yields them. *)
Definition pearson_row (concept correlation : string) : gmap string cell :=
  <["Concept"%string := CStr concept]>
    (<["correlation"%string := CStr correlation]> ∅).
Definition pearson_rows : list (gmap string cell) :=
  [pearson_row "dog" "0.5"; pearson_row "cat" "n/a"; pearson_row "dog" "0.25"].

(** Three concepts, two of them with a mean feature fit. *)
Definition labels : list string := ["dog"; "cat"; "rock"]%string.
Definition unit_vectors : list (list float) :=
  [[Fin 1; Fin 0]; [Fin 0; Fin 1]; [Fin 1; Fin 0]].
Definition concept_vals : gmap string Q :=
  <["dog"%string := (1 # 2)%Q]> (<["cat"%string := (1 # 4)%Q]> ∅).

(** A raw embedding file of dimension 2, the concepts wanted from it, and
    two states of the files: nothing cached yet, and a cache whose
    vocabulary file is gone. *)
Definition glove_file : string :=
  text ["the 1 1"; "dog 0.5 1"; "cat 0.25 2"]%string.
Definition wanted_concepts : gset string := {["dog"; "cat"; "unicorn"]}%string.
Definition no_cache : files := mkFiles None None (Some glove_file).
Definition cache_without_vocab : files :=
  mkFiles (Some [[(1 # 4)%Q; 2%Q]; [(1 # 2)%Q; 1%Q]]) None (Some glove_file).

(** A catalog in which the first word of a feature name, "function", is also
    the category label of another feature, with the scores of an analysis
    that left one feature out. *)
Definition feature_of (nm br : string) (cs : list string) : string * Feature :=
  (nm, mkFeature nm (list_to_set cs) "wb" "c" "h" br "D").
Definition clash_features : gmap string Feature :=
  list_to_map [feature_of "function_x" "taxonomic" ["axe"; "saw"];
               feature_of "has_legs" "function" ["dog"; "cat"];
               feature_of "is_big" "taxonomic" ["whale"]]%string.
Definition clash_scores : list (string * nat * option Q) :=
  [("has_legs"%string, 6, Some (4 # 5)%Q); ("is_big"%string, 2, None);
   ("function_x"%string, 5, Some (1 # 5)%Q)].


(** Three concepts of which the middle one has the feature of column 0. *)
Definition three_rows : list (list Q) :=
  [[(1 # 2)%Q]; [(1 # 4)%Q]; [(1 # 8)%Q]].
Definition middle_positive : list (list nat) := [[0]; [1]; [0]].

(** A vocabulary of five concepts with their embeddings, a catalog of ten
    features held by all five, and a catalog of one such feature. *)
Definition five_words : gmap string nat :=
  list_to_map [("a", 0); ("b", 1); ("c", 2); ("d", 3); ("e", 4)]%string.
Definition five_vectors : list (list Q) :=
  [[(1 # 2)%Q]; [(1 # 4)%Q]; [(1 # 8)%Q]; [(3 # 4)%Q]; [(1 # 3)%Q]].
Definition held_by_all (nm : string) : string * Feature :=
  feature_of nm "taxonomic" ["a"; "b"; "c"; "d"; "e"]%string.
Definition ten_features : gmap string Feature :=
  list_to_map (map held_by_all ["f0"; "f1"; "f2"; "f3"; "f4"; "f5"; "f6"; "f7";
                                "f8"; "f9"]%string).

(** A catalog whose last line has no tab, and one that gives "has_keys" a
    second category on a later row. *)
Definition truncated_catalog : string :=
  text [catalog_line "accordion" "has_keys" "taxonomic"; "piano"]%string.
Definition relabelled_catalog : string :=
  text [catalog_line "Concept" "Feature" "BR_Label";
        catalog_line "accordion" "has_keys" "visual-form_and_surface";
        catalog_line "piano" "has_keys" "taxonomic"]%string.

(** Raw embedding files with a blank line, and with two lines for "dog". *)
Definition gapped_glove : files :=
  mkFiles None None (Some (text ["dog 0.5 1"; ""; "cat 0.25 2"]%string)).
Definition doubled_glove_file : string :=
  text ["dog 0.5 1"; "the 1 1"; "dog 0.25 2"]%string.
Definition doubled_glove : files := mkFiles None None (Some doubled_glove_file).

(** Rows of a correlation table, the second without a correlation. *)
Definition broken_rows : list (gmap string cell) :=
  [pearson_row "dog" "0.5"; <["Concept"%string := CStr "cat"]> ∅].

(** Scores that name a feature the catalog does not have. *)
Definition stray_scores : list (string * nat * option Q) :=
  [("has_legs"%string, 6, Some (4 # 5)%Q); ("has_tail"%string, 3, Some (1 # 2)%Q)].

(** The two concepts of the correlation tables as vocabulary, scores below
    0.2 for two features of [clash_features], the five domains of the graph
    (concept "cat" in one of them, "dog" in two), and the domains of the
    two concepts. *)
Definition two_words : list string := ["cat"; "dog"]%string.
Definition low_scores : list (string * nat * Q) :=
  [("has_legs"%string, 6, (1 # 10)%Q); ("function_x"%string, 5, (1 # 5)%Q)].
Definition five_domains : gmap nat (list string) :=
  list_to_map [(16, ["cat"]); (17, []); (18, ["dog"]); (26, []);
               (30, ["dog"])]%string.
Definition two_domains : gmap string (list nat) :=
  list_to_map [("cat", [16]); ("dog", [18; 30])]%string.

(** Two domains, one of them with more than 7 concepts, and the mean or
    variance of that domain. *)
Definition large_domains : gmap nat (list string) :=
  list_to_map [(3, ["cat"; "dog"; "a"; "b"; "c"; "d"; "e"; "f"]);
               (5, ["cat"])]%string.
Definition domain_value : gmap nat Q := {[3 := (1 # 2)%Q]}.

(** A catalog of nine features held by the five words and one held by two
    of them, and the ten features with one more held by two. *)
Definition nine_and_small : gmap string Feature :=
  list_to_map (feature_of "f_small" "taxonomic" ["a"; "b"]%string ::
               map held_by_all ["f0"; "f1"; "f2"; "f3"; "f4"; "f5"; "f6";
                                "f7"; "f8"]%string).
Definition ten_and_small : gmap string Feature :=
  <["f_small"%string :=
      (feature_of "f_small" "taxonomic" ["a"; "b"]%string).2]> ten_features.

(** A catalog file and a raw embedding file for a whole run: ten features
    of five concepts each, among six concepts.  The feature "has_legs" is
    the one of category "function", and the name of "function_x", of
    category "taxonomic", starts with that word. *)
Definition run_catalog : string :=
  text (catalog_line "Concept" "Feature" "BR_Label" ::
        mjoin (map (fun '(nm, br, cs) =>
                      map (fun c => catalog_line c nm br) cs)
                   (("function_x", "taxonomic", ["a"; "b"; "c"; "d"; "e"]) ::
                    ("has_legs", "function", ["b"; "c"; "d"; "e"; "f"]) ::
                    map (fun nm => (nm, "taxonomic", ["a"; "b"; "c"; "d"; "e"]))
                        ["is_0"; "is_1"; "is_2"; "is_3"; "is_4"; "is_5";
                         "is_6"; "is_7"])))%string.
Definition run_glove : files :=
  mkFiles None None
          (Some (text ["a 1"; "b 1"; "the 1"; "c 1"; "d 1"; "e 1"; "f 0"]%string)).

End Sample.

(** * Properties *)

(** ** The exception monad and loops *)

Lemma bind_Ok {A B} (r : result A) (k : A -> result B) b :
  (r ≫= k) = Ok b -> exists a, r = Ok a /\ k a = Ok b.
Proof. destruct r as [a|e]; simpl; [eauto | discriminate]. Qed.

(** A loop invariant carries from the initial state to the final one. *)
Lemma for_each_invariant {A B} (P : A -> Prop) (body : A -> B -> result A) l :
  (forall a x a', x ∈ l -> P a -> body a x = Ok a' -> P a') ->
  forall a a', P a -> for_each body l a = Ok a' -> P a'.
Proof.
  induction l as [|x l IH]; intros Hstep a a' Ha Hrun; simpl in Hrun.
  - by injection Hrun as <-.
  - apply bind_Ok in Hrun as (a1 & H1 & H2).
    eapply IH; [| |exact H2].
    + intros ???? ; apply Hstep. by right.
    + eapply Hstep; [by left|exact Ha|exact H1].
Qed.

(** A loop whose body returns on every state of the invariant returns. *)
Lemma for_each_returns {A B} (P : A -> Prop) (body : A -> B -> result A) l :
  (forall a x, x ∈ l -> P a -> exists a', body a x = Ok a' /\ P a') ->
  forall a, P a -> exists a', for_each body l a = Ok a' /\ P a'.
Proof.
  induction l as [|x l IH]; intros Hstep a Ha; simpl.
  - eauto.
  - destruct (Hstep a x) as (a1 & -> & Ha1); [by left|done|]. simpl.
    apply IH; [|done]. intros ????; apply Hstep; [by right|done].
Qed.

(** ** The catalog loader *)

(** The invariant of the loop of [load_features_concepts]: the concept set
    is the union of the features' sets, none of which is empty. *)
Definition catalog_inv (st : gmap string Feature * gset string) : Prop :=
  (forall c, c ∈ st.2 <-> exists nm f, st.1 !! nm = Some f /\ c ∈ concepts f) /\
  (forall nm f, st.1 !! nm = Some f -> concepts f ≠ ∅).

(** Adding a concept restores the invariant, also right after a feature was
    created with the empty set. *)
Lemma catalog_inv_add (features : gmap string Feature) cs c nm f0 :
  catalog_inv (features, cs) \/
  (exists features0, features = <[nm := f0]> features0 /\ concepts f0 = ∅
                     /\ features0 !! nm = None /\ catalog_inv (features0, cs)) ->
  is_Some (features !! nm) ->
  catalog_inv (alter (add_concept c) nm features, {[c]} ∪ cs).
Proof.
  intros Hinv [f Hf].
  assert (Hold : forall c', c' ∈ cs <->
            exists n' f', features !! n' = Some f' /\ c' ∈ concepts f').
  { destruct Hinv as [[H1 _]|(features0 & -> & He & Hnone & [H1 _])]; [exact H1|].
    intros c'. rewrite (H1 c'). simpl. split.
    - intros (n' & f' & Hl & Hc). exists n', f'. split; [|done].
      rewrite lookup_insert_ne; [done|]. intros <-. congruence.
    - intros (n' & f' & Hl & Hc). destruct (decide (nm = n')) as [<-|Hne].
      + rewrite lookup_insert_eq in Hl. injection Hl as <-. set_solver.
      + rewrite lookup_insert_ne in Hl by done. eauto. }
  split; simpl.
  - intros c'. rewrite elem_of_union, elem_of_singleton, Hold. split.
    + intros [->|(n' & f' & Hl & Hc)].
      * exists nm, (add_concept c f). rewrite lookup_alter_eq, Hf. simpl.
        split; [done|set_solver].
      * destruct (decide (nm = n')) as [<-|Hne].
        -- exists nm, (add_concept c f'). rewrite lookup_alter_eq, Hl. simpl.
           split; [done|set_solver].
        -- exists n', f'. by rewrite lookup_alter_ne.
    + intros (n' & f' & Hl & Hc). destruct (decide (nm = n')) as [<-|Hne].
      * rewrite lookup_alter_eq, Hf in Hl. injection Hl as <-. simpl in Hc.
        apply elem_of_union in Hc as [Hc|Hc]; [left; set_solver|right; eauto].
      * rewrite lookup_alter_ne in Hl by done. right; eauto.
  - intros n' f' Hl. destruct (decide (nm = n')) as [<-|Hne].
    + rewrite lookup_alter_eq, Hf in Hl. injection Hl as <-. simpl. set_solver.
    + rewrite lookup_alter_ne in Hl by done.
      destruct Hinv as [[_ H2]|(features0 & -> & He & Hnone & [_ H2])]; [eauto|].
      rewrite lookup_insert_ne in Hl by done. eauto.
Qed.

Lemma catalog_row_inv st line st' :
  catalog_inv st -> catalog_row st line = Ok st' -> catalog_inv st'.
Proof.
  destruct st as [features cs]. unfold catalog_row.
  destruct (Text.split_on _ _) as [|concept_name [|feature_name fields]];
    [discriminate..|].
  intros Hinv. destruct (_ || _); [by intros [= <-]|].
  intros (features' & Hf & Hr)%bind_Ok. injection Hr as <-.
  destruct (features !! feature_name) as [f|] eqn:Hlook.
  - injection Hf as <-. apply catalog_inv_add with (f0 := f); [by left|eauto].
  - apply bind_Ok in Hf as (f10 & _ & Hf).
    destruct (take 4 _) as [|f2 [|f3 [|f4 [|f5 [|??]]]]]; try discriminate.
    injection Hf as <-.
    eapply catalog_inv_add.
    + right. eexists. split; [reflexivity|]. split; [reflexivity|]. done.
    + rewrite lookup_insert_eq. eauto.
Qed.

(** C7: whenever [load_features_concepts] returns, the concept set it
    returns is the union of the concept sets of the features it returns, and
    every returned feature has a concept. *)
Theorem load_features_concepts_union features_file features cs :
  load_features_concepts features_file = Ok (features, cs) ->
  (forall c, c ∈ cs <->
             exists nm f, features !! nm = Some f /\ c ∈ concepts f) /\
  (forall nm f, features !! nm = Some f -> concepts f ≠ ∅).
Proof.
  destruct features_file as [content|]; [|discriminate]. simpl. intros Hrun.
  apply (for_each_invariant catalog_inv) in Hrun; [exact Hrun| |].
  - intros ???? ; apply catalog_row_inv.
  - split; simpl; [|intros ?? Hl; by rewrite lookup_empty in Hl].
    intros c. split; [set_solver|]. intros (?&?&Hl&_). by rewrite lookup_empty in Hl.
Qed.

Lemma load_features_concepts_union_witness :
  exists features cs,
    load_features_concepts (Some Sample.catalog_file) = Ok (features, cs) /\
    size features = 2 /\ size cs = 2 /\
    (forall c, c ∈ cs <->
               exists nm f, features !! nm = Some f /\ c ∈ concepts f) /\
    (forall nm f, features !! nm = Some f -> concepts f ≠ ∅).
Proof.
  destruct (load_features_concepts (Some Sample.catalog_file))
    as [[features cs]|e] eqn:E.
  - exists features, cs. split; [done|].
    split; [by vm_compute in E; injection E as <- <-|].
    split; [by vm_compute in E; injection E as <- <-|].
    exact (load_features_concepts_union _ _ _ E).
  - vm_compute in E. discriminate.
Defined.

(** ** [get_values] *)

Section GetValuesFacts.
Context `{Numeric}.

(** What a row contributes: 0 for "n/a", else the float of its field. *)
Definition records (value : string) (row : gmap string cell) (x : Q) : Prop :=
  (row !! value = Some (CStr "n/a") /\ x = 0%Q) \/
  (exists v, row !! value = Some v /\ v ≠ CStr "n/a" /\ float_cell v = Ok x).

Lemma records_fun value row x y :
  records value row x -> records value row y -> x = y.
Proof.
  intros [[H1 ->]|(v & H1 & Hv & Hx)] [[H2 ->]|(w & H2 & Hw & Hy)];
    try congruence.
Qed.

Lemma get_values_row_records c_string value m row k x :
  c_string ≠ value -> row !! c_string = Some k -> records value row x ->
  get_values_row c_string value m row = Ok (<[k := x]> m).
Proof.
  intros Hne Hk Hx. unfold get_values_row, row_get.
  destruct Hx as [[Hv ->]|(v & Hv & Hna & Hx)]; rewrite Hv;
    cbn [mbind result_bind].
  - case_decide; [|done]. rewrite lookup_insert_eq. cbn.
    rewrite lookup_insert_ne by done. rewrite Hk. done.
  - case_decide; [done|]. rewrite Hv. cbn [mbind result_bind]. rewrite Hx.
    cbn [mbind result_bind]. rewrite Hk. done.
Qed.

(** The loop returns when every row has its two fields readable; a key no
    row carries keeps its entry, and a key holds what the last row carrying
    it records. *)
Lemma get_values_loop c_string value rows :
  c_string ≠ value ->
  Forall (fun row => is_Some (row !! c_string) /\
                     exists x, records value row x) rows ->
  forall m0, exists m,
    for_each (get_values_row c_string value) rows m0 = Ok m /\
    (forall k, Forall (fun row => row !! c_string ≠ Some k) rows ->
               m !! k = m0 !! k) /\
    (forall before row after k x,
        rows = before ++ row :: after -> row !! c_string = Some k ->
        Forall (fun row' => row' !! c_string ≠ Some k) after ->
        records value row x -> m !! k = Some x).
Proof.
  intros Hne. induction 1 as [|r rows [[kr Hkr] [xr Hxr]] Hrows IH]; intros m0.
  - exists m0. split; [done|]. split; [done|].
    intros [|??] ?????; discriminate.
  - simpl. rewrite (get_values_row_records _ _ _ _ kr xr) by done. simpl.
    destruct (IH (<[kr := xr]> m0)) as (m & Hrun & Hkeep & Hlast).
    exists m. split; [done|]. split.
    + intros k [Hk Hks]%Forall_cons. rewrite Hkeep by done.
      apply lookup_insert_ne. congruence.
    + intros [|b before] row after k x Heq Hk Hafter Hx; simpl in Heq.
      * injection Heq as <- <-. rewrite Hkeep by done.
        assert (k = kr) as -> by congruence.
        rewrite lookup_insert_eq. f_equal. eapply records_fun; eauto.
      * injection Heq as <- ->. eapply Hlast; eauto.
Qed.

(** C10: on a table whose rows have both columns, the value being "n/a" or
    text [float] reads, [get_values] returns; the row that is the last one of
    its concept key gives the key its value, 0 when the field is "n/a" (no
    conversion is attempted on it) and the float of the field otherwise. *)
Theorem get_values_na_zero_last_wins rows c_string value :
  c_string ≠ value ->
  Forall (fun row => is_Some (row !! c_string) /\
                     exists v, row !! value = Some v /\
                               (v = CStr "n/a" \/ exists x, float_cell v = Ok x))
         rows ->
  exists m,
    get_values (Some rows) c_string value = Ok m /\
    forall before row after k,
      rows = before ++ row :: after -> row !! c_string = Some k ->
      Forall (fun row' => row' !! c_string ≠ Some k) after ->
      (row !! value = Some (CStr "n/a") -> m !! k = Some 0%Q) /\
      (forall v x, row !! value = Some v -> v ≠ CStr "n/a" ->
                   float_cell v = Ok x -> m !! k = Some x).
Proof.
  intros Hne Hrows.
  destruct (get_values_loop c_string value rows Hne)
    with (m0 := (∅ : gmap cell Q)) as (m & Hrun & _ & Hlast).
  { eapply Forall_impl; [exact Hrows|]. intros row [Hk (v & Hv & Hc)].
    split; [done|]. destruct (decide (v = CStr "n/a")) as [->|Hna].
    - exists 0%Q. by left.
    - destruct Hc as [?|[x Hx]]; [done|]. exists x. right. eauto. }
  exists m. split; [done|]. intros before row after k Heq Hk Hafter. split.
  - intros Hv. eapply Hlast; eauto. by left.
  - intros v x Hv Hna Hx. eapply Hlast; eauto. right. eauto.
Qed.
End GetValuesFacts.

Lemma get_values_na_zero_last_wins_witness :
  exists m,
    @get_values Exact.numeric (Some Sample.pearson_rows) "Concept" "correlation"
      = Ok m /\
    forall before row after k,
      Sample.pearson_rows = before ++ row :: after ->
      row !! "Concept"%string = Some k ->
      Forall (fun row' => row' !! "Concept"%string ≠ Some k) after ->
      (row !! "correlation"%string = Some (CStr "n/a") -> m !! k = Some 0%Q) /\
      (forall v x, row !! "correlation"%string = Some v -> v ≠ CStr "n/a" ->
                   @float_cell Exact.numeric v = Ok x -> m !! k = Some x).
Proof.
  apply (@get_values_na_zero_last_wins Exact.numeric Sample.pearson_rows).
  - discriminate.
  - repeat (apply Forall_cons; split;
            [split; [eexists; reflexivity|];
             eexists; split; [reflexivity|];
             first [left; reflexivity | right; eexists; reflexivity] |]).
    apply Forall_nil.
    Unshelve. all: exact I.
Defined.

(** ** The clustering distance *)

Section ClusterFacts.
Context `{Scipy}.

(** A row of the clustered array: the concept's value, then its embedding. *)
Lemma with_metric_lookup concept_vals labels X i li ei :
  labels !! i = Some li -> X !! i = Some ei ->
  with_metric (mean_metric concept_vals labels) X !! i =
    Some (match concept_vals !! li with Some v => Fin v | None => NaN end :: ei).
Proof.
  intros Hl He. unfold with_metric, mean_metric.
  rewrite lookup_zip_with, list_lookup_fmap, Hl, He. done.
Qed.

(** C9: between the rows of two concepts that both have a feature-fit
    value, [metric_fn] is the cosine distance of the embeddings plus 100
    times the squared difference of the two values, a sum of numbers; it is
    the cosine distance alone when one of the concepts has no value (its
    entry is NaN). *)
Theorem metric_fn_cosine_plus_weighted concept_vals labels X i j li lj ei ej :
  labels !! i = Some li -> labels !! j = Some lj ->
  X !! i = Some ei -> X !! j = Some ej ->
  exists x y,
    with_metric (mean_metric concept_vals labels) X !! i = Some x /\
    with_metric (mean_metric concept_vals labels) X !! j = Some y /\
    match concept_vals !! li, concept_vals !! lj with
    | Some a, Some b =>
        (forall c, cosine ei ej = Fin c ->
           metric_fn x y = Ok (Fin (c + 100 * ((a - b) * (a - b)))%Q)) /\
        (cosine ei ej = NaN -> metric_fn x y = Ok NaN)
    | _, _ => metric_fn x y = Ok (cosine ei ej)
    end.
Proof.
  intros Hli Hlj Hei Hej. eexists _, _.
  split; [by apply with_metric_lookup|]. split; [by apply with_metric_lookup|].
  unfold metric_fn. cbn.
  destruct (concept_vals !! li) as [a|], (concept_vals !! lj) as [b|];
    try reflexivity.
  split.
  - intros c Hc. change (drop 0 ei) with ei. change (drop 0 ej) with ej.
    rewrite Hc. reflexivity.
  - intros Hc. change (drop 0 ei) with ei. change (drop 0 ej) with ej.
    rewrite Hc. reflexivity.
Qed.
End ClusterFacts.

Lemma metric_fn_cosine_plus_weighted_witness :
  exists x y q,
    with_metric (mean_metric Sample.concept_vals Sample.labels)
                Sample.unit_vectors !! 0 = Some x /\
    with_metric (mean_metric Sample.concept_vals Sample.labels)
                Sample.unit_vectors !! 1 = Some y /\
    @metric_fn Exact.scipy x y = Ok (Fin q) /\ (q == 29 # 4)%Q.
Proof.
  destruct (@metric_fn_cosine_plus_weighted Exact.scipy Sample.concept_vals
              Sample.labels Sample.unit_vectors 0 1 "dog" "cat"
              [Fin 1; Fin 0] [Fin 0; Fin 1]
              eq_refl eq_refl eq_refl eq_refl) as (x & y & Hx & Hy & Hm).
  change (Sample.concept_vals !! "dog"%string) with (Some (1 # 2)%Q) in Hm.
  change (Sample.concept_vals !! "cat"%string) with (Some (1 # 4)%Q) in Hm.
  destruct Hm as [Hm _].
  eexists x, y, _. split; [exact Hx|]. split; [exact Hy|].
  split; [apply Hm; vm_compute; reflexivity|]. vm_compute. reflexivity.
Defined.

(** ** Text *)

Module TextFacts.
Import Text.

Lemma append_cons c s t : String c s +:+ t = String c (s +:+ t).
Proof. reflexivity. Qed.

Lemma append_empty_l t : "" +:+ t = t.
Proof. reflexivity. Qed.

Lemma append_empty_r s : s +:+ "" = s.
Proof. induction s as [|c s IH]; [done|]. by rewrite append_cons, IH. Qed.

Lemma append_assoc (s t u : string) : (s +:+ t) +:+ u = s +:+ t +:+ u.
Proof.
  induction s as [|c s IH]; [done|]. by rewrite !append_cons, IH.
Qed.

Lemma snoc_append cur c s : snoc cur c +:+ s = cur +:+ String c s.
Proof. unfold snoc. by rewrite append_assoc, append_cons, append_empty_l. Qed.

Lemma no_space_append s t :
  no_space (s +:+ t) = no_space s && no_space t.
Proof.
  induction s as [|c s IH]; [done|].
  rewrite append_cons. simpl. rewrite IH. by destruct (is_space c).
Qed.

Lemma is_word_flush cur rest :
  no_space cur = true -> Forall (fun w => is_word w = true) rest ->
  Forall (fun w => is_word w = true) (flush cur rest).
Proof.
  intros Hcur Hrest. destruct cur as [|c cur]; [done|]. simpl.
  constructor; [|done]. unfold is_word. by rewrite Hcur.
Qed.

Lemma split_from_words cur s :
  no_space cur = true -> Forall (fun w => is_word w = true) (split_from cur s).
Proof.
  revert cur. induction s as [|c s IH]; intros cur Hcur; simpl.
  - by apply is_word_flush.
  - destruct (is_space c) eqn:Hc.
    + apply is_word_flush; [done|]. by apply IH.
    + apply IH. unfold snoc. rewrite no_space_append, Hcur. simpl.
      by rewrite Hc.
Qed.

(** Every token of [s.split()] is a word. *)
Lemma split_words s : Forall (fun w => is_word w = true) (split s).
Proof. by apply split_from_words. Qed.

Lemma is_word_no_space w : is_word w = true -> no_space w = true.
Proof. unfold is_word. by intros [_ ?]%andb_true_iff. Qed.

Lemma lstrip_append_word w s : is_word w = true -> lstrip (w +:+ s) = w +:+ s.
Proof.
  destruct w as [|c w]; [done|]. unfold is_word. rewrite append_cons. simpl.
  by destruct (is_space c).
Qed.

Lemma rstrip_no_space w s :
  no_space w = true -> rstrip (w +:+ s) = w +:+ rstrip s.
Proof.
  induction w as [|c w IH]; [done|]. simpl.
  intros [Hc Hw]%andb_true_iff. rewrite !append_cons. simpl.
  rewrite IH by done.
  destruct (w +:+ rstrip s) eqn:E; [|done].
  by destruct (is_space c).
Qed.

(** A word read back with its line terminator strips to itself. *)
Lemma strip_word_lf w : is_word w = true -> strip (snoc w lf) = w.
Proof.
  intros Hw. unfold strip, snoc. rewrite lstrip_append_word by done.
  rewrite rstrip_no_space by by apply is_word_no_space.
  simpl. apply append_empty_r.
Qed.

Lemma strip_word w : is_word w = true -> strip w = w.
Proof.
  intros Hw. unfold strip. rewrite <- (append_empty_r w) at 1.
  rewrite lstrip_append_word by done.
  rewrite rstrip_no_space by by apply is_word_no_space.
  apply append_empty_r.
Qed.

Lemma eqb_ascii_lf_space c : eqb_ascii c lf = true -> is_space c = true.
Proof. unfold eqb_ascii. by intros ->%Ascii.eqb_eq. Qed.

Lemma eqb_ascii_cr_space c : eqb_ascii c cr = true -> is_space c = true.
Proof. unfold eqb_ascii. by intros ->%Ascii.eqb_eq. Qed.

(** A run without white space stays on the current line. *)
Lemma lines_from_no_space cur w s :
  no_space w = true -> lines_from cur (w +:+ s) = lines_from (cur +:+ w) s.
Proof.
  revert cur. induction w as [|c w IH]; intros cur.
  - by rewrite append_empty_l, append_empty_r.
  - intros [Hc Hw]%andb_true_iff. apply negb_true_iff in Hc.
    rewrite !append_cons. cbn [lines_from].
    destruct (eqb_ascii c lf) eqn:E1.
    { apply eqb_ascii_lf_space in E1. congruence. }
    destruct (eqb_ascii c cr) eqn:E2.
    { apply eqb_ascii_cr_space in E2. congruence. }
    rewrite IH by done. by rewrite snoc_append.
Qed.

Lemma join_cons2 sep w w' ws :
  join sep (w :: w' :: ws) = w +:+ sep +:+ join sep (w' :: ws).
Proof. reflexivity. Qed.

(** Writing words joined by "\n" and reading the lines back, stripped, gives
    the words. *)
Lemma read_back_joined ws :
  Forall (fun w => is_word w = true) ws ->
  map strip (file_lines (join (String lf "") ws)) = ws.
Proof.
  unfold file_lines. induction 1 as [|w ws Hw Hws IH]; [done|].
  destruct ws as [|w' ws].
  - simpl. rewrite <- (append_empty_r w) at 1.
    rewrite lines_from_no_space by by apply is_word_no_space.
    rewrite append_empty_l. simpl. destruct w; [done|]. simpl.
    by rewrite strip_word.
  - rewrite join_cons2, append_cons, append_empty_l.
    rewrite lines_from_no_space by by apply is_word_no_space.
    rewrite append_empty_l. simpl lines_from. simpl map.
    rewrite strip_word_lf by done. f_equal. exact IH.
Qed.

End TextFacts.

Import TextFacts.

(** ** [sorted] *)

Section SortedFacts.
Context {A K : Type} (ltb : K -> K -> bool) (key : A -> K).

Lemma insert_sorted_perm x l : insert_sorted ltb key x l ≡ₚ x :: l.
Proof.
  induction l as [|y l IH]; simpl; [done|].
  destruct (ltb (key y) (key x)); [|done].
  rewrite IH. apply Permutation_swap.
Qed.

(** [sorted] rearranges its argument. *)
Lemma sorted_perm l : sorted ltb key l ≡ₚ l.
Proof.
  induction l as [|x l IH]; simpl; [done|].
  by rewrite insert_sorted_perm, IH.
Qed.

Lemma sorted_length l : length (sorted ltb key l) = length l.
Proof. by rewrite sorted_perm. Qed.

Lemma sorted_reverse_perm l : sorted_reverse ltb key l ≡ₚ l.
Proof.
  unfold sorted_reverse.
  by rewrite <- Permutation_rev, sorted_perm, <- Permutation_rev.
Qed.

(** The order of the keys: [a] may stand before [b] when [b < a] fails. *)
Definition key_le (a b : K) : Prop := ltb b a = false.

Hypothesis ltb_asym : forall a b, ltb a b = true -> ltb b a = false.

Lemma insert_sorted_keys x l :
  Sorted key_le (map key l) ->
  Sorted key_le (map key (insert_sorted ltb key x l)).
Proof using ltb_asym.
  induction l as [|y l IH]; simpl; intros Hs.
  - repeat constructor.
  - destruct (ltb (key y) (key x)) eqn:E; simpl.
    + apply Sorted_inv in Hs as [Hs Hhd]. constructor; [by apply IH|].
      destruct l as [|z l]; simpl.
      * constructor. by apply ltb_asym.
      * destruct (ltb (key z) (key x)) eqn:E'; simpl; constructor.
        -- by apply HdRel_inv in Hhd.
        -- by apply ltb_asym.
    + constructor; [done|]. by constructor.
Qed.

(** The keys of [sorted l] never step down. *)
Lemma sorted_keys l : Sorted key_le (map key (sorted ltb key l)).
Proof using ltb_asym.
  induction l as [|x l IH]; simpl; [constructor|]. by apply insert_sorted_keys.
Qed.
End SortedFacts.

Lemma string_ltb_asym a b : String.ltb a b = true -> String.ltb b a = false.
Proof.
  unfold String.ltb. rewrite (String.compare_antisym b a).
  by destruct (String.compare a b).
Qed.

(** ** The embedding cache *)

Section LoadEmbeddingsFacts.
Context `{Numeric}.

(** A line whose first token [word] is a wanted concept gives the vector
    [vec] of its other tokens. *)
Definition kept (cs : gset string) (line word : string) (vec : list Q) : Prop :=
  exists rest, Text.split (Text.strip line) = word :: rest /\ word ∈ cs /\
               floats rest = Ok vec.

(** A line the scan can read: it has a token, and when that token is a
    wanted concept the other tokens are [dim] floats. *)
Definition readable (cs : gset string) (dim : nat) (line : string) : Prop :=
  exists word rest, Text.split (Text.strip line) = word :: rest /\
    (word ∈ cs -> exists vec, floats rest = Ok vec /\ length vec = dim).

Lemma embedding_row_word cs acc line acc' :
  embedding_row cs acc line = Ok acc' ->
  Forall (fun p => Text.is_word p.1 = true) acc ->
  Forall (fun p => Text.is_word p.1 = true) acc'.
Proof.
  unfold embedding_row. intros Hrow Hacc.
  pose proof (split_words (Text.strip line)) as Hw.
  destruct (Text.split (Text.strip line)) as [|word rest]; [discriminate|].
  cbn in Hrow. destruct (decide (word ∈ cs)); [|by injection Hrow as <-].
  apply bind_Ok in Hrow as (vec & _ & [= <-]).
  apply Forall_app. split; [done|]. constructor; [|done].
  by apply Forall_cons in Hw as [? _].
Qed.

Lemma scan_words cs content pairs :
  scan_input cs content = Ok pairs ->
  Forall (fun p => Text.is_word p.1 = true) pairs.
Proof.
  intros Hrun.
  apply (for_each_invariant (Forall (fun p => Text.is_word p.1 = true)))
    in Hrun; [done| |done].
  intros acc line acc' _ Hacc Hrow. by eapply embedding_row_word.
Qed.

Lemma embedding_row_split cs acc line word rest :
  Text.split (Text.strip line) = word :: rest ->
  embedding_row cs acc line =
    if decide (word ∈ cs) then vec ← floats rest; Ok (acc ++ [(word, vec)])
    else Ok acc.
Proof. unfold embedding_row. by intros ->. Qed.

Lemma scan_readable cs dim lines :
  Forall (readable cs dim) lines ->
  forall acc, exists acc',
    for_each (embedding_row cs) lines acc = Ok acc' /\
    (forall w v, (w, v) ∈ acc' <->
       (w, v) ∈ acc \/ exists line, line ∈ lines /\ kept cs line w v) /\
    (Forall (fun p => length p.2 = dim) acc ->
     Forall (fun p => length p.2 = dim) acc').
Proof.
  induction 1 as [|line lines (word & rest & Hsplit & Hvec) _ IH]; intros acc.
  - exists acc. split; [done|]. split; [|done].
    intros w v. split; [by left|]. intros [?|(?&Hin&_)]; [done|].
    by apply elem_of_nil in Hin.
  - cbn [for_each]. rewrite (embedding_row_split _ _ _ _ _ Hsplit).
    destruct (decide (word ∈ cs)) as [Hin|Hout].
    + destruct (Hvec Hin) as (vec & Hfl & Hlen). rewrite Hfl.
      cbn [mbind result_bind].
      destruct (IH (acc ++ [(word, vec)])) as (acc' & Hrun & Hmem & Hdim).
      exists acc'. split; [done|]. split.
      * intros w v. rewrite Hmem, elem_of_app, list_elem_of_singleton. split.
        -- intros [[?|[= -> ->]]|(l & Hl & Hk)]; [by left| |].
           ++ right. exists line. split; [by left|]. by exists rest.
           ++ right. exists l. split; [by right|done].
        -- intros [?|(l & Hl & Hk)]; [by left; left|].
           apply elem_of_cons in Hl as [->|Hl]; [|right; eauto].
           left. right. destruct Hk as (rest' & Hs' & _ & Hf').
           rewrite Hsplit in Hs'. injection Hs' as -> <-.
           rewrite Hfl in Hf'. by injection Hf' as ->.
      * intros Hacc. apply Hdim, Forall_app. split; [done|]. by constructor.
    + destruct (IH acc) as (acc' & Hrun & Hmem & Hdim).
      exists acc'. split; [done|]. split; [|done].
      intros w v. rewrite Hmem. split.
      * intros [?|(l & Hl & Hk)]; [by left|]. right. exists l. split; [by right|done].
      * intros [?|(l & Hl & Hk)]; [by left|].
        apply elem_of_cons in Hl as [->|Hl]; [|right; eauto].
        destruct Hk as (rest' & Hs' & Hin & _).
        rewrite Hsplit in Hs'. by injection Hs' as -> <-.
Qed.

Lemma np_array_same_length dim rows :
  Forall (fun r => length r = dim) rows -> np_array rows = Ok rows.
Proof.
  destruct rows as [|r rows]; [done|]. intros [Hr Hrows]%Forall_cons. simpl.
  rewrite (proj2 (forallb_forall _ _)); [done|].
  intros r' Hr'. apply Nat.eqb_eq. rewrite Hr.
  rewrite Forall_forall in Hrows. apply Hrows. by apply list_elem_of_In.
Qed.

Lemma np_array_Ok rows rows' : np_array rows = Ok rows' -> rows' = rows.
Proof.
  destruct rows as [|r rows]; simpl; [by intros [= <-]|].
  destruct (forallb _ _); [by intros [= <-]|discriminate].
Qed.

(** What the cache-miss path returns and writes, when it returns. *)
Lemma load_embeddings_miss fs cs fs' vocab embeddings :
  EMBEDDINGS fs = None ->
  load_embeddings fs cs = Ok (fs', (vocab, embeddings)) ->
  exists content pairs,
    INPUT fs = Some content /\ scan_input cs content = Ok pairs /\
    vocab = map fst (sorted String.ltb fst pairs) /\
    embeddings = map snd (sorted String.ltb fst pairs) /\
    fs' = mkFiles (Some embeddings)
                  (Some (Text.join (String Text.lf "") vocab)) (INPUT fs).
Proof.
  unfold load_embeddings. intros -> Hrun.
  destruct (INPUT fs) as [content|]; [|discriminate].
  apply bind_Ok in Hrun as (pairs & Hscan & Hrun).
  apply bind_Ok in Hrun as (emb & Harr & [= <- <- <-]).
  apply np_array_Ok in Harr as ->. by exists content, pairs.
Qed.

(** C6: what the cache-miss path returned when it wrote the cache is what
    any later build from the same raw source and concept set returns, and
    what the cache-hit path returns from the files written. *)
Theorem cache_hit_equals_cache_miss fs cs fs' vocab embeddings :
  EMBEDDINGS fs = None ->
  load_embeddings fs cs = Ok (fs', (vocab, embeddings)) ->
  (forall fs2, EMBEDDINGS fs2 = None -> INPUT fs2 = INPUT fs ->
               load_embeddings fs2 cs = Ok (fs', (vocab, embeddings))) /\
  (forall cs', load_embeddings fs' cs' = Ok (fs', (vocab, embeddings))).
Proof.
  intros Hnone Hrun. split.
  - intros fs2 Hnone2 Hin. unfold load_embeddings in *.
    rewrite Hnone in Hrun. by rewrite Hnone2, Hin.
  - intros cs'.
    destruct (load_embeddings_miss _ _ _ _ _ Hnone Hrun)
      as (content & pairs & Hin & Hscan & Hv & He & ->).
    unfold load_embeddings. cbn [EMBEDDINGS VOCAB].
    rewrite read_back_joined.
    + rewrite Hv, He, !length_map, Nat.eqb_refl. done.
    + rewrite Hv. apply Forall_fmap.
      apply scan_words in Hscan. by rewrite sorted_perm.
Qed.

(** C2, amended: with both cache files present the function loads them and
    raises exactly when the sizes differ; with the embedding cache present
    and the vocabulary file missing it raises; with the embedding cache
    missing, and a raw source whose lines are readable, it returns the
    wanted vectors sorted by concept name and writes both files. *)
Theorem load_embeddings_cases fs cs :
  (forall embeddings content,
     EMBEDDINGS fs = Some embeddings -> VOCAB fs = Some content ->
     (length embeddings = length (Text.file_lines content) ->
      load_embeddings fs cs =
        Ok (fs, (map Text.strip (Text.file_lines content), embeddings))) /\
     (length embeddings ≠ length (Text.file_lines content) ->
      load_embeddings fs cs = Raise AssertionError)) /\
  (forall embeddings,
     EMBEDDINGS fs = Some embeddings -> VOCAB fs = None ->
     load_embeddings fs cs = Raise AssertionError) /\
  (forall content dim,
     EMBEDDINGS fs = None -> INPUT fs = Some content ->
     Forall (readable cs dim) (Text.file_lines content) ->
     exists vocab embeddings,
       load_embeddings fs cs =
         Ok (mkFiles (Some embeddings)
                     (Some (Text.join (String Text.lf "") vocab)) (INPUT fs),
             (vocab, embeddings)) /\
       length vocab = length embeddings /\
       Sorted (key_le String.ltb) vocab /\
       (forall w v, (w, v) ∈ zip vocab embeddings <->
                    exists line, line ∈ Text.file_lines content /\
                                 kept cs line w v)).
Proof.
  split; [|split].
  - intros embeddings content He Hv. unfold load_embeddings.
    rewrite He, Hv, length_map. split.
    + intros ->. by rewrite Nat.eqb_refl.
    + intros Hne. apply Nat.eqb_neq in Hne. by rewrite Hne.
  - intros embeddings He Hv. unfold load_embeddings. by rewrite He, Hv.
  - intros content dim He Hi Hlines. unfold load_embeddings, scan_input.
    rewrite He, Hi.
    destruct (scan_readable cs dim _ Hlines []) as (pairs & -> & Hmem & Hdim).
    cbn [mbind result_bind].
    rewrite (np_array_same_length dim).
    2:{ apply Forall_fmap.
        assert (Forall (fun p : string * list Q => length p.2 = dim)
                       (sorted String.ltb fst pairs)) as Hs
          by (rewrite sorted_perm; by apply Hdim).
        eapply Forall_impl; [exact Hs|]. by intros []. }
    cbn [mbind result_bind]. eexists _, _. split; [reflexivity|].
    split; [by rewrite !length_map|].
    split; [apply sorted_keys, string_ltb_asym|].
    intros w v.
    change (map fst ?l) with (l.*1). change (map snd ?l) with (l.*2).
    rewrite zip_fst_snd, sorted_perm, Hmem. split.
    + by intros [Hin|?]; [apply elem_of_nil in Hin|].
    + by right.
Qed.
End LoadEmbeddingsFacts.

Lemma cache_hit_equals_cache_miss_witness :
  exists fs' vocab embeddings,
    @load_embeddings Exact.numeric Sample.no_cache Sample.wanted_concepts
      = Ok (fs', (vocab, embeddings)) /\
    vocab = ["cat"; "dog"]%string /\
    (forall fs2, EMBEDDINGS fs2 = None -> INPUT fs2 = INPUT Sample.no_cache ->
                 @load_embeddings Exact.numeric fs2 Sample.wanted_concepts
                   = Ok (fs', (vocab, embeddings))) /\
    (forall cs', @load_embeddings Exact.numeric fs' cs'
                   = Ok (fs', (vocab, embeddings))).
Proof.
  destruct (@load_embeddings Exact.numeric Sample.no_cache
              Sample.wanted_concepts) as [[fs' [vocab embeddings]]|e] eqn:E.
  - exists fs', vocab, embeddings. split; [done|].
    split; [by vm_compute in E; injection E as <- <- <-|].
    exact (@cache_hit_equals_cache_miss Exact.numeric Sample.no_cache _ _ _ _
             eq_refl E).
  - vm_compute in E. discriminate.
Defined.

Lemma load_embeddings_cases_witness :
  exists vocab embeddings,
    @load_embeddings Exact.numeric Sample.no_cache Sample.wanted_concepts =
      Ok (mkFiles (Some embeddings)
                  (Some (Text.join (String Text.lf "") vocab))
                  (INPUT Sample.no_cache),
          (vocab, embeddings)) /\
    length vocab = length embeddings /\
    Sorted (key_le String.ltb) vocab /\
    (forall w v, (w, v) ∈ zip vocab embeddings <->
                 exists line, line ∈ Text.file_lines Sample.glove_file /\
                              @kept Exact.numeric Sample.wanted_concepts
                                    line w v).
Proof.
  apply (proj2 (proj2 (@load_embeddings_cases Exact.numeric Sample.no_cache
                         Sample.wanted_concepts)) Sample.glove_file 2).
  - reflexivity.
  - reflexivity.
  - repeat (apply Forall_cons; split;
            [eexists _, _; split; [vm_compute; reflexivity|];
             intros _; eexists; split; vm_compute; reflexivity|]).
    apply Forall_nil.
    Unshelve. all: exact I.
Defined.

(** C2 as stated fails: with the embedding cache present and the vocabulary
    file missing, the function does not rebuild, it raises. *)
Lemma load_embeddings_vocab_missing_raises :
  ~ (EMBEDDINGS Sample.cache_without_vocab = None \/
     VOCAB Sample.cache_without_vocab = None ->
     exists r, @load_embeddings Exact.numeric Sample.cache_without_vocab
                 Sample.wanted_concepts = Ok r).
Proof.
  intros Hclaim. destruct Hclaim as [r Hr]; [by right|].
  vm_compute in Hr. discriminate.
Qed.

(** ** The report *)

Section ReportFacts.
Context `{Numeric}.

(** The number of entries of a group table. *)
Definition entries {V} (table : list (string * list V)) : nat :=
  sum_list_with (fun g => length g.2) table.

Lemma group_append_entries {V} (table : list (string * list V)) k v :
  entries (group_append table k v) = S (entries table).
Proof.
  unfold entries. induction table as [|[k' vs] table IH]; simpl; [done|].
  destruct (String.eqb k' k); simpl.
  - rewrite length_app. simpl. lia.
  - rewrite IH. lia.
Qed.

Lemma split_on_from_first sep cur s :
  exists w ws, Text.split_on_from sep cur s = w :: ws.
Proof.
  revert cur. induction s as [|c s IH]; intros cur; simpl; [eauto|].
  destruct (Text.eqb_ascii c sep); eauto.
Qed.

(** [name.split("_")[0]] never raises. *)
Lemma first_word_returns nm :
  exists w, index (Text.split_on underscore nm) 0 = Ok w.
Proof.
  unfold Text.split_on.
  destruct (split_on_from_first underscore "" nm) as (w & ws & ->). by exists w.
Qed.

(** One scored feature adds one entry to each of the two group tables. *)
Lemma report_feature_entries features lines t1 t2 nm n_entries score :
  is_Some (features !! nm) ->
  exists lines' t1' t2',
    report_feature features
      (lines, [("br_label"%string, t1); ("first_word"%string, t2)])
      (nm, n_entries, score)
    = Ok (lines', [("br_label"%string, t1'); ("first_word"%string, t2')]) /\
    entries t1' = S (entries t1) /\ entries t2' = S (entries t2).
Proof.
  intros [f Hf]. unfold report_feature. rewrite Hf.
  unfold grouping_fns. cbn [for_each]. rewrite Hf. cbn [mbind result_bind].
  destruct (first_word_returns nm) as [w ->]. cbn.
  eexists _, _, _. split; [reflexivity|].
  by rewrite !group_append_entries.
Qed.

Lemma report_loop_entries features fd :
  Forall (fun f : string * nat * Q => is_Some (features !! f.1.1)) fd ->
  forall lines t1 t2, exists lines' t1' t2',
    for_each (report_feature features) fd
      (lines, [("br_label"%string, t1); ("first_word"%string, t2)])
    = Ok (lines', [("br_label"%string, t1'); ("first_word"%string, t2')]) /\
    entries t1' = entries t1 + length fd /\
    entries t2' = entries t2 + length fd.
Proof.
  induction 1 as [|[[nm n_entries] score] fd Hf _ IH]; intros lines t1 t2.
  - exists lines, t1, t2. simpl. split; [done|]. lia.
  - destruct (report_feature_entries features lines t1 t2 nm n_entries score Hf)
      as (lines1 & t1a & t2a & Hstep & H1 & H2).
    cbn [for_each]. rewrite Hstep. cbn [mbind result_bind].
    destruct (IH lines1 t1a t2a) as (lines' & t1' & t2' & Hrun & H1' & H2').
    exists lines', t1', t2'. split; [done|]. simpl. lia.
Qed.

Lemma summary_table_counts groups_result :
  sum_list_with (fun e : string * Summary => n e.2) (summary_table groups_result)
  = entries groups_result.
Proof.
  unfold summary_table. rewrite sorted_perm. unfold entries.
  induction groups_result as [|[k data] gr IH]; simpl; [done|].
  by rewrite IH.
Qed.

(** C8: for each of the two grouping keys, the counts of the groups of its
    table add up to the number of features with a defined score. *)
Theorem group_counts_sum features feature_data :
  Forall (fun f : string * nat * Q => is_Some (features !! f.1.1))
         (scored feature_data) ->
  exists lines br_table fw_table fcat_med,
    main_report features feature_data =
      Ok (lines, [("br_label"%string, br_table); ("first_word"%string, fw_table)],
          fcat_med) /\
    sum_list_with (fun e : string * Summary => n e.2) br_table
      = length (scored feature_data) /\
    sum_list_with (fun e : string * Summary => n e.2) fw_table
      = length (scored feature_data).
Proof.
  intros Hnames. unfold main_report.
  destruct (report_loop_entries features
              (sorted Qltb (fun f : string * nat * Q => f.2) (scored feature_data)))
    with (lines := @nil (string * string * nat * Q))
         (t1 := @nil (string * list (Q * nat)))
         (t2 := @nil (string * list (Q * nat)))
    as (lines' & t1' & t2' & Hrun & H1 & H2).
  { by rewrite sorted_perm. }
  cbn [grouping_fns map]. rewrite Hrun. cbn [mbind result_bind].
  eexists _, _, _, _. split; [reflexivity|].
  rewrite !summary_table_counts, H1, H2, sorted_length. done.
Qed.
End ReportFacts.

Lemma group_counts_sum_witness :
  exists lines br_table fw_table fcat_med,
    @main_report Exact.numeric Sample.clash_features Sample.clash_scores =
      Ok (lines,
          [("br_label"%string, br_table); ("first_word"%string, fw_table)],
          fcat_med) /\
    sum_list_with (fun e : string * Summary => n e.2) br_table = 2 /\
    sum_list_with (fun e : string * Summary => n e.2) fw_table = 2.
Proof.
  apply (@group_counts_sum Exact.numeric Sample.clash_features
           Sample.clash_scores).
  vm_compute.
  repeat (apply Forall_cons; split; [eexists; reflexivity|]).
  apply Forall_nil.
  Unshelve. all: exact I.
Defined.

(** ** The greatest element of a descending sort *)

Section SortedMax.
Context {A K : Type} (ltb : K -> K -> bool) (key : A -> K).
Hypothesis ltb_asym : forall a b, ltb a b = true -> ltb b a = false.
Hypothesis le_trans : Transitive (key_le ltb).



End SortedMax.

(** ** The choice of the regularization strength *)

Lemma Qeq_bool_sym a b : Qeq_bool a b = Qeq_bool b a.
Proof.
  destruct (Qeq_bool a b) eqn:E1, (Qeq_bool b a) eqn:E2; try done.
  - apply Qeq_bool_iff in E1. symmetry in E1. apply Qeq_bool_iff in E1. congruence.
  - apply Qeq_bool_iff in E2. symmetry in E2. apply Qeq_bool_iff in E2. congruence.
Qed.

Lemma Qeq_bool_trans a b c :
  Qeq_bool a b = true -> Qeq_bool b c = true -> Qeq_bool a c = true.
Proof.
  rewrite !Qeq_bool_iff. intros -> ->. reflexivity.
Qed.





(** The scores collected for [C]: those of the completed tasks run with a
    strength equal to [C], in the order of completion. *)
Definition collected (tasks : list (Q * list Q)) (C : Q) : list Q :=
  mjoin (map snd (filter (fun t => Qeq_bool t.1 C = true) tasks)).

(** No two keys of the table are equal floats. *)
Fixpoint distinct_keys (tbl : list (Q * list Q)) : Prop :=
  match tbl with
  | [] => True
  | (K, _) :: rest =>
      Forall (fun e => Qeq_bool K e.1 = false) rest /\ distinct_keys rest
  end.

Lemma collected_none tasks C :
  Forall (fun t : Q * list Q => Qeq_bool t.1 C ≠ true) tasks ->
  collected tasks C = [].
Proof.
  unfold collected. induction 1 as [|t tasks Ht _ IH]; [done|].
  by rewrite filter_cons_False.
Qed.

Lemma collected_snoc tasks t C :
  collected (tasks ++ [t]) C =
  collected tasks C ++ (if Qeq_bool t.1 C then t.2 else []).
Proof.
  unfold collected. rewrite filter_app, map_app, join_app.
  f_equal. rewrite filter_cons, filter_nil.
  destruct (Qeq_bool t.1 C) eqn:E.
  - rewrite decide_True by done. simpl. by rewrite app_nil_r.
  - rewrite decide_False by congruence. done.
Qed.

(** What [extend] does to the entries of a table with distinct keys. *)
Lemma extend_entries tbl C sc :
  distinct_keys tbl ->
  distinct_keys (extend tbl C sc) /\
  (forall K s, (K, s) ∈ extend tbl C sc <->
     (Qeq_bool K C = true /\ exists s0, (K, s0) ∈ tbl /\ s = s0 ++ sc) \/
     (Qeq_bool K C = false /\ (K, s) ∈ tbl) \/
     (K = C /\ s = sc /\ Forall (fun e => Qeq_bool e.1 C = false) tbl)).
Proof.
  induction tbl as [|[K0 s0] tbl IH]; simpl.
  - intros _. split; [done|]. intros K s. rewrite list_elem_of_singleton. split.
    + intros [= -> ->]. right. right. done.
    + intros [(_ & ? & Hin & _)|[[_ Hin]|(-> & -> & _)]]; [| |done];
        by apply elem_of_nil in Hin.
  - intros [Hfresh Hd]. destruct (IH Hd) as [IHd IHm].
    destruct (Qeq_bool K0 C) eqn:E.
    + split; [done|]. intros K s. rewrite !elem_of_cons. split.
      * intros [[= -> ->]|Hin].
        -- left. split; [done|]. exists s0. split; [by left|done].
        -- right. left. split; [|by right].
           rewrite Forall_forall in Hfresh. specialize (Hfresh _ Hin). simpl in Hfresh.
           destruct (Qeq_bool K C) eqn:E'; [|done].
           rewrite Qeq_bool_sym in E'.
           by rewrite (Qeq_bool_trans _ _ _ E E') in Hfresh.
      * intros [(HK & s1 & Hin & ->)|[[HK Hin]|(-> & -> & Hall)]].
        -- apply elem_of_cons in Hin as [[= -> ->]|Hin]; [by left|].
           rewrite Forall_forall in Hfresh. specialize (Hfresh _ Hin). simpl in Hfresh.
           rewrite Qeq_bool_sym in HK.
           by rewrite (Qeq_bool_trans _ _ _ E HK) in Hfresh.
        -- destruct Hin as [[= -> ->]|Hin]; [congruence|by right].
        -- apply Forall_cons in Hall as [Hall _]. simpl in Hall. congruence.
    + split.
      * simpl. split; [|done]. apply Forall_forall. intros [K s] Hin. simpl.
        apply IHm in Hin as [(HK & s1 & Hin & _)|[[HK Hin]|(-> & -> & _)]].
        -- rewrite Forall_forall in Hfresh. exact (Hfresh _ Hin).
        -- rewrite Forall_forall in Hfresh. exact (Hfresh _ Hin).
        -- done.
      * intros K s. rewrite elem_of_cons, IHm. split.
        -- intros [[= -> ->]|[(HK & s1 & Hin & ->)|[[HK Hin]|(-> & -> & Hall)]]].
           ++ right. left. split; [done|by left].
           ++ left. split; [done|]. exists s1. split; [by right|done].
           ++ right. left. split; [done|by right].
           ++ right. right. split; [done|]. split; [done|]. by constructor.
        -- intros [(HK & s1 & Hin & ->)|[[HK Hin]|(-> & -> & Hall)]].
           ++ apply elem_of_cons in Hin as [[= -> ->]|Hin]; [congruence|].
              right. left. split; [done|]. eauto.
           ++ apply elem_of_cons in Hin as [[= -> ->]|Hin]; [by left|].
              right. right. left. done.
           ++ right. right. right. split; [done|]. split; [done|].
              by apply Forall_cons in Hall as [_ ?].
Qed.

Lemma collect_fold tasks tbl :
  for_each (fun C_results (future : result (Q * list Q)) =>
              '(C, scores) ← future; Ok (extend C_results C scores))
           (map Ok tasks) tbl
  = Ok (foldl (fun tbl t => extend tbl t.1 t.2) tbl tasks).
Proof.
  revert tbl. induction tasks as [|[C sc] tasks IH]; intros tbl; simpl; [done|].
  apply IH.
Qed.

(** The table after the completed tasks: distinct keys, each with the scores
    collected for it, and one key for every task. *)
Lemma collect_table tasks :
  let tbl := foldl (fun tbl t => extend tbl t.1 t.2) [] tasks in
  distinct_keys tbl /\
  (forall K s, (K, s) ∈ tbl -> s = collected tasks K /\ exists t, t ∈ tasks /\ t.1 = K) /\
  (forall t, t ∈ tasks -> exists K s, (K, s) ∈ tbl /\ Qeq_bool K t.1 = true).
Proof.
  induction tasks as [|t tasks IH] using rev_ind; simpl.
  - split; [done|]. split; [|by intros ? ?%elem_of_nil].
    by intros ?? ?%elem_of_nil.
  - rewrite foldl_app. simpl. destruct IH as (Hd & Hs & Hk).
    set (tbl := foldl _ [] tasks) in *.
    destruct (extend_entries tbl t.1 t.2 Hd) as [Hd' Hm].
    split; [done|]. split.
    + intros K s [(HK & s0 & Hin & ->)|[[HK Hin]|(-> & -> & Hall)]]%Hm.
      * destruct (Hs _ _ Hin) as [-> (t' & Ht' & <-)]. split.
        -- rewrite collected_snoc. rewrite Qeq_bool_sym in HK. by rewrite HK.
        -- exists t'. split; [|done]. apply elem_of_app. by left.
      * destruct (Hs _ _ Hin) as [-> (t' & Ht' & <-)]. split.
        -- rewrite collected_snoc. rewrite Qeq_bool_sym in HK. rewrite HK.
           by rewrite app_nil_r.
        -- exists t'. split; [|done]. apply elem_of_app. by left.
      * split.
        -- rewrite collected_snoc.
           assert (Qeq_bool t.1 t.1 = true) as -> by (apply Qeq_bool_iff; reflexivity).
           assert (collected tasks t.1 = []) as ->; [|done].
           apply collected_none.
           apply Forall_forall. intros t' Ht'. simpl.
           destruct (Hk _ Ht') as (K & s & Hin & HK).
           rewrite Forall_forall in Hall. specialize (Hall _ Hin). simpl in Hall.
           intros Heq. by rewrite (Qeq_bool_trans _ _ _ HK Heq) in Hall.
        -- exists t. split; [|done]. apply elem_of_app. right. by left.
    + intros t' [Ht'|Ht']%elem_of_app;
        [|apply list_elem_of_singleton in Ht' as ->].
      * destruct (Hk _ Ht') as (K & s & Hin & HK).
        destruct (Qeq_bool K t.1) eqn:E.
        -- exists K, (s ++ t.2). split; [|done]. apply Hm. left. eauto.
        -- exists K, s. split; [|done]. apply Hm. right. left. done.
      * destruct (decide (Forall (fun e : Q * list Q => Qeq_bool e.1 t.1 = false) tbl))
          as [Hall|Hex].
        -- exists t.1, t.2. split; [apply Hm; right; right; done|].
           apply Qeq_bool_iff. reflexivity.
        -- apply not_Forall_Exists in Hex; [|solve_decision].
           apply Exists_exists in Hex as ([K s] & Hin & HK). simpl in HK.
           apply not_false_is_true in HK.
           exists K, (s ++ t.2). split; [|done]. apply Hm. left. eauto.
Qed.



Section BestC.
Context `{Numeric}.

End BestC.


(** ** Arrays *)

(** An array of [n] rows and [m] columns. *)
Definition shape {A} (n m : nat) (M : list (list A)) : Prop :=
  length M = n /\ Forall (fun row => length row = m) M.

(** Column [j], read with 0 where a row is too short. *)
Definition col (j : nat) (Y : list (list nat)) : list nat :=
  map (fun row => default 0 (row !! j)) Y.

Lemma index_lt {A} (l : list A) i :
  i < length l -> exists x, index l i = Ok x /\ l !! i = Some x.
Proof.
  intros Hi. destruct (lookup_lt_is_Some_2 l i Hi) as [x Hx].
  exists x. unfold index. by rewrite Hx.
Qed.

Lemma index_Ok {A} (l : list A) i x : index l i = Ok x -> l !! i = Some x.
Proof. unfold index. destruct (l !! i); [by intros [= ->]|discriminate]. Qed.

Lemma shape_zeros n m : shape n m (zeros n m).
Proof.
  unfold shape, zeros. rewrite length_replicate. split; [done|].
  apply Forall_replicate. by rewrite length_replicate.
Qed.

Lemma col_zeros n m j : sum_list (col j (zeros n m)) = 0.
Proof.
  unfold col, zeros. induction n as [|n IH]; simpl; [done|].
  rewrite IH. destruct (replicate m 0 !! j) as [x|] eqn:E; [|done].
  apply lookup_replicate in E as [-> _]. done.
Qed.

(** [column] returns on an array wide enough, and returns [col]. *)
Lemma column_shape n m (Y : list (list nat)) j :
  shape n m Y -> j < m -> column Y j = Ok (col j Y).
Proof.
  intros [_ Hrows] Hj. induction Hrows as [|row Y Hrow _ IH]; [done|].
  simpl. destruct (index_lt row j) as (x & -> & Hx); [lia|]. simpl.
  rewrite IH. simpl. by rewrite Hx.
Qed.

Lemma column_wide {A} (M : list (list A)) m j :
  Forall (fun row => length row = m) M -> j < m ->
  exists v, column M j = Ok v /\ length v = length M.
Proof.
  intros Hrows Hj. induction Hrows as [|row M Hrow _ (v & IH & Hlen)].
  - by exists [].
  - simpl. destruct (index_lt row j) as (x & -> & _); [lia|]. simpl.
    rewrite IH. simpl. exists (x :: v). by rewrite <- Hlen.
Qed.

Lemma rows_at_lt {A} (M : list A) idxs :
  Forall (fun i => i < length M) idxs -> exists rows, rows_at M idxs = Ok rows.
Proof.
  induction 1 as [|i idxs Hi _ [rows IH]]; [by exists []|].
  simpl. destruct (index_lt M i Hi) as (x & -> & _). simpl. rewrite IH.
  by eexists.
Qed.

Lemma rows_at_elem {A} (M : list A) idxs rows :
  rows_at M idxs = Ok rows -> Forall (fun x => x ∈ M) rows.
Proof.
  revert rows. induction idxs as [|i idxs IH]; simpl; intros rows.
  - by intros [= <-].
  - intros (x & Hx & (xs & Hxs & [= <-])%bind_Ok)%bind_Ok.
    constructor; [|by apply IH]. apply index_Ok in Hx.
    by eapply list_elem_of_lookup_2.
Qed.

(** The sums of the columns are the sums of [col]. *)
Lemma col_sums_lookup n m Y j :
  shape n m Y -> j < m -> col_sums m Y !! j = Some (sum_list (col j Y)).
Proof.
  intros [_ Hrows] Hj. unfold col_sums.
  induction Hrows as [|row Y Hrow _ IH]; simpl.
  - by apply lookup_replicate_2.
  - rewrite lookup_zip_with, IH.
    destruct (lookup_lt_is_Some_2 row j) as [x ->]; [lia|]. done.
Qed.

Lemma col_sums_length n m Y : shape n m Y -> length (col_sums m Y) = m.
Proof.
  intros [_ Hrows]. unfold col_sums.
  induction Hrows as [|row Y Hrow _ IH]; simpl.
  - apply length_replicate.
  - rewrite length_zip_with, IH. lia.
Qed.

(** [Y[i, j] = 1]: the shape stays, column [j] gets a 1 at row [i], the
    other columns stay. *)
Lemma set_entry_shape n m (Y : list (list nat)) i j :
  shape n m Y -> i < n -> j < m ->
  exists Y', set_entry Y i j 1 = Ok Y' /\ shape n m Y' /\
             col j Y' = <[i := 1]> (col j Y) /\
             forall j', j' ≠ j -> col j' Y' = col j' Y.
Proof.
  intros [Hn Hrows] Hi Hj. unfold set_entry.
  destruct (index_lt Y i) as (row & -> & Hrow); [lia|]. simpl.
  assert (length row = m) as Hlen.
  { rewrite Forall_forall in Hrows. apply Hrows.
    by eapply list_elem_of_lookup_2. }
  rewrite (proj2 (Nat.ltb_lt _ _)) by lia.
  eexists. split; [reflexivity|]. split; [|split].
  - split; [by rewrite length_insert|].
    apply Forall_insert; [done|]. by rewrite length_insert.
  - unfold col. change (map ?f ?l) with (f <$> l).
    rewrite list_fmap_insert. f_equal.
    by rewrite list_lookup_insert_eq by lia.
  - intros j' Hne. unfold col. change (map ?f ?l) with (f <$> l).
    rewrite list_fmap_insert. rewrite list_lookup_insert_ne by done.
    apply list_insert_id. rewrite list_lookup_fmap, Hrow. done.
Qed.

Lemma one_stays (v : list nat) i : 1 ∈ v -> 1 ∈ <[i := 1]> v.
Proof.
  intros (k & Hk)%list_elem_of_lookup_1.
  destruct (decide (i = k)) as [->|Hne].
  - eapply list_elem_of_lookup_2. apply list_lookup_insert_eq.
    by eapply lookup_lt_Some.
  - eapply list_elem_of_lookup_2. by rewrite list_lookup_insert_ne.
Qed.

Lemma one_nonzero (v : list nat) : 1 ∈ v -> sum_list v ≠ 0.
Proof. intros Hin. pose proof (sum_list_with_in 1 id v Hin). simpl in *. lia. Qed.

(** ** The label matrix *)

(** Filling column [j] at the rows [cidxs]. *)
Lemma fill_column n m j cidxs :
  j < m -> Forall (fun c => c < n) cidxs ->
  forall Y, shape n m Y ->
  exists Y', for_each (fun Y c_idx => set_entry Y c_idx j 1) cidxs Y = Ok Y' /\
             shape n m Y' /\
             (forall j', j' ≠ j -> col j' Y' = col j' Y) /\
             (1 ∈ col j Y -> 1 ∈ col j Y') /\
             (cidxs ≠ [] -> 1 ∈ col j Y').
Proof.
  intros Hj. induction 1 as [|c cidxs Hc _ IH]; intros Y HY.
  - exists Y. split; [done|]. split; [done|]. split; [done|]. split; [done|].
    intros Hne. by destruct Hne.
  - destruct (set_entry_shape n m Y c j HY Hc Hj) as (Y1 & Hset & HY1 & Hcol & Hoth).
    destruct (IH Y1 HY1) as (Y' & Hrun & HY' & Hoth' & Hkeep & _).
    exists Y'. cbn [for_each]. rewrite Hset. cbn [mbind result_bind].
    split; [done|]. split; [done|]. split; [|split].
    + intros j' Hne. by rewrite Hoth', Hoth.
    + intros Hone. apply Hkeep. rewrite Hcol. by apply one_stays.
    + intros _. apply Hkeep. rewrite Hcol.
      eapply list_elem_of_lookup_2. apply list_lookup_insert_eq.
      unfold col. rewrite length_map. destruct HY as [-> _]. done.
Qed.

Section LabelMatrix.
Context (features : gmap string Feature) (word2idx : gmap string nat).
Context (n m : nat).
Hypothesis idx_in_range : map_Forall (fun _ i => i < n) word2idx.

Lemma concept_idxs_lt f : Forall (fun c => c < n) (concept_idxs word2idx f).
Proof using idx_in_range.
  unfold concept_idxs. apply Forall_forall. intros i Hi.
  apply list_elem_of_omap in Hi as (c & _ & Hc). by eapply idx_in_range.
Qed.

(** The loop over the features, for any list of (column, name) pairs with
    distinct columns. *)
Lemma label_loop ps :
  Forall (fun p : nat * string => p.1 < m /\ is_Some (features !! p.2)) ps ->
  NoDup (map fst ps) ->
  forall Y, shape n m Y ->
  exists Y', for_each (label_feature features word2idx) ps Y = Ok Y' /\
    shape n m Y' /\
    (forall j, j ∉ map fst ps -> col j Y' = col j Y) /\
    (forall j nm f, (j, nm) ∈ ps -> features !! nm = Some f ->
       (5 <= length (concept_idxs word2idx f) -> 1 ∈ col j Y') /\
       (length (concept_idxs word2idx f) < 5 -> col j Y' = col j Y)).
Proof using idx_in_range.
  induction 1 as [|[j nm] ps [Hj [f Hf]] _ IH]; intros Hnd Y HY.
  - exists Y. split; [done|]. split; [done|]. split; [done|].
    by intros ??? ?%elem_of_nil.
  - simpl in Hnd, Hj, Hf. apply NoDup_cons in Hnd as [Hfresh Hnd].
    assert (exists Y1, label_feature features word2idx Y (j, nm) = Ok Y1 /\
              shape n m Y1 /\
              (forall j', j' ≠ j -> col j' Y1 = col j' Y) /\
              (5 <= length (concept_idxs word2idx f) -> 1 ∈ col j Y1) /\
              (length (concept_idxs word2idx f) < 5 -> Y1 = Y))
      as (Y1 & Hstep & HY1 & Hoth & Hfill & Hskip).
    { unfold label_feature. rewrite Hf.
      destruct (length (concept_idxs word2idx f) <? 5) eqn:E.
      - apply Nat.ltb_lt in E. exists Y.
        split; [done|]. split; [done|]. split; [done|].
        split; [intros; lia|done].
      - apply Nat.ltb_ge in E.
        destruct (fill_column n m j _ Hj (concept_idxs_lt f) Y HY)
          as (Y1 & Hrun & HY1 & Hoth & _ & Hone).
        exists Y1. split; [done|]. split; [done|]. split; [done|].
        split; [|intros; lia].
        intros _. apply Hone. intros Hnil. rewrite Hnil in E. simpl in E. lia. }
    destruct (IH Hnd Y1 HY1) as (Y' & Hrun & HY' & Hout & Hin).
    exists Y'. cbn [for_each]. rewrite Hstep. cbn [mbind result_bind].
    split; [done|]. split; [done|]. split.
    + intros j' Hj'. simpl in Hj'. apply not_elem_of_cons in Hj' as [Hne Hj'].
      by rewrite Hout, Hoth.
    + intros j' nm' f' [[= -> ->]|Hp]%elem_of_cons Hf'.
      * assert (f' = f) as -> by congruence. rewrite Hout by done. split.
        -- done.
        -- intros Hlt. by rewrite (Hskip Hlt).
      * assert (j' ≠ j) as Hne.
        { intros ->. apply Hfresh. apply (list_elem_of_fmap_2 fst) in Hp. done. }
        destruct (Hin j' nm' f' Hp Hf') as [H1 H2]. split; [done|].
        intros Hlt. by rewrite H2, Hoth.
Qed.
End LabelMatrix.

Lemma feature_names_perm features :
  feature_names features ≡ₚ map fst (map_to_list features).
Proof. unfold feature_names. apply sorted_perm. Qed.

Lemma feature_names_length features :
  length (feature_names features) = size features.
Proof.
  rewrite feature_names_perm, length_map. apply length_map_to_list.
Qed.

Lemma feature_names_lookup features nm :
  nm ∈ feature_names features <-> is_Some (features !! nm).
Proof.
  rewrite feature_names_perm. change (map fst ?l) with (l.*1).
  rewrite list_elem_of_fmap. split.
  - intros ([k f] & -> & Hin). apply elem_of_map_to_list in Hin. eauto.
  - intros [f Hf]. exists (nm, f). split; [done|]. by apply elem_of_map_to_list.
Qed.

Lemma imap_pair_fst {A} (l : list A) k :
  map fst (imap (fun i => pair (k + i)) l) = seq k (length l).
Proof.
  revert k. induction l as [|x l IH]; intros k; simpl; [done|].
  rewrite Nat.add_0_r. f_equal.
  rewrite <- IH. f_equal. apply imap_ext. intros i y _. simpl. f_equal. lia.
Qed.

Lemma imap_pair_columns {A} (l : list A) :
  map fst (imap pair l) = seq 0 (length l).
Proof. exact (imap_pair_fst l 0). Qed.

Lemma elem_of_imap_pair {A} (l : list A) j x :
  (j, x) ∈ imap pair l <-> l !! j = Some x.
Proof.
  rewrite list_elem_of_lookup. split.
  - intros (i & Hi). rewrite list_lookup_imap in Hi.
    destruct (l !! i) eqn:E; simpl in Hi; [|done]. by injection Hi as <- <-.
  - intros Hj. exists j. by rewrite list_lookup_imap, Hj.
Qed.

(** The label matrix has a 1 in the column of a feature exactly when the
    feature has 5 concepts in the vocabulary. *)
Lemma label_matrix_columns features word2idx :
  map_Forall (fun _ i => i < size word2idx) word2idx ->
  exists Y, label_matrix features word2idx = Ok Y /\
    shape (size word2idx) (size features) Y /\
    forall j nm f, feature_names features !! j = Some nm ->
      features !! nm = Some f ->
      (5 <= length (concept_idxs word2idx f) -> sum_list (col j Y) ≠ 0) /\
      (length (concept_idxs word2idx f) < 5 -> sum_list (col j Y) = 0).
Proof.
  intros Hrange. unfold label_matrix.
  destruct (label_loop features word2idx (size word2idx) (size features) Hrange
              (imap pair (feature_names features)))
    with (Y := zeros (size word2idx) (size features))
    as (Y & Hrun & HY & _ & Hcols).
  - apply Forall_forall. intros [j nm] Hin%elem_of_imap_pair. simpl. split.
    + apply lookup_lt_Some in Hin. by rewrite feature_names_length in Hin.
    + apply feature_names_lookup. by eapply list_elem_of_lookup_2.
  - rewrite imap_pair_columns. apply NoDup_seq.
  - apply shape_zeros.
  - exists Y. split; [done|]. split; [done|].
    intros j nm f Hj Hf. apply elem_of_imap_pair in Hj.
    destruct (Hcols j nm f Hj Hf) as [H1 H2]. split.
    + intros Hge. by apply one_nonzero, H1.
    + intros Hlt. rewrite (H2 Hlt). apply col_zeros.
Qed.

(** ** Features with enough concepts *)

(** The number of concepts of a feature that are in the vocabulary. *)
Definition in_vocab (word2idx : gmap string nat) (f : Feature) : nat :=
  size (filter (fun c => is_Some (word2idx !! c)) (concepts f)).

(** A feature with at least 5 concepts in the vocabulary. *)
Definition qualifies (features : gmap string Feature)
    (word2idx : gmap string nat) (nm : string) : bool :=
  match features !! nm with
  | Some f => 5 <=? in_vocab word2idx f
  | None => false
  end.

Lemma length_omap_filter {A B} (f : A -> option B) (l : list A) :
  length (omap f l) = length (filter (fun x => is_Some (f x)) l).
Proof.
  induction l as [|x l IH]; [done|].
  change (omap f (x :: l))
    with (match f x with Some y => y :: omap f l | None => omap f l end).
  destruct (f x) eqn:E.
  - rewrite filter_cons_True by (rewrite E; eauto). simpl. by rewrite IH.
  - rewrite filter_cons_False; [done|]. rewrite E. by intros [??].
Qed.

Lemma concept_idxs_length word2idx f :
  length (concept_idxs word2idx f) = in_vocab word2idx f.
Proof.
  unfold concept_idxs, in_vocab. rewrite length_omap_filter.
  unfold size, set_size. simpl. apply Permutation_length.
  apply NoDup_Permutation.
  - apply NoDup_filter, NoDup_elements.
  - apply NoDup_elements.
  - intros c. rewrite list_elem_of_filter, !elem_of_elements, elem_of_filter.
    tauto.
Qed.

Lemma in_vocab_size word2idx f : in_vocab word2idx f <= size word2idx.
Proof.
  unfold in_vocab. rewrite <- (size_dom (D := gset string) word2idx).
  apply subseteq_size. intros c [Hc _]%elem_of_filter. by apply elem_of_dom.
Qed.

(** ** [nonzero] *)

Lemma nonzero_from_range k v :
  Forall (fun i => k <= i < k + length v) (nonzero_from k v).
Proof.
  revert k. induction v as [|x v IH]; intros k; simpl; [constructor|].
  assert (Forall (fun i => k <= i < k + S (length v)) (nonzero_from (S k) v)).
  { eapply Forall_impl; [apply IH|]. intros i ?. simpl in *. lia. }
  destruct (x =? 0); [done|]. constructor; [lia|done].
Qed.

Lemma nonzero_lt v : Forall (fun i => i < length v) (nonzero v).
Proof.
  eapply Forall_impl; [apply (nonzero_from_range 0)|]. intros i ?. simpl in *. lia.
Qed.

(** As many positions as there are non-zero entries. *)
Lemma nonzero_from_count {B} (P : B -> bool) k (v : list nat) (l : list B) :
  Forall2 (fun c x => c ≠ 0 <-> P x = true) v l ->
  length (nonzero_from k v) = length (filter (fun x => P x = true) l).
Proof.
  intros Hvl. revert k. induction Hvl as [|c x v l Hcx _ IH]; intros k; [done|].
  simpl. destruct (Nat.eqb_spec c 0) as [->|Hne].
  - rewrite filter_cons_False; [apply IH|]. intros HP. by apply Hcx in HP.
  - rewrite filter_cons_True by by apply Hcx. simpl. by rewrite IH.
Qed.

Lemma complement_length v : length (complement v) = length v.
Proof. unfold complement. apply length_map. Qed.

Lemma width_rows {A} m (M : list (list A)) :
  Forall (fun row => length row = m) M -> M ≠ [] -> width M = m.
Proof. intros HM Hne. destruct HM; [done|]. done. Qed.

Lemma without_row_shape {A} n m (M : list (list A)) i :
  shape n m M -> 2 <= n -> width (without_row M i) = m.
Proof.
  intros [Hn Hrows] Hn2. apply width_rows.
  - unfold without_row. apply Forall_app. split.
    + by apply Forall_take.
    + by apply Forall_drop.
  - intros Hnil. apply (f_equal length) in Hnil. unfold without_row in Hnil.
    rewrite length_app, length_take, length_drop in Hnil. simpl in Hnil. lia.
Qed.

(** ** The tasks of the search *)

Lemma rows_at_length {A} (M : list A) idxs rows :
  rows_at M idxs = Ok rows -> length rows = length idxs.
Proof.
  revert rows. induction idxs as [|i idxs IH]; simpl; intros rows.
  - by intros [= <-].
  - intros (x & Hx & (xs & Hxs & [= <-])%bind_Ok)%bind_Ok.
    simpl. f_equal. by apply IH.
Qed.

Lemma collect_returns futures :
  futures ≠ [] ->
  Forall (fun fut : result (Q * list Q) => exists t, fut = Ok t) futures ->
  exists C_results, collect futures = Ok C_results /\ C_results ≠ [].
Proof.
  intros Hne Hok.
  assert (exists tasks, futures = map Ok tasks) as [tasks ->].
  { clear Hne. induction Hok as [|fut futures [t ->] _ [tasks ->]].
    - by exists [].
    - by exists (t :: tasks). }
  unfold collect. rewrite collect_fold. eexists. split; [done|].
  destruct (collect_table tasks) as (_ & _ & Hk).
  destruct tasks as [|t tasks]; [done|].
  destruct (Hk t) as (K & s & Hin & _); [by left|].
  intros Hnil. rewrite Hnil in Hin. by apply elem_of_nil in Hin.
Qed.

Section AnalyzeFacts.
Context `{Numeric} `{Estimator} `{Rng} `{Executor}.

Lemma select_best_C_returns C_results :
  C_results ≠ [] -> exists best, select_best_C C_results = Ok best.
Proof.
  intros Hne. unfold select_best_C.
  destruct (ranking C_results) as [|first rest] eqn:E.
  - apply (f_equal length) in E. unfold ranking in E.
    rewrite sorted_reverse_perm, length_map in E. by destruct C_results.
  - simpl. by eexists.
Qed.

Section Tasks.
Context (X : list (list Q)) (Y : list (list nat)) (n m : nat).
Hypothesis Y_shape : shape n m Y.
Hypothesis two_rows : 2 <= n.
Hypothesis X_rows : length X = n.

Lemma loocv_score_returns f_idx c c_idx :
  f_idx < m ->
  exists score,
    loocv_score X Y f_idx c (nonzero (complement (col f_idx Y))) c_idx = Ok score.
Proof using Y_shape two_rows X_rows.
  intros Hf. unfold loocv_score.
  destruct (rows_at_lt X (nonzero (complement (col f_idx Y)))) as [X_neg ->].
  { eapply Forall_impl; [apply nonzero_lt|]. intros i Hi. simpl in Hi.
    rewrite complement_length in Hi. unfold col in Hi. rewrite length_map in Hi.
    destruct Y_shape as [HY _]. lia. }
  cbn [mbind result_bind].
  destruct (predict_proba_shape c (without_row X c_idx) (without_row Y c_idx) X)
    as [Hlen Hrows].
  rewrite (without_row_shape n m) in Hrows by done.
  destruct (column_wide _ m f_idx Hrows Hf) as (pred_prob & -> & Hpp).
  cbn [mbind result_bind].
  destruct (index_lt pred_prob 0) as (p0 & -> & _); [lia|].
  cbn [mbind result_bind]. by eexists.
Qed.

(** A LOOCV task on a column of the label matrix returns. *)
Lemma loocv_feature_returns C f_idx c g :
  f_idx < m -> exists scores, loocv_feature C X Y f_idx c g = Ok (C, scores).
Proof using Y_shape two_rows X_rows.
  intros Hf. unfold loocv_feature.
  rewrite (column_shape n m) by done. cbn [mbind result_bind].
  unfold np_choice. rewrite (proj2 (Nat.ltb_ge _ _)) by lia.
  cbn [mbind result_bind].
  destruct (choice _ _ g) as [f_concepts g'].
  destruct (for_each_returns (fun _ => True)
              (fun scores c_idx =>
                 score ← loocv_score X Y f_idx c
                           (nonzero (complement (col f_idx Y))) c_idx;
                 Ok (scores ++ [score])) f_concepts) with (a := @nil Q)
    as (scores & -> & _); [|done|].
  - intros scores c_idx _ _.
    destruct (loocv_score_returns f_idx c c_idx Hf) as [score ->].
    by eexists.
  - cbn [mbind result_bind]. by eexists.
Qed.

Lemma submit_C_step nonzero_features futures g C :
  10 <= length nonzero_features ->
  submit_C X Y nonzero_features (futures, g) C =
    let '(picks, g') := choice (seq 0 (length nonzero_features)) 10 g in
    f_idxs ← rows_at nonzero_features picks;
    Ok (futures ++ map (fun f_idx => loocv_feature C X Y f_idx (new_clf C) g')
                       f_idxs, g').
Proof.
  clear Y_shape two_rows X_rows.
  intros Hten. unfold submit_C, np_choice.
  rewrite length_seq. by rewrite (proj2 (Nat.ltb_ge _ _)) by lia.
Qed.

(** Every strength of a list adds ten tasks, which all return. *)
Lemma submit_returns nonzero_features Cs :
  10 <= length nonzero_features ->
  Forall (fun j => j < m) nonzero_features ->
  forall futures g,
    Forall (fun fut : result (Q * list Q) => exists t, fut = Ok t) futures ->
    exists futures' g',
      for_each (submit_C X Y nonzero_features) Cs (futures, g)
        = Ok (futures', g') /\
      Forall (fun fut : result (Q * list Q) => exists t, fut = Ok t) futures' /\
      length futures' = length futures + 10 * length Cs.
Proof using Y_shape two_rows X_rows.
  intros Hten Hcols. induction Cs as [|C Cs IH]; intros futures g Hok.
  - exists futures, g. simpl. split; [done|]. split; [done|]. lia.
  - cbn [for_each]. rewrite submit_C_step by done.
    pose proof (choice_length _ (seq 0 (length nonzero_features)) 10 g) as Hlen.
    pose proof (choice_sample _ (seq 0 (length nonzero_features)) 10 g) as Hsub.
    rewrite length_seq in Hlen, Hsub.
    destruct (choice (seq 0 (length nonzero_features)) 10 g) as [picks g'].
    simpl in Hlen, Hsub. specialize (Hlen Hten). specialize (Hsub Hten).
    destruct (rows_at_lt nonzero_features picks) as [f_idxs Hrows].
    { apply Forall_forall. intros i Hi.
      eapply elem_of_submseteq in Hi; [|exact Hsub].
      apply elem_of_seq in Hi. lia. }
    rewrite Hrows. cbn [mbind result_bind].
    destruct (IH (futures ++ map (fun f_idx => loocv_feature C X Y f_idx (new_clf C) g')
                                 f_idxs) g')
      as (futures' & g'' & Hrun & Hok' & Hlen').
    { apply Forall_app. split; [done|]. apply Forall_fmap.
      apply rows_at_elem in Hrows. eapply Forall_impl; [exact Hrows|].
      intros f_idx Hin. simpl.
      destruct (loocv_feature_returns C f_idx (new_clf C) g') as [scores ->].
      - rewrite Forall_forall in Hcols. by apply Hcols.
      - by eexists. }
    exists futures', g''. split; [done|]. split; [done|].
    rewrite Hlen', length_app, length_map, (rows_at_length _ _ _ Hrows), Hlen.
    simpl. lia.
Qed.

(** The search for the strength returns when ten columns are not zero. *)
Lemma search_C_returns nonzero_features g :
  10 <= length nonzero_features ->
  Forall (fun j => j < m) nonzero_features ->
  exists best, search_C X Y nonzero_features g = Ok best.
Proof using Y_shape two_rows X_rows.
  intros Hten Hcols. unfold search_C.
  destruct (submit_returns nonzero_features C_choices Hten Hcols [] g)
    as (futures & g' & -> & Hok & Hlen); [done|].
  cbn [mbind result_bind].
  destruct (collect_returns (as_completed futures)) as (C_results & -> & Hne).
  - intros Hnil. apply (f_equal length) in Hnil.
    rewrite as_completed_perm, Hlen in Hnil. vm_compute in Hnil. discriminate.
  - by rewrite as_completed_perm.
  - cbn [mbind result_bind]. by apply select_best_C_returns.
Qed.

(** The scores of the features: absent exactly on the zero columns. *)
Lemma ret_metrics_returns preds counts i :
  Forall (fun row => length row = m) preds ->
  i + length counts <= m ->
  exists ms, ret_metrics_from Y preds i counts = Ok ms /\
    length ms = length counts /\
    forall k count, counts !! k = Some count ->
      exists score, ms !! k = Some score /\ (score = None <-> count = 0).
Proof using Y_shape two_rows X_rows.
  intros Hpreds. revert i. induction counts as [|count counts IH]; intros i Hi.
  - exists []. split; [done|]. split; [done|]. by intros ??.
  - simpl in Hi. destruct (IH (S i)) as (ms & Hms & Hlen & Hspec); [lia|].
    assert (exists score, ret_metric Y preds i count = Ok score /\
                          (score = None <-> count = 0)) as (score & Hscore & Hnone).
    { unfold ret_metric. destruct (Nat.eqb_spec count 0) as [->|Hne].
      - by exists None.
      - rewrite (column_shape n m Y i Y_shape) by lia. cbn [mbind result_bind].
        destruct (column_wide preds m i Hpreds) as (p & -> & _); [lia|].
        cbn [mbind result_bind]. eexists. split; [done|]. by split. }
    exists (score :: ms). cbn [ret_metrics_from]. rewrite Hscore.
    cbn [mbind result_bind]. rewrite Hms. cbn [mbind result_bind].
    split; [done|]. split; [simpl; by rewrite Hlen|].
    intros [|k] c Hc; simpl in Hc.
    + injection Hc as <-. by exists score.
    + by apply Hspec.
Qed.
End Tasks.
End AnalyzeFacts.

Section AnalyzeTheorem.
Context `{Numeric} `{Estimator} `{Rng} `{Executor}.

(** X26: when the indices of the vocabulary are in range, there is one
    embedding per index and at least 10 features have 5 or more concepts in
    the vocabulary, [analyze_features] returns one tuple per feature of the
    catalog, and the score of a feature is absent exactly when fewer than 5
    of its concepts are in the vocabulary. *)
Theorem analyze_features_scores features word2idx embeddings g :
  map_Forall (fun _ i => i < size word2idx) word2idx ->
  length embeddings = size word2idx ->
  10 <= length (filter (fun nm => qualifies features word2idx nm = true)
                       (feature_names features)) ->
  exists res,
    analyze_features features word2idx embeddings g = Ok res /\
    map (fun r : string * nat * option Q => r.1.1) res = feature_names features /\
    (forall nm, is_Some (features !! nm) ->
                exists count score, (nm, count, score) ∈ res) /\
    (forall nm count score, (nm, count, score) ∈ res ->
       exists f, features !! nm = Some f /\
                 (score = None <-> in_vocab word2idx f < 5)).
Proof.
  intros Hrange HX Hten.
  destruct (label_matrix_columns features word2idx Hrange) as (Y & HY & Hshape & Hcols).
  set (n := size word2idx) in *. set (m := size features) in *.
  set (names := feature_names features) in *.
  set (counts := col_sums m Y).
  assert (Hcm : length counts = m) by by apply (col_sums_length n).
  assert (Hnm : length names = m) by apply feature_names_length.
  assert (Hcount : forall i c nm, counts !! i = Some c -> names !! i = Some nm ->
            exists f, features !! nm = Some f /\
                      (c = 0 <-> in_vocab word2idx f < 5)).
  { intros i c nm Hc Hn.
    assert (is_Some (features !! nm)) as [f Hf].
    { apply feature_names_lookup. by eapply list_elem_of_lookup_2. }
    exists f. split; [done|].
    unfold counts in Hc. rewrite (col_sums_lookup n m) in Hc; [|done|].
    2:{ apply lookup_lt_Some in Hn. lia. }
    injection Hc as <-. destruct (Hcols i nm f Hn Hf) as [H5 H4].
    rewrite concept_idxs_length in H5, H4.
    split.
    - intros Hzero. destruct (decide (in_vocab word2idx f < 5)); [done|].
      exfalso. apply H5; [lia|done].
    - intros Hlt. by apply H4. }
  assert (Hnz : 10 <= length (nonzero counts)).
  { unfold nonzero.
    rewrite (nonzero_from_count (qualifies features word2idx) 0 counts names);
      [done|].
    apply Forall2_same_length_lookup_2; [lia|].
    intros i c nm Hc Hn. destruct (Hcount i c nm Hc Hn) as (f & Hf & Hiff).
    unfold qualifies. rewrite Hf. rewrite Nat.leb_le. lia. }
  assert (Hn2 : 2 <= n).
  { destruct (filter (fun nm => qualifies features word2idx nm = true) names)
      as [|nm rest] eqn:E; [simpl in Hten; lia|].
    assert (nm ∈ filter (fun nm => qualifies features word2idx nm = true) names)
      as [Hq _]%list_elem_of_filter by (rewrite E; by left).
    unfold qualifies in Hq. destruct (features !! nm) as [f|]; [|done].
    apply Nat.leb_le in Hq. pose proof (in_vocab_size word2idx f). lia. }
  unfold analyze_features. rewrite HY. cbn [mbind result_bind].
  fold m. fold counts.
  destruct (search_C_returns embeddings Y n m Hshape Hn2 HX (nonzero counts) g)
    as [best ->]; [done| |].
  { eapply Forall_impl; [apply nonzero_lt|]. intros i Hi. simpl in Hi. lia. }
  cbn [mbind result_bind].
  destruct (predict_shape (new_clf best) embeddings Y embeddings) as [_ Hpreds].
  rewrite (width_rows m) in Hpreds; [|by destruct Hshape|].
  2:{ destruct Hshape as [Hlen _]. intros ->. simpl in Hlen. lia. }
  destruct (ret_metrics_returns embeddings Y n m Hshape Hn2 HX _ counts 0 Hpreds)
    as (ms & -> & Hms & Hspec); [lia|].
  cbn [mbind result_bind]. eexists. split; [reflexivity|].
  assert (Hfst : map (fun r : string * nat * option Q => r.1.1)
                     (zip (zip names counts) ms) = names).
  { transitivity (((zip (zip names counts) ms).*1).*1).
    { exact (list_fmap_compose fst fst _). }
    rewrite fst_zip by (rewrite length_zip; lia). by rewrite fst_zip by lia. }
  split; [done|]. split.
  - intros nm Hnm'. apply feature_names_lookup in Hnm'. fold names in Hnm'.
    rewrite <- Hfst in Hnm'. change (map ?f ?l) with (f <$> l) in Hnm'.
    apply list_elem_of_fmap in Hnm' as ([[nm' count] score] & -> & Hin).
    by exists count, score.
  - intros nm count score (i & Hi)%list_elem_of_lookup_1.
    apply lookup_zip_with_Some in Hi as ([nm' c] & s & [= <- <- <-] & Hi & Hs).
    apply lookup_zip_with_Some in Hi as (nm' & c & [= <- <-] & Hn & Hc).
    destruct (Hcount i count nm Hc Hn) as (f & Hf & Hiff).
    exists f. split; [done|]. rewrite <- Hiff.
    destruct (Hspec i count Hc) as (score' & Hs' & Hnone).
    by assert (score' = score) as -> by congruence.
Qed.
End AnalyzeTheorem.

(** ** Instances with their laws *)

Lemma replicate_rows_shape {A B} (row_of : nat -> list A -> list B) w X :
  (forall r, length (row_of w r) = w) ->
  length (map (row_of w) X) = length X /\
  Forall (fun row => length row = w) (map (row_of w) X).
Proof.
  intros Hrow. split; [apply length_map|].
  apply Forall_fmap, Forall_forall. intros r _. apply Hrow.
Qed.

(** The classifier of [Exact], fitted by remembering the number of labels. *)
Definition first_coordinate : Estimator :=
  {| clf := unit;
     fitted := nat;
     new_clf := fun _ => tt;
     fit := fun _ _ Y => width Y;
     predict_proba := fun w X => map (Exact.proba_row w) X;
     predict := fun w X => map (Exact.label_row w) X;
     f1_score := Exact.f1;
     predict_proba_shape := fun _ _ Y X' =>
       replicate_rows_shape Exact.proba_row (width Y) X'
         (fun r => length_replicate _ _);
     predict_shape := fun _ _ Y X' =>
       replicate_rows_shape Exact.label_row (width Y) X'
         (fun r => length_replicate _ _) |}.

Lemma first_n_length A (l : list A) k (g : unit) :
  k <= length l -> length (Exact.first_n l k g).1 = k.
Proof. intros Hk. simpl. rewrite length_take. lia. Qed.

Lemma first_n_sample A (l : list A) k (g : unit) :
  k <= length l -> (Exact.first_n l k g).1 ⊆+ l.
Proof. intros _. simpl. apply sublist_submseteq, sublist_take. Qed.

Definition first_drawn : Rng :=
  {| rng := unit;
     choice := @Exact.first_n;
     choice_length := first_n_length;
     choice_sample := first_n_sample |}.

(** Futures that complete in the order they were submitted. *)
Definition in_order : Executor :=
  {| as_completed := fun A l => l;
     as_completed_perm := fun A l => reflexivity l |}.

(** C1 fails on the code: the held-out concept is row 1, with probability
    1/4, and the negatives are rows 0 and 2; the score the loop records is
    computed from the probabilities of all the rows of [X] in their order,
    row 0 standing for the held-out concept, whatever the logarithm and the
    mean are.  With the identity for the logarithm the two scores are 5/16
    and -1/16. *)
Theorem loocv_feature_scores_all_rows (N : Numeric) (C : Q) :
  @loocv_feature N first_coordinate first_drawn C Sample.three_rows Sample.middle_positive 0 tt tt
    = Ok (C, [(np_log (1 # 2) - np_mean [np_log (1 # 4); np_log (1 # 8)])%Q]) /\
  @margin_on_test N first_coordinate Sample.three_rows Sample.middle_positive 0 tt [0; 2] 1
    = Ok (np_log (1 # 4) - np_mean [np_log (1 # 2); np_log (1 # 8)])%Q /\
  exists code claimed,
    @loocv_score Exact.numeric first_coordinate Sample.three_rows Sample.middle_positive
                 0 tt [0; 2] 1 = Ok code /\
    @margin_on_test Exact.numeric first_coordinate Sample.three_rows Sample.middle_positive
                    0 tt [0; 2] 1 = Ok claimed /\
    (code == 5 # 16)%Q /\ (claimed == -1 # 16)%Q.
Proof.
  split; [reflexivity|]. split; [reflexivity|].
  eexists _, _. split; [reflexivity|]. split; [reflexivity|].
  split; reflexivity.
Qed.

Lemma analyze_features_scores_witness :
  exists res,
    @analyze_features Exact.numeric first_coordinate first_drawn in_order
      Sample.ten_and_small Sample.five_words Sample.five_vectors tt = Ok res /\
    length res = 11 /\
    (exists count, ("f_small"%string, count, None) ∈ res) /\
    (exists count score, ("f0"%string, count, Some score) ∈ res) /\
    map (fun r : string * nat * option Q => r.1.1) res
      = feature_names Sample.ten_and_small /\
    (forall nm, is_Some (Sample.ten_and_small !! nm) ->
                exists count score, (nm, count, score) ∈ res) /\
    (forall nm count score, (nm, count, score) ∈ res ->
       exists f, Sample.ten_and_small !! nm = Some f /\
                 (score = None <-> in_vocab Sample.five_words f < 5)).
Proof.
  destruct (@analyze_features_scores Exact.numeric first_coordinate first_drawn
              in_order Sample.ten_and_small Sample.five_words
              Sample.five_vectors tt)
    as (res & Hres & Hnames & Hall & Hscore).
  - apply map_Forall_to_list. vm_compute. repeat constructor.
  - reflexivity.
  - vm_compute. lia.
  - exists res. split; [exact Hres|].
    split.
    { apply (f_equal length) in Hnames. rewrite length_map in Hnames.
      rewrite Hnames. reflexivity. }
    split.
    { destruct (Hall "f_small"%string) as (count & score & Hin);
        [eexists; reflexivity|].
      exists count. destruct (Hscore _ _ _ Hin) as (f & Hf & Hiff).
      injection Hf as <-.
      assert (score = None) as -> by (apply Hiff; vm_compute; lia). done. }
    split.
    { destruct (Hall "f0"%string) as (count & score & Hin);
        [eexists; reflexivity|].
      exists count. destruct (Hscore _ _ _ Hin) as (f & Hf & Hiff).
      injection Hf as <-. destruct score as [score|].
      - by exists score.
      - exfalso. assert (5 < 5) as Hlt; [|lia].
        change 5 with (in_vocab Sample.five_words
                         (Sample.held_by_all "f0").2) at 1.
        by apply Hiff. }
    split; [exact Hnames|]. split; [exact Hall|exact Hscore].
Defined.

(** C5 fails on the code: nine features of the catalog have 5 concepts in
    the vocabulary and one has 2, so the claim has ten tuples returned, nine
    with a score; the search for the strength draws 10 features among the
    nine, and [analyze_features] raises ValueError. *)
Theorem analyze_features_raises_on_small_catalog :
  size Sample.nine_and_small = 10 /\
  map_Forall (fun nm f => in_vocab Sample.five_words f
                          = if decide (nm = "f_small"%string) then 2 else 5)
             Sample.nine_and_small /\
  @analyze_features Exact.numeric first_coordinate first_drawn in_order
    Sample.nine_and_small Sample.five_words Sample.five_vectors tt
  = Raise ValueError.
Proof.
  split; [reflexivity|]. split; [|vm_compute; reflexivity].
  apply map_Forall_to_list. vm_compute. repeat constructor.
Qed.

(** C3 fails on the code: [fcat_med] is written for the first-word groups
    after the categories, under the same keys.  In this run the one scored
    feature of category "function" is "has_legs", with score 4/5, and
    [fcat_med["function"]] ends as 1, the median of the features whose name
    starts with "function". *)
Theorem fcat_med_overwritten_by_first_word :
  exists fs' lines br_table fw_table fcat_med,
    @main_to_report Exact.numeric first_coordinate first_drawn in_order
      (Some Sample.run_catalog) Sample.run_glove tt
    = Ok (fs', (lines,
                [("br_label"%string, br_table); ("first_word"%string, fw_table)],
                fcat_med)) /\
    length lines = 10 /\
    map (fun l : string * string * nat * Q => (l.1.1.1, l.2))
        (filter (fun l : string * string * nat * Q =>
                   l.1.1.2 = "function"%string) lines)
      = [("has_legs"%string, (4 # 5)%Q)] /\
    (exists s, ("function"%string, s) ∈ br_table /\ median s = (4 # 5)%Q) /\
    @np_percentile Exact.numeric [(4 # 5)%Q] 50 = (4 # 5)%Q /\
    fcat_med !! "function"%string = Some 1%Q.
Proof.
  eexists _, _, _, _, _. split; [vm_compute; reflexivity|].
  split; [reflexivity|]. split; [reflexivity|].
  split; [|split; reflexivity].
  eexists. split; [repeat first [by left | right]|reflexivity].
Qed.

(** * Further properties *)

Lemma for_each_app {A B} (body : A -> B -> result A) l1 l2 a :
  for_each body (l1 ++ l2) a = (for_each body l1 a ≫= for_each body l2).
Proof.
  revert a. induction l1 as [|x l1 IH]; intros a; simpl; [done|].
  destruct (body a x); simpl; auto.
Qed.

(** A loop raises when one of its elements makes the body raise in every
    state. *)
Lemma for_each_raises {A B} (body : A -> B -> result A) l x :
  x ∈ l -> (forall a, exists e, body a x = Raise e) ->
  forall a, exists e, for_each body l a = Raise e.
Proof.
  intros Hin Hx. induction l as [|y l IH]; intros a.
  - by apply elem_of_nil in Hin.
  - cbn [for_each]. destruct (body a y) as [a1|e] eqn:E.
    + cbn [mbind result_bind]. apply elem_of_cons in Hin as [->|Hin].
      * destruct (Hx a) as [e He]. congruence.
      * by apply IH.
    + by exists e.
Qed.

(** ** The catalog loader, continued *)

(** X1: a line with fewer than two fields makes the load fail. *)
Theorem load_features_concepts_short_row content line :
  line ∈ Text.file_lines content ->
  length (Text.split_on Text.tab (Text.strip line)) < 2 ->
  exists e, load_features_concepts (Some content) = Raise e.
Proof.
  intros Hin Hshort. unfold load_features_concepts.
  apply (for_each_raises _ _ line Hin).
  intros [features cs]. unfold catalog_row.
  destruct (Text.split_on Text.tab (Text.strip line)) as [|c [|nm rest]];
    [by eexists..|]. simpl in Hshort. lia.
Qed.

Definition own_names (st : gmap string Feature * gset string) : Prop :=
  (forall nm f, st.1 !! nm = Some f ->
     name f = nm /\ "Concept"%string ∉ concepts f /\
     "dunebuggy"%string ∉ concepts f) /\
  "Concept"%string ∉ st.2 /\ "dunebuggy"%string ∉ st.2.

Lemma catalog_row_own_names st line st' :
  own_names st -> catalog_row st line = Ok st' -> own_names st'.
Proof.
  destruct st as [features cs]. unfold catalog_row.
  destruct (Text.split_on _ _) as [|concept_name [|feature_name fields]];
    [discriminate..|].
  intros (Hf & Hc & Hd).
  destruct (String.eqb_spec concept_name "Concept") as [->|Hne1];
    [by intros [= <-]|].
  destruct (String.eqb_spec concept_name "dunebuggy") as [->|Hne2];
    [by intros [= <-]|].
  cbn [orb]. intros (features' & Hnew & [= <-])%bind_Ok.
  assert (Hf' : forall nm f, features' !! nm = Some f ->
            name f = nm /\ "Concept"%string ∉ concepts f /\
            "dunebuggy"%string ∉ concepts f).
  { destruct (features !! feature_name) eqn:E.
    - by injection Hnew as <-.
    - apply bind_Ok in Hnew as (f10 & _ & Hnew).
      destruct (take 4 _) as [|f2 [|f3 [|f4 [|f5 [|??]]]]]; try discriminate.
      injection Hnew as <-. intros nm f.
      destruct (decide (feature_name = nm)) as [->|Hne].
      + rewrite lookup_insert_eq. intros [= <-]. simpl. set_solver.
      + rewrite lookup_insert_ne by done. apply Hf. }
  split; [|split; simpl in *; set_solver].
  intros nm f. simpl. destruct (decide (feature_name = nm)) as [->|Hne].
  - rewrite lookup_alter_eq. destruct (features' !! nm) as [f0|] eqn:E; [|done].
    intros [= <-]. destruct (Hf' _ _ E) as (Hn & H1 & H2). simpl.
    split; [done|]. set_solver.
  - rewrite lookup_alter_ne by done. apply Hf'.
Qed.

(** X2: in a loaded catalog every feature is stored under its own name, and
    the two ignored concept names occur nowhere. *)
Theorem load_features_concepts_own_names features_file features cs :
  load_features_concepts features_file = Ok (features, cs) ->
  (forall nm f, features !! nm = Some f ->
     name f = nm /\ "Concept"%string ∉ concepts f /\
     "dunebuggy"%string ∉ concepts f) /\
  "Concept"%string ∉ cs /\ "dunebuggy"%string ∉ cs.
Proof.
  destruct features_file as [content|]; [|discriminate]. simpl. intros Hrun.
  apply (for_each_invariant own_names) in Hrun; [exact Hrun| |].
  - intros ???? ; apply catalog_row_own_names.
  - split; [|set_solver]. intros ?? Hl. simpl in Hl.
    by rewrite lookup_empty in Hl.
Qed.

(** The labels of a feature, as read from the fields after the two names. *)
Definition labelled (rest : list string) (f : Feature) : Prop :=
  rest !! 0 = Some (wb_label f) /\ rest !! 1 = Some (wb_maj f) /\
  rest !! 2 = Some (wb_min f) /\ rest !! 3 = Some (br_label f) /\
  rest !! 8 = Some (disting f).

(** A row never changes the labels of a feature that is already there. *)
Lemma catalog_row_keeps_labels st line st' nm f rest :
  catalog_row st line = Ok st' ->
  st.1 !! nm = Some f -> labelled rest f ->
  exists f', st'.1 !! nm = Some f' /\ labelled rest f'.
Proof.
  destruct st as [features cs]. unfold catalog_row. simpl.
  destruct (Text.split_on _ _) as [|concept_name [|feature_name fields]];
    [discriminate..|].
  destruct (_ || _); [intros [= <-]; eauto|].
  intros (features' & Hnew & [= <-])%bind_Ok Hf Hlab. simpl.
  assert (features' !! nm = Some f) as Hf'.
  { destruct (features !! feature_name) eqn:E; [by injection Hnew as <-|].
    apply bind_Ok in Hnew as (f10 & _ & Hnew).
    destruct (take 4 _) as [|f2 [|f3 [|f4 [|f5 [|??]]]]]; try discriminate.
    injection Hnew as <-. rewrite lookup_insert_ne; [done|]. congruence. }
  destruct (decide (feature_name = nm)) as [->|Hne].
  - rewrite lookup_alter_eq, Hf'. simpl. eexists. split; [done|]. exact Hlab.
  - rewrite lookup_alter_ne by done. eauto.
Qed.

(** A row that does not name a feature leaves it absent. *)
Lemma catalog_row_absent st line st' nm :
  catalog_row st line = Ok st' ->
  (forall c r, Text.split_on Text.tab (Text.strip line) = c :: nm :: r ->
               c = "Concept"%string \/ c = "dunebuggy"%string) ->
  st.1 !! nm = None -> st'.1 !! nm = None.
Proof.
  destruct st as [features cs]. unfold catalog_row. simpl.
  destruct (Text.split_on _ _) as [|concept_name [|feature_name fields]];
    [discriminate..|].
  destruct (String.eqb_spec concept_name "Concept") as [->|Hne1];
    [by intros [= <-]|].
  destruct (String.eqb_spec concept_name "dunebuggy") as [->|Hne2];
    [by intros [= <-]|].
  cbn [orb]. intros (features' & Hnew & [= <-])%bind_Ok Hother Hnone. simpl.
  assert (feature_name ≠ nm) as Hne.
  { intros ->. destruct (Hother _ _ eq_refl); done. }
  rewrite lookup_alter_ne by done.
  destruct (features !! feature_name) eqn:E; [by injection Hnew as <-|].
  apply bind_Ok in Hnew as (f10 & _ & Hnew).
  destruct (take 4 _) as [|f2 [|f3 [|f4 [|f5 [|??]]]]]; try discriminate.
  injection Hnew as <-. by rewrite lookup_insert_ne.
Qed.

(** The first row of a feature creates it with the labels of the row. *)
Lemma catalog_row_creates st line st' concept nm rest :
  catalog_row st line = Ok st' ->
  Text.split_on Text.tab (Text.strip line) = concept :: nm :: rest ->
  concept ≠ "Concept"%string -> concept ≠ "dunebuggy"%string ->
  st.1 !! nm = None ->
  exists f, st'.1 !! nm = Some f /\ labelled rest f.
Proof.
  destruct st as [features cs]. unfold catalog_row. simpl.
  intros Hrow Hsplit Hne1 Hne2 Hnone. rewrite Hsplit in Hrow.
  rewrite (proj2 (String.eqb_neq _ _) Hne1),
          (proj2 (String.eqb_neq _ _) Hne2) in Hrow. cbn [orb] in Hrow.
  rewrite Hnone in Hrow.
  apply bind_Ok in Hrow as (features' & Hnew & [= <-]).
  apply bind_Ok in Hnew as (f10 & H10 & Hnew).
  apply index_Ok in H10. simpl in H10.
  destruct rest as [|f2 [|f3 [|f4 [|f5 rest]]]]; try discriminate.
  simpl in Hnew. injection Hnew as <-. simpl.
  rewrite lookup_alter_eq, lookup_insert_eq. simpl.
  eexists. split; [done|]. by repeat split.
Qed.

(** X3: the labels of a feature are those of the first row that names it. *)
Theorem load_features_concepts_first_row content features cs
    before line after concept nm rest :
  load_features_concepts (Some content) = Ok (features, cs) ->
  Text.file_lines content = before ++ line :: after ->
  Text.split_on Text.tab (Text.strip line) = concept :: nm :: rest ->
  concept ≠ "Concept"%string -> concept ≠ "dunebuggy"%string ->
  Forall (fun l => forall c r,
            Text.split_on Text.tab (Text.strip l) = c :: nm :: r ->
            c = "Concept"%string \/ c = "dunebuggy"%string) before ->
  exists f, features !! nm = Some f /\ labelled rest f.
Proof.
  unfold load_features_concepts. intros Hrun Hlines Hsplit Hne1 Hne2 Hbefore.
  rewrite Hlines, for_each_app in Hrun.
  apply bind_Ok in Hrun as (st1 & Hrun1 & Hrun).
  cbn [for_each] in Hrun. apply bind_Ok in Hrun as (st2 & Hrow & Hrun2).
  assert (st1.1 !! nm = None) as Hnone.
  { apply (for_each_invariant (fun st => st.1 !! nm = None)) in Hrun1;
      [done| |done].
    intros st l st' Hl Hst Hstep. apply (catalog_row_absent _ _ _ _ Hstep); [|done].
    rewrite Forall_forall in Hbefore. by apply Hbefore. }
  destruct (catalog_row_creates _ _ _ _ _ _ Hrow Hsplit Hne1 Hne2 Hnone)
    as (f & Hf & Hlab).
  apply (for_each_invariant
           (fun st => exists f', st.1 !! nm = Some f' /\ labelled rest f'))
    in Hrun2; [done| |by eauto].
  intros st l st' _ (f' & Hf' & Hlab') Hstep.
  by eapply catalog_row_keeps_labels.
Qed.

(** ** The embedding cache, continued *)

Section LoadEmbeddingsMore.
Context `{Numeric}.

(** X4: with no cache, a blank line in the raw source makes the build fail. *)
Theorem load_embeddings_blank_line fs cs content line :
  EMBEDDINGS fs = None -> INPUT fs = Some content ->
  line ∈ Text.file_lines content ->
  Text.split (Text.strip line) = [] ->
  exists e, load_embeddings fs cs = Raise e.
Proof.
  intros He Hi Hin Hblank. unfold load_embeddings, scan_input. rewrite He, Hi.
  destruct (for_each_raises (embedding_row cs) _ line Hin) with (a := @nil (string * list Q))
    as [e ->]; [|by exists e].
  intros acc. unfold embedding_row. rewrite Hblank. by eexists.
Qed.

(** The first token of a line is a concept of the target set. *)
Definition wanted_line (cs : gset string) (line : string) : bool :=
  match Text.split (Text.strip line) with
  | word :: _ => bool_decide (word ∈ cs)
  | [] => false
  end.

Lemma scan_length cs lines acc acc' :
  for_each (embedding_row cs) lines acc = Ok acc' ->
  length acc' =
    length acc + length (filter (fun l => wanted_line cs l = true) lines).
Proof.
  revert acc. induction lines as [|line lines IH]; intros acc; cbn [for_each].
  - intros [= <-]. simpl. lia.
  - intros (acc1 & Hrow & Hrun)%bind_Ok. rewrite (IH _ Hrun).
    rewrite filter_cons. unfold embedding_row in Hrow.
    destruct (Text.split (Text.strip line)) as [|word rest] eqn:E;
      [discriminate|].
    assert (wanted_line cs line = bool_decide (word ∈ cs)) as ->
      by (unfold wanted_line; by rewrite E).
    cbn in Hrow. destruct (decide (word ∈ cs)) as [Hin|Hout].
    + apply bind_Ok in Hrow as (vec & _ & [= <-]).
      rewrite (bool_decide_eq_true_2 _ Hin). rewrite decide_True by done.
      rewrite length_app. simpl. lia.
    + injection Hrow as <-. rewrite (bool_decide_eq_false_2 _ Hout).
      rewrite decide_False by done. lia.
Qed.

(** X5: the build keeps one entry per line of a wanted concept: a word the
    raw source repeats is repeated in the vocabulary. *)
Theorem load_embeddings_keeps_duplicates fs cs content fs' vocab embeddings :
  EMBEDDINGS fs = None -> INPUT fs = Some content ->
  load_embeddings fs cs = Ok (fs', (vocab, embeddings)) ->
  length vocab =
    length (filter (fun l => wanted_line cs l = true) (Text.file_lines content))
  /\ length embeddings = length vocab.
Proof.
  intros He Hi Hrun.
  destruct (load_embeddings_miss _ _ _ _ _ He Hrun)
    as (content' & pairs & Hi' & Hscan & -> & -> & _).
  assert (content' = content) as -> by congruence.
  rewrite !length_map, sorted_length. split; [|done].
  by apply scan_length in Hscan.
Qed.
End LoadEmbeddingsMore.

(** ** [get_values], continued *)

Section GetValuesMore.
Context `{Numeric}.

(** X6: a row without the value column, with a value that is neither "n/a"
    nor a float, or without the concept column makes [get_values] raise. *)
Theorem get_values_bad_row rows c_string value row :
  c_string ≠ value -> row ∈ rows ->
  row !! value = None \/
  (exists v, row !! value = Some v /\ v ≠ CStr "n/a" /\
             forall x, float_cell v ≠ Ok x) \/
  row !! c_string = None ->
  exists e, get_values (Some rows) c_string value = Raise e.
Proof.
  intros Hne Hin Hbad. unfold get_values.
  apply (for_each_raises _ _ row Hin). intros m.
  unfold get_values_row, row_get.
  destruct (row !! value) as [v|] eqn:Hv; [|by eexists].
  cbn [mbind result_bind]. case_decide as Hna.
  - rewrite lookup_insert_eq. cbn [mbind result_bind float_cell].
    rewrite lookup_insert_ne by done.
    destruct Hbad as [?|[(v' & Hv' & Hna' & _)|Hc]]; [done|congruence|].
    rewrite Hc. by eexists.
  - rewrite Hv. cbn [mbind result_bind].
    destruct (float_cell v) as [x|e] eqn:Hx; [|by eexists].
    cbn [mbind result_bind].
    destruct Hbad as [?|[(v' & Hv' & _ & Hfl)|Hc]]; [done| |].
    + assert (v' = v) as -> by congruence. by destruct (Hfl x).
    + rewrite Hc. by eexists.
Qed.

Lemma get_values_row_key c_string value m row m' :
  c_string ≠ value -> get_values_row c_string value m row = Ok m' ->
  exists k x, row !! c_string = Some k /\ m' = <[k := x]> m.
Proof.
  intros Hne. unfold get_values_row, row_get.
  destruct (row !! value) as [v|] eqn:Hv; [|discriminate].
  cbn [mbind result_bind]. case_decide as Hna.
  - rewrite lookup_insert_eq. cbn [mbind result_bind float_cell].
    rewrite lookup_insert_ne by done.
    destruct (row !! c_string) as [k|]; [|discriminate].
    intros [= <-]. eauto.
  - rewrite Hv. cbn [mbind result_bind].
    destruct (float_cell v) as [x|e]; [|discriminate]. cbn [mbind result_bind].
    destruct (row !! c_string) as [k|]; [|discriminate].
    intros [= <-]. eauto.
Qed.

Lemma get_values_loop_keys c_string value rows m0 m :
  c_string ≠ value ->
  for_each (get_values_row c_string value) rows m0 = Ok m ->
  forall k, is_Some (m !! k) <->
            is_Some (m0 !! k) \/ exists row, row ∈ rows /\ row !! c_string = Some k.
Proof.
  intros Hne. revert m0. induction rows as [|row rows IH]; intros m0; cbn [for_each].
  - intros [= <-] k. split; [by left|]. intros [?|(?&Hin&_)]; [done|].
    by apply elem_of_nil in Hin.
  - intros (m1 & Hrow & Hrun)%bind_Ok k.
    destruct (get_values_row_key _ _ _ _ _ Hne Hrow) as (kr & x & Hkr & ->).
    rewrite (IH _ Hrun k). split.
    + intros [Hs|(r & Hr & Hk)].
      * destruct (decide (kr = k)) as [->|Hnk].
        -- right. exists row. split; [by left|done].
        -- rewrite lookup_insert_ne in Hs by done. by left.
      * right. exists r. split; [by right|done].
    + intros [Hs|(r & Hr & Hk)].
      * left. destruct (decide (kr = k)) as [->|Hnk].
        -- rewrite lookup_insert_eq. eauto.
        -- by rewrite lookup_insert_ne.
      * apply elem_of_cons in Hr as [->|Hr].
        -- left. assert (kr = k) as -> by congruence.
           rewrite lookup_insert_eq. eauto.
        -- right. eauto.
Qed.

(** X7: the keys of the mapping are exactly the concept fields of the rows. *)
Theorem get_values_keys rows c_string value m :
  c_string ≠ value ->
  get_values (Some rows) c_string value = Ok m ->
  forall k, is_Some (m !! k) <->
            exists row, row ∈ rows /\ row !! c_string = Some k.
Proof.
  intros Hne Hrun k. unfold get_values in Hrun.
  rewrite (get_values_loop_keys _ _ _ _ _ Hne Hrun k). split.
  - intros [Hs|?]; [|done]. rewrite lookup_empty in Hs. by destruct Hs.
  - by right.
Qed.
End GetValuesMore.

(** ** The estimator, continued *)


Lemma for_each_snoc_length {A B} (step : B -> result A) (l : list B)
    (acc acc' : list A) :
  for_each (fun acc x => y ← step x; Ok (acc ++ [y])) l acc = Ok acc' ->
  length acc' = length acc + length l.
Proof.
  revert acc. induction l as [|x l IH]; intros acc; cbn [for_each].
  - intros [= <-]. simpl. lia.
  - intros (acc1 & (y & _ & [= <-])%bind_Ok & Hrun)%bind_Ok.
    rewrite (IH _ Hrun), length_app. simpl. lia.
Qed.

Section EstimatorMore.
Context `{Numeric} `{Estimator} `{Rng} `{Executor}.

(** X8: a task returns the strength it was given and one score per drawn
    positive concept: as many as the column has positives, at most 5. *)
Theorem loocv_feature_score_count C X Y f_idx c g C' scores :
  loocv_feature C X Y f_idx c g = Ok (C', scores) ->
  exists ycol, column Y f_idx = Ok ycol /\ C' = C /\
               length scores = min (length (nonzero ycol)) 5.
Proof.
  unfold loocv_feature. intros (ycol & Hcol & Hrun)%bind_Ok.
  exists ycol. split; [done|].
  apply bind_Ok in Hrun as ([f_concepts g'] & Hch & Hrun).
  apply bind_Ok in Hrun as (scores' & Hloop & [= <- <-]). split; [done|].
  apply for_each_snoc_length in Hloop. simpl in Hloop. rewrite Hloop.
  unfold np_choice in Hch.
  destruct (length (nonzero ycol) <? min (length (nonzero ycol)) n_concept_samples)
    eqn:E; [discriminate|].
  injection Hch as Hch.
  pose proof (choice_length _ (nonzero ycol)
                (min (length (nonzero ycol)) n_concept_samples) g) as Hlen.
  rewrite Hch in Hlen. simpl in Hlen. unfold n_concept_samples in *.
  apply Hlen. lia.
Qed.

End EstimatorMore.

(** ** The report, continued *)

(** [groups[k]] read back: the values appended under [k], oldest first. *)
Fixpoint group {V} (table : list (string * list V)) (k : string) : list V :=
  match table with
  | [] => []
  | (k', vs) :: rest => if String.eqb k' k then vs else group rest k
  end.

(** A table as a [defaultdict(list)] that was only appended to holds it:
    one entry per key, none of them empty. *)
Definition grouped {V} (table : list (string * list V)) : Prop :=
  NoDup (map fst table) /\ Forall (fun e => e.2 ≠ []) table.

Lemma group_append_keys {V} (table : list (string * list V)) k v k' :
  k' ∈ map fst (group_append table k v) <-> k' = k \/ k' ∈ map fst table.
Proof.
  induction table as [|[k0 vs] table IH]; simpl.
  - set_solver.
  - destruct (String.eqb_spec k0 k) as [->|Hne]; simpl.
    + set_solver.
    + rewrite !elem_of_cons, IH. tauto.
Qed.

Lemma group_append_grouped {V} (table : list (string * list V)) k v :
  grouped table -> grouped (group_append table k v).
Proof.
  unfold grouped. induction table as [|[k0 vs] table IH]; simpl.
  - intros _. split; [apply NoDup_singleton|]. by repeat constructor.
  - intros [[Hk0 Hnd]%NoDup_cons [Hvs Hall]%Forall_cons]. simpl in *.
    destruct (String.eqb_spec k0 k) as [->|Hne]; simpl.
    + split; [by apply NoDup_cons|]. apply Forall_cons. split; [|done].
      simpl. by destruct vs.
    + destruct (IH (conj Hnd Hall)) as [Hnd' Hall'].
      split; [|by apply Forall_cons].
      apply NoDup_cons. split; [|done].
      rewrite group_append_keys. intros [->|?]; done.
Qed.

Lemma group_group_append {V} (table : list (string * list V)) k v k' :
  group (group_append table k v) k'
  = if decide (k = k') then group table k' ++ [v] else group table k'.
Proof.
  induction table as [|[k0 vs] table IH]; simpl.
  - destruct (String.eqb_spec k k'), (decide (k = k')); done.
  - destruct (String.eqb_spec k0 k) as [->|Hne]; simpl.
    + destruct (String.eqb_spec k k'), (decide (k = k')); done.
    + destruct (String.eqb_spec k0 k') as [->|Hne'].
      * by destruct (decide (k = k')) as [->|].
      * apply IH.
Qed.

Lemma group_absent {V} (table : list (string * list V)) k :
  k ∉ map fst table -> group table k = [].
Proof.
  induction table as [|[k0 vs] table IH]; simpl; [done|].
  rewrite not_elem_of_cons. intros [Hne Hk].
  destruct (String.eqb_spec k0 k); [done|]. by apply IH.
Qed.

Lemma grouped_elem {V} (table : list (string * list V)) k vs :
  grouped table -> (k, vs) ∈ table <-> vs = group table k /\ vs ≠ [].
Proof.
  unfold grouped. induction table as [|[k0 vs0] table IH]; simpl.
  - intros _. split; [by intros ?%elem_of_nil|]. by intros [-> ?].
  - intros [[Hk0 Hnd]%NoDup_cons [Hvs Hall]%Forall_cons]. simpl in *.
    rewrite elem_of_cons, (IH (conj Hnd Hall)).
    destruct (String.eqb_spec k0 k) as [->|Hne].
    + split.
      * intros [[= ->]|[-> Hvs']]; [done|].
        by rewrite group_absent in Hvs'.
      * intros [-> _]. by left.
    + split.
      * intros [[= ? ?]|?]; [by subst|done].
      * intros ?. by right.
Qed.

Lemma grouped_keys {V} (table : list (string * list V)) k :
  grouped table -> k ∈ map fst table <-> group table k ≠ [].
Proof.
  intros Hg. split.
  - intros ([k' vs] & -> & Hin)%list_elem_of_fmap. simpl.
    by apply (grouped_elem _ _ _ Hg) in Hin as [<- ?].
  - intros Hne. apply list_elem_of_fmap. exists (k, group table k).
    split; [done|]. by apply grouped_elem.
Qed.

(** [record_medians] on a summary with one row per key. *)
Lemma record_medians_other (fcat_med : gmap string Q) summary k :
  k ∉ map fst summary -> record_medians fcat_med summary !! k = fcat_med !! k.
Proof.
  revert fcat_med. induction summary as [|[k0 s] summary IH]; intros m; simpl;
    [done|].
  rewrite not_elem_of_cons. intros [Hne Hk].
  unfold record_medians in *. simpl. rewrite (IH _ Hk).
  by rewrite lookup_insert_ne.
Qed.

Lemma record_medians_row (fcat_med : gmap string Q) summary k s :
  NoDup (map fst summary) -> (k, s) ∈ summary ->
  record_medians fcat_med summary !! k = Some (median s).
Proof.
  revert fcat_med. induction summary as [|[k0 s0] summary IH]; intros m; simpl.
  - by intros _ ?%elem_of_nil.
  - intros [Hk0 Hnd]%NoDup_cons [[= -> ->]|Hin]%elem_of_cons.
    + unfold record_medians. simpl.
      fold (record_medians (<[k0:=median s0]> m) summary).
      rewrite record_medians_other by done. by rewrite lookup_insert_eq.
    + unfold record_medians. simpl.
      fold (record_medians (<[k0:=median s0]> m) summary). by apply IH.
Qed.

Lemma Qltb_asym a b : Qltb a b = true -> Qltb b a = false.
Proof.
  unfold Qltb. rewrite negb_true_iff, negb_false_iff.
  intros Hba. apply Qle_bool_iff.
  destruct (Qle_bool b a) eqn:E; [discriminate|].
  destruct (Qlt_le_dec b a) as [Hlt|Hle]; [|done].
  apply Qlt_le_weak, Qle_bool_iff in Hlt. congruence.
Qed.

Lemma key_le_Qltb a b : key_le Qltb a b <-> (a <= b)%Q.
Proof.
  unfold key_le, Qltb. rewrite negb_false_iff. apply Qle_bool_iff.
Qed.

Section ReportMore.
Context `{Numeric}.

(** [name.split("_")[0]] *)
Definition first_word (nm : string) : string :=
  default ""%string (head (Text.split_on underscore nm)).

Lemma first_word_index nm :
  index (Text.split_on underscore nm) 0 = Ok (first_word nm).
Proof.
  unfold first_word, Text.split_on.
  by destruct (split_on_from_first underscore "" nm) as (w & ws & ->).
Qed.

(** The scored features a group of a table is made of. *)
Definition with_label (features : gmap string Feature) (k : string)
    (fd : list (string * nat * Q)) : list (string * nat * Q) :=
  filter (fun f => br_label <$> features !! f.1.1 = Some k) fd.

Definition with_first_word (k : string) (fd : list (string * nat * Q))
  : list (string * nat * Q) :=
  filter (fun f => first_word f.1.1 = k) fd.

Definition report_entry (f : string * nat * Q) : Q * nat := (f.2, f.1.2).

Lemma report_feature_step features lines t1 t2 nm n_entries score ft :
  features !! nm = Some ft ->
  report_feature features
    (lines, [("br_label"%string, t1); ("first_word"%string, t2)])
    (nm, n_entries, score)
  = Ok (lines ++ [(nm, br_label ft, n_entries, score)],
        [("br_label"%string, group_append t1 (br_label ft) (score, n_entries));
         ("first_word"%string,
          group_append t2 (first_word nm) (score, n_entries))]).
Proof.
  intros Hf. unfold report_feature. rewrite Hf.
  unfold grouping_fns. cbn [for_each]. rewrite Hf. cbn [mbind result_bind].
  rewrite first_word_index. reflexivity.
Qed.

(** A step of the loop raises nothing but KeyError, and raises it exactly on
    a name outside the catalog. *)
Lemma report_feature_raises features st f e :
  report_feature features st f = Raise e ->
  e = KeyError /\ features !! f.1.1 = None.
Proof.
  destruct st as [lines groups], f as [[nm n_entries] score].
  unfold report_feature. cbn [fst snd].
  destruct (features !! nm) as [ft|] eqn:Hf.
  - unfold grouping_fns. cbn [for_each]. rewrite ?Hf. cbn [mbind result_bind].
    rewrite first_word_index. discriminate.
  - by intros [= <-].
Qed.

Lemma report_loop features fd lines t1 t2 lines' groups' :
  for_each (report_feature features) fd
    (lines, [("br_label"%string, t1); ("first_word"%string, t2)])
  = Ok (lines', groups') ->
  grouped t1 -> grouped t2 ->
  exists new t1' t2',
    lines' = lines ++ new /\
    groups' = [("br_label"%string, t1'); ("first_word"%string, t2')] /\
    Forall2 (fun line f => exists ft, features !! f.1.1 = Some ft /\
               line = (f.1.1, br_label ft, f.1.2, f.2)) new fd /\
    grouped t1' /\ grouped t2' /\
    (forall k, group t1' k
               = group t1 k ++ map report_entry (with_label features k fd)) /\
    (forall k, group t2' k
               = group t2 k ++ map report_entry (with_first_word k fd)).
Proof.
  revert lines t1 t2.
  induction fd as [|[[nm n_entries] score] fd IH]; intros lines t1 t2.
  - intros [= <- <-] Hg1 Hg2. exists [], t1, t2.
    rewrite app_nil_r. split; [done|]. split; [done|].
    split; [constructor|]. split; [done|]. split; [done|].
    split; intros k; unfold with_label, with_first_word;
      by rewrite filter_nil, app_nil_r.
  - cbn [for_each]. intros (st & Hstep & Hrun)%bind_Ok Hg1 Hg2.
    destruct (features !! nm) as [ft|] eqn:Hf.
    2:{ unfold report_feature in Hstep. by rewrite Hf in Hstep. }
    rewrite (report_feature_step _ _ _ _ _ _ _ ft Hf) in Hstep.
    injection Hstep as <-.
    apply IH in Hrun as (new & t1' & t2' & -> & -> & Hnew & Hg1' & Hg2' & H1 & H2);
      [|by apply group_append_grouped..].
    exists ((nm, br_label ft, n_entries, score) :: new), t1', t2'.
    split; [by rewrite <- app_assoc|]. split; [done|].
    split; [apply Forall2_cons; split; [by exists ft|done]|].
    split; [done|]. split; [done|]. split.
    + intros k. rewrite H1, group_group_append.
      unfold with_label. rewrite filter_cons. simpl. rewrite Hf. simpl.
      destruct (decide (br_label ft = k)) as [->|Hne].
      * rewrite decide_True by done. by rewrite <- app_assoc.
      * rewrite decide_False by congruence. done.
    + intros k. rewrite H2, group_group_append.
      unfold with_first_word. rewrite filter_cons. cbn beta. cbn [fst snd].
      destruct (decide (first_word nm = k)) as [Heq|Hne];
        [by rewrite <- app_assoc|done].
Qed.

Lemma grouped_nil {V} : grouped (@nil (string * list V)).
Proof. split; [apply NoDup_nil_2|constructor]. Qed.

Lemma summary_table_keys table :
  map fst (summary_table table) ≡ₚ map fst table.
Proof.
  unfold summary_table. rewrite sorted_perm, map_map.
  apply Permutation_refl'. apply map_ext. by intros [k data].
Qed.

Lemma summary_table_row table k s :
  (k, s) ∈ summary_table table <->
  exists data, (k, data) ∈ table /\ s = summarize data.
Proof.
  unfold summary_table. rewrite sorted_perm, list_elem_of_fmap. split.
  - intros ([k' data] & [= -> ->] & Hin). by exists data.
  - intros (data & Hin & ->). by exists (k, data).
Qed.

Lemma summary_table_median table k :
  grouped table -> group table k ≠ [] ->
  forall m, record_medians m (summary_table table) !! k
            = Some (np_percentile (map fst (group table k)) 50).
Proof.
  intros Hg Hne m.
  rewrite (record_medians_row m _ k (summarize (group table k))); [done|..].
  - rewrite summary_table_keys. apply Hg.
  - apply summary_table_row. exists (group table k). split; [|done].
    by apply grouped_elem.
Qed.

Lemma summary_table_no_median table k :
  grouped table -> group table k = [] ->
  forall m, record_medians m (summary_table table) !! k = m !! k.
Proof.
  intros Hg He m. apply record_medians_other.
  rewrite summary_table_keys, (grouped_keys _ _ Hg), He.
  intros Hk. by apply Hk.
Qed.

Lemma main_report_runs features feature_data lines tables fcat_med :
  main_report features feature_data = Ok (lines, tables, fcat_med) ->
  let fd := sorted Qltb (fun f : string * nat * Q => f.2) (scored feature_data) in
  exists t1 t2,
    Forall2 (fun line f => exists ft, features !! f.1.1 = Some ft /\
               line = (f.1.1, br_label ft, f.1.2, f.2)) lines fd /\
    tables = [("br_label"%string, summary_table t1);
              ("first_word"%string, summary_table t2)] /\
    fcat_med = record_medians (record_medians ∅ (summary_table t1))
                              (summary_table t2) /\
    grouped t1 /\ grouped t2 /\
    (forall k, group t1 k = map report_entry (with_label features k fd)) /\
    (forall k, group t2 k = map report_entry (with_first_word k fd)).
Proof.
  intros Hrun fd. unfold main_report in Hrun. cbn [grouping_fns map] in Hrun.
  fold fd in Hrun.
  apply bind_Ok in Hrun as ([lines' groups'] & Hrun & Hret).
  apply report_loop in Hrun
    as (new & t1 & t2 & -> & -> & Hnew & Hg1 & Hg2 & H1 & H2);
    [|apply grouped_nil..].
  injection Hret as <- <- <-. exists t1, t2. repeat split; try done.
  all: apply Hg1 || apply Hg2.
Qed.

(** X10: the lines of the report are the scored features, one line each, in
    ascending order of score, each with the category of its feature. *)
Theorem main_report_lines features feature_data lines tables fcat_med :
  main_report features feature_data = Ok (lines, tables, fcat_med) ->
  map (fun l : string * string * nat * Q => (l.1.1.1, l.1.2, l.2)) lines
    ≡ₚ scored feature_data /\
  Sorted Qle (map (fun l : string * string * nat * Q => l.2) lines) /\
  (forall nm label n_entries score, (nm, label, n_entries, score) ∈ lines ->
     br_label <$> features !! nm = Some label).
Proof.
  intros (t1 & t2 & Hlines & _)%main_report_runs.
  set (fd := sorted Qltb (fun f : string * nat * Q => f.2) (scored feature_data))
    in Hlines.
  assert (map (fun l : string * string * nat * Q => (l.1.1.1, l.1.2, l.2)) lines
          = fd) as Hfd.
  { clear -Hlines. induction Hlines as [|line f lines fd (ft & _ & ->) _ IH];
      simpl; [done|]. rewrite IH. by destruct f as [[? ?] ?]. }
  split; [rewrite Hfd; apply sorted_perm|]. split.
  - assert (map (fun l : string * string * nat * Q => l.2) lines
            = map (fun f : string * nat * Q => f.2) fd) as ->.
    { rewrite <- Hfd, map_map. done. }
    pose proof (sorted_keys Qltb (fun f : string * nat * Q => f.2) Qltb_asym
                  (scored feature_data)) as Hs.
    fold fd in Hs. clear -Hs.
    induction Hs as [|a l Hs IH Hhd]; constructor; [done|].
    destruct Hhd; constructor. by apply key_le_Qltb.
  - intros nm label n_entries score Hin.
    apply list_elem_of_lookup in Hin as [i Hi].
    destruct (Forall2_lookup_l _ _ _ _ _ Hlines Hi) as (f & _ & ft & Hft & Heq).
    injection Heq as -> -> _ _. by rewrite Hft.
Qed.

(** X11: a scored feature whose name is not in the catalog makes the report
    raise KeyError. *)
Theorem main_report_unknown_feature features feature_data nm n_entries score :
  (nm, n_entries, Some score) ∈ feature_data ->
  features !! nm = None ->
  main_report features feature_data = Raise KeyError.
Proof.
  intros Hin Hnone.
  destruct (main_report features feature_data) as [[[lines tables] med]|e] eqn:E.
  - apply main_report_runs in E as (t1 & t2 & Hlines & _).
    assert ((nm, n_entries, score) ∈
            sorted Qltb (fun f : string * nat * Q => f.2) (scored feature_data))
      as Hs.
    { rewrite sorted_perm. unfold scored. apply list_elem_of_omap.
      by exists (nm, n_entries, Some score). }
    apply list_elem_of_lookup in Hs as [i Hi].
    destruct (Forall2_lookup_r _ _ _ _ _ Hlines Hi) as (? & _ & ft & Hft & _).
    simpl in Hft. congruence.
  - f_equal. unfold main_report in E. cbn [grouping_fns map] in E.
    destruct (for_each _ _ _) as [[lines groups]|e'] eqn:Hrun in E;
      [discriminate|].
    injection E as <-. clear Hin Hnone.
    revert Hrun. generalize (@nil (string * string * nat * Q),
      [("br_label"%string, @nil (string * list (Q * nat)));
       ("first_word"%string, @nil (string * list (Q * nat)))]).
    induction (sorted Qltb _ _) as [|f fd IH]; intros st; cbn [for_each];
      [discriminate|].
    destruct (report_feature features st f) as [st'|e0] eqn:Hstep.
    + cbn [mbind result_bind]. apply IH.
    + intros [= <-]. by apply report_feature_raises in Hstep as [-> _].
Qed.

(** X12: what [fcat_med] holds under a key: the median score of the scored
    features whose name starts with that word, when there are any; else the
    median score of the scored features of that category, when there are
    any; else nothing. *)
Theorem main_report_fcat_med features feature_data lines tables fcat_med k :
  main_report features feature_data = Ok (lines, tables, fcat_med) ->
  let fd := sorted Qltb (fun f : string * nat * Q => f.2) (scored feature_data) in
  let scores := map (fun f : string * nat * Q => f.2) in
  fcat_med !! k =
    if decide (with_first_word k fd ≠ [])
    then Some (np_percentile (scores (with_first_word k fd)) 50)
    else if decide (with_label features k fd ≠ [])
    then Some (np_percentile (scores (with_label features k fd)) 50)
    else None.
Proof.
  intros (t1 & t2 & _ & _ & -> & Hg1 & Hg2 & H1 & H2)%main_report_runs fd scores.
  fold fd in H1, H2.
  assert (forall l, map fst (map report_entry l) = scores l) as Hsc.
  { intros l. unfold scores. rewrite map_map. done. }
  assert (forall l : list (string * nat * Q),
            map report_entry l = [] <-> l = []) as Hnil.
  { intros [|]; done. }
  destruct (decide (with_first_word k fd ≠ [])) as [Hw|Hw].
  - rewrite summary_table_median; [|done|by rewrite H2, Hnil].
    by rewrite H2, Hsc.
  - apply dec_stable in Hw.
    rewrite summary_table_no_median; [|done|by rewrite H2, Hnil].
    destruct (decide (with_label features k fd ≠ [])) as [Hl|Hl].
    + rewrite summary_table_median; [|done|by rewrite H1, Hnil].
      by rewrite H1, Hsc.
    + apply dec_stable in Hl.
      rewrite summary_table_no_median; [|done|by rewrite H1, Hnil]. done.
Qed.
End ReportMore.

(** ** The index of [main] *)

Lemma main_word2idx_snoc vocab w :
  main_word2idx (vocab ++ [w]) = <[w := length vocab]> (main_word2idx vocab).
Proof.
  unfold main_word2idx. rewrite imap_app, foldl_app. simpl.
  by rewrite Nat.add_0_r.
Qed.

Lemma main_word2idx_dom vocab :
  dom (main_word2idx vocab) = list_to_set vocab.
Proof.
  induction vocab as [|w vocab IH] using rev_ind.
  - unfold main_word2idx. simpl. by rewrite dom_empty_L.
  - rewrite main_word2idx_snoc, dom_insert_L, IH, list_to_set_app_L. simpl.
    set_solver.
Qed.

Lemma size_list_to_set_le (l : list string) :
  size (list_to_set l : gset string) <= length l.
Proof.
  induction l as [|x l IH].
  - rewrite list_to_set_nil, size_empty. simpl. lia.
  - rewrite list_to_set_cons, size_union_alt, size_singleton.
    assert (size (list_to_set l ∖ {[x]} : gset string)
            <= size (list_to_set l : gset string))
      by (apply subseteq_size; set_solver).
    simpl. lia.
Qed.

Lemma size_list_to_set_dup (l : list string) :
  ~ NoDup l -> size (list_to_set l : gset string) < length l.
Proof.
  induction l as [|x l IH].
  - intros []. constructor.
  - intros Hdup. rewrite list_to_set_cons. cbn [length].
    destruct (decide (x ∈ l)) as [Hin|Hout].
    + assert ({[x]} ∪ list_to_set l = (list_to_set l : gset string)) as ->
        by set_solver.
      pose proof (size_list_to_set_le l). lia.
    + assert (~ NoDup l) as Hl.
      { intros Hnd. apply Hdup. by constructor. }
      apply IH in Hl. rewrite size_union by set_solver.
      rewrite size_singleton. lia.
Qed.

Lemma main_word2idx_size vocab :
  size (main_word2idx vocab) = size (list_to_set vocab : gset string).
Proof. by rewrite <- main_word2idx_dom, size_dom. Qed.

Lemma main_word2idx_last vocab w i :
  main_word2idx vocab !! w = Some i <->
  vocab !! i = Some w /\ forall k, i < k -> vocab !! k ≠ Some w.
Proof.
  revert i. induction vocab as [|x vocab IH] using rev_ind; intros i.
  - unfold main_word2idx. simpl. rewrite lookup_empty. split; [done|].
    by intros [? _].
  - rewrite main_word2idx_snoc. destruct (decide (x = w)) as [->|Hne].
    + rewrite lookup_insert_eq. split.
      * intros [= <-]. split.
        -- by rewrite lookup_app_r, Nat.sub_diag by lia.
        -- intros k Hk Hlook. apply lookup_lt_Some in Hlook.
           rewrite length_app in Hlook. simpl in Hlook. lia.
      * intros [Hi Hlast]. f_equal.
        pose proof (lookup_lt_Some _ _ _ Hi) as Hlt.
        rewrite length_app in Hlt. simpl in Hlt.
        destruct (decide (i = length vocab)) as [|Hne]; [done|].
        exfalso. apply (Hlast (length vocab)); [lia|].
        by rewrite lookup_app_r, Nat.sub_diag by lia.
    + rewrite lookup_insert_ne by done. rewrite IH. split.
      * intros [Hi Hlast]. split.
        -- by apply lookup_app_l_Some.
        -- intros k Hk Hlook. apply lookup_app_Some in Hlook as [Hlook|[_ Hlook]].
           ++ by apply (Hlast k).
           ++ apply list_lookup_singleton_Some in Hlook as [_ ?]. done.
      * intros [Hi Hlast]. apply lookup_app_Some in Hi as [Hi|[_ Hi]].
        -- split; [done|]. intros k Hk Hlook. apply (Hlast k Hk).
           by apply lookup_app_l_Some.
        -- apply list_lookup_singleton_Some in Hi as [_ ?]. done.
Qed.

(** X13: a word of the vocabulary is indexed by its last position, and nothing
    else is indexed. *)
Theorem main_word2idx_lookup vocab w i :
  main_word2idx vocab !! w = Some i <->
  vocab !! i = Some w /\ forall k, i < k -> vocab !! k ≠ Some w.
Proof. apply main_word2idx_last. Qed.

(** X14: the index has one entry per word of the vocabulary and all its
    positions below its size exactly when no word occurs twice. *)
Theorem main_word2idx_in_range vocab :
  (NoDup vocab <-> size (main_word2idx vocab) = length vocab) /\
  (NoDup vocab <->
   map_Forall (fun _ i => i < size (main_word2idx vocab)) (main_word2idx vocab)).
Proof.
  assert (NoDup vocab <-> size (main_word2idx vocab) = length vocab) as Hsize.
  { rewrite main_word2idx_size. split.
    - apply size_list_to_set.
    - intros Heq. destruct (decide (NoDup vocab)) as [|Hdup]; [done|].
      apply size_list_to_set_dup in Hdup. lia. }
  split; [done|]. split.
  - intros Hnd w i [Hi _]%main_word2idx_last.
    apply lookup_lt_Some in Hi. apply Hsize in Hnd. lia.
  - intros Hall. destruct (decide (NoDup vocab)) as [|Hdup]; [done|].
    exfalso. pose proof (size_list_to_set_dup _ Hdup) as Hlt.
    rewrite <- main_word2idx_size in Hlt.
    destruct vocab as [|x vocab] using rev_ind; [simpl in Hlt; lia|].
    clear IHvocab.
    assert (main_word2idx (vocab ++ [x]) !! x = Some (length vocab)) as Hx.
    { rewrite main_word2idx_snoc. apply lookup_insert_eq. }
    apply Hall in Hx. rewrite length_app in Hlt. simpl in *. lia.
Qed.

(** ** The weights of the concepts *)

Lemma feature_dict_snoc fd k n v :
  feature_dict (fd ++ [(k, n, v)]) = <[k := v]> (feature_dict fd).
Proof. unfold feature_dict. by rewrite foldl_app. Qed.

(** The features of [feature_dict] are those of the list. *)
Lemma feature_dict_is_Some fd k :
  is_Some (feature_dict fd !! k) <-> exists n v, (k, n, v) ∈ fd.
Proof.
  induction fd as [|[[k' n'] v'] fd IH] using rev_ind.
  - unfold feature_dict. simpl. rewrite lookup_empty. split.
    + by intros [? ?].
    + by intros (? & ? & ?%elem_of_nil).
  - rewrite feature_dict_snoc. destruct (decide (k' = k)) as [->|Hne].
    + rewrite lookup_insert_eq. split; [|by eauto].
      intros _. exists n', v'. apply elem_of_app. right. by left.
    + rewrite lookup_insert_ne by done. rewrite IH. split.
      * intros (n & v & Hin). exists n, v. apply elem_of_app. by left.
      * intros (n & v & [Hin|Hin]%elem_of_app); [by eauto|].
        apply list_elem_of_singleton in Hin. congruence.
Qed.

(** The scores gathered for a concept: those of the scored features that
    list it. *)
Definition concept_scores (features : gmap string Feature)
    (feature_data : list (string * nat * Q)) (c : string) : list Q :=
  omap (fun '(f_name, feature) =>
          if decide (c ∈ concepts feature)
          then feature_dict feature_data !! f_name else None)
       (map_to_list features).

Lemma concept_scores_nonempty features feature_data c :
  concept_scores features feature_data c ≠ [] <->
  exists f_name feature n v,
    features !! f_name = Some feature /\ c ∈ concepts feature /\
    (f_name, n, v) ∈ feature_data.
Proof.
  unfold concept_scores. split.
  - intros Hne. destruct (omap _ _) as [|s l] eqn:E; [done|].
    assert (s ∈ s :: l) as Hs by left. rewrite <- E in Hs.
    apply list_elem_of_omap in Hs as ([f_name feature] & Hin & Hs).
    apply elem_of_map_to_list in Hin.
    destruct (decide (c ∈ concepts feature)); [|done].
    destruct (proj1 (feature_dict_is_Some feature_data f_name)) as (n & v & ?);
      [by eauto|].
    by exists f_name, feature, n, v.
  - intros (f_name & feature & n & v & Hf & Hc & Hin) Hnil.
    destruct (proj2 (feature_dict_is_Some feature_data f_name)) as [s Hs];
      [by eauto|].
    assert (s ∈ @nil Q) as Hbad; [|by apply elem_of_nil in Hbad].
    rewrite <- Hnil. apply list_elem_of_omap. exists (f_name, feature).
    split; [by apply elem_of_map_to_list|].
    by rewrite decide_True.
Qed.

Section DoClusterFacts.
Context `{Numeric}.

Lemma vals_inner (vocab : list string) (w : option Q) c l
    (cv : gmap string (list Q)) :
  NoDup l ->
  default [] (foldl (fun cv concept =>
                       if decide (concept ∈ vocab) then
                         match w with
                         | Some v => vals_append cv concept v
                         | None => cv
                         end
                       else cv) cv l !! c)
  = default [] (cv !! c) ++
    (if decide (c ∈ vocab) then
       if decide (c ∈ l) then option_list w else []
     else []).
Proof.
  revert cv. induction l as [|x l IH]; intros cv Hnd; cbn [foldl].
  - destruct (decide (c ∈ vocab)); [|by rewrite app_nil_r].
    rewrite decide_False by apply not_elem_of_nil. by rewrite app_nil_r.
  - apply NoDup_cons in Hnd as [Hx Hnd]. rewrite (IH _ Hnd).
    destruct (decide (x = c)) as [->|Hne].
    + rewrite (decide_False (P := c ∈ l)) by done.
      rewrite (decide_True (P := c ∈ c :: l)) by left.
      destruct (decide (c ∈ vocab)); [|done].
      destruct w as [v|]; simpl; [|done].
      unfold vals_append. by rewrite lookup_insert_eq, app_nil_r.
    + assert (default [] ((if decide (x ∈ vocab) then
                 match w with
                 | Some v => vals_append cv x v
                 | None => cv
                 end else cv) !! c) = default [] (cv !! c)) as ->.
      { destruct (decide (x ∈ vocab)); [|done]. destruct w; [|done].
        unfold vals_append. by rewrite lookup_insert_ne. }
      f_equal. destruct (decide (c ∈ vocab)); [|done].
      destruct (decide (c ∈ l)).
      * rewrite decide_True; [done|by right].
      * rewrite decide_False; [done|]. by intros [?|?]%elem_of_cons.
Qed.

Lemma vals_inner_nonempty (vocab : list string) (w : option Q) l
    (cv : gmap string (list Q)) :
  map_Forall (fun _ vals => vals ≠ []) cv ->
  map_Forall (fun _ vals => vals ≠ [])
    (foldl (fun cv concept =>
              if decide (concept ∈ vocab) then
                match w with
                | Some v => vals_append cv concept v
                | None => cv
                end
              else cv) cv l).
Proof.
  revert cv. induction l as [|x l IH]; intros cv Hcv; simpl; [done|].
  apply IH. destruct (decide (x ∈ vocab)); [|done]. destruct w; [|done].
  unfold vals_append. apply map_Forall_insert_2; [|done].
  by destruct (default [] (cv !! x)).
Qed.

Lemma concept_vals_mean vocab features feature_data c :
  do_cluster_concept_vals vocab features feature_data !! c =
    if decide (c ∈ vocab /\ concept_scores features feature_data c ≠ [])
    then Some (np_mean (concept_scores features feature_data c))
    else None.
Proof.
  unfold do_cluster_concept_vals, concept_scores.
  rewrite lookup_fmap.
  set (step := fun (concept_vals : gmap string (list Q)) '(f_name, feature) =>
                 foldl _ concept_vals (elements (concepts feature))).
  set (pick := fun '(f_name, feature) =>
                 if decide (c ∈ concepts feature)
                 then feature_dict feature_data !! f_name else None).
  assert (forall l cv,
            map_Forall (fun _ vals => vals ≠ []) cv ->
            map_Forall (fun _ vals => vals ≠ []) (foldl step cv l) /\
            default [] (foldl step cv l !! c)
            = default [] (cv !! c) ++
              (if decide (c ∈ vocab) then omap pick l else [])) as Hloop.
  { induction l as [|[f_name feature] l IH]; intros cv Hcv; cbn [foldl].
    - split; [done|]. by destruct (decide (c ∈ vocab)); rewrite app_nil_r.
    - destruct (IH (step cv (f_name, feature))) as [Hne ->].
      { by apply vals_inner_nonempty. }
      split; [done|]. unfold step.
      rewrite vals_inner by apply NoDup_elements.
      rewrite <- app_assoc. f_equal.
      destruct (decide (c ∈ vocab)); [|done].
      change (omap pick ((f_name, feature) :: l))
        with (match pick (f_name, feature) with
              | Some y => y :: omap pick l
              | None => omap pick l
              end).
      unfold pick at 2.
      destruct (decide (c ∈ elements (concepts feature))) as [Hin|Hout].
      + rewrite decide_True by by apply elem_of_elements.
        by destruct (feature_dict feature_data !! f_name).
      + rewrite decide_False by by rewrite <- elem_of_elements. done. }
  destruct (Hloop (map_to_list features) ∅) as [Hne Hvals].
  { apply map_Forall_empty. }
  rewrite lookup_empty in Hvals. simpl in Hvals.
  destruct (foldl step ∅ (map_to_list features) !! c) as [vals|] eqn:E;
    simpl in *.
  - pose proof (Hne _ _ E) as Hvals'.
    destruct (decide (c ∈ vocab)) as [Hc|Hc]; [|done].
    rewrite decide_True; [by rewrite Hvals|]. split; [done|congruence].
  - rewrite decide_False; [done|]. intros [Hc Hs].
    rewrite decide_True in Hvals by done. congruence.
Qed.

(** X15: the weight of a concept in [do_cluster] is the mean score of the
    scored features that list it, when the concept is in the vocabulary and
    there is such a feature; else the concept has no weight. *)
Theorem do_cluster_concept_vals_lookup vocab features feature_data c :
  do_cluster_concept_vals vocab features feature_data !! c =
    if decide (c ∈ vocab /\ concept_scores features feature_data c ≠ [])
    then Some (np_mean (concept_scores features feature_data c))
    else None.
Proof. apply concept_vals_mean. Qed.

(** X16: the value [do_cluster] puts in front of a concept's embedding is NaN
    exactly when the concept is outside the vocabulary or no scored feature
    lists it. *)
Theorem do_cluster_missing_weight vocab features feature_data labels i c :
  labels !! i = Some c ->
  mean_metric (do_cluster_concept_vals vocab features feature_data) labels !! i
    = Some NaN <->
  ~ (c ∈ vocab /\
     exists f_name feature n v,
       features !! f_name = Some feature /\ c ∈ concepts feature /\
       (f_name, n, v) ∈ feature_data).
Proof.
  intros Hc. unfold mean_metric. rewrite list_lookup_fmap, Hc. simpl.
  rewrite concept_vals_mean, <- concept_scores_nonempty.
  destruct (decide _) as [Hyes|Hno]; split; done.
Qed.
End DoClusterFacts.

(** ** [analyze_domains] *)

Section AnalyzeDomainsFacts.
Context {D : Type} `{Countable D}.

(** The scores of the points of a domain, in the order of the points;
    no entry for a domain without points. *)
Definition scores_of (d : D) (points : list (D * Q)) : option (list Q) :=
  let scores := map snd (filter (fun p => p.1 = d) points) in
  if decide (scores ≠ []) then Some scores else None.

(** The points the loops walk through: each label's score, once for each of
    its domains. *)
Definition domain_points (labels : list string) (ff_scores : list Q)
    (concept_domains : gmap string (list D)) : list (D * Q) :=
  concat (imap (fun i concept =>
                  map (fun d => (d, default 0%Q (ff_scores !! i)))
                      (default [] (concept_domains !! concept)))
               labels).

(** The invariant of the loops: [x] and [y] are aligned, and
    [domain_feat_fit] groups the scores of [y] by the domains of [x]. *)
Definition filed (st : list D * list Q * gmap D (list Q)) : Prop :=
  length st.1.1 = length st.1.2 /\
  forall d, st.2 !! d = scores_of d (zip st.1.1 st.1.2).

Lemma scores_of_snoc d d' s points :
  scores_of d (points ++ [(d', s)]) =
    if decide (d' = d)
    then Some (default [] (scores_of d points) ++ [s])
    else scores_of d points.
Proof.
  unfold scores_of. rewrite filter_app, map_app, filter_cons, filter_nil.
  cbn [fst]. destruct (decide (d' = d)) as [->|Hne].
  - cbn [map]. rewrite decide_True by (by destruct (map _ _)).
    f_equal. f_equal. by destruct (decide _) as [|Hnil%dec_stable].
  - cbn [map]. by rewrite app_nil_r.
Qed.

Lemma domain_point_filed ff_scores i st d st' :
  filed st -> domain_point ff_scores i st d = Ok st' ->
  filed st' /\
  zip st'.1.1 st'.1.2 = zip st.1.1 st.1.2 ++ [(d, default 0%Q (ff_scores !! i))].
Proof.
  destruct st as [[x y] dff]. intros [Hlen Hdff]. simpl in Hlen, Hdff.
  unfold domain_point. intros (s & Hs%index_Ok & [= <-])%bind_Ok.
  cbn [fst snd]. rewrite Hs. cbn [default].
  assert (zip (x ++ [d]) (y ++ [s]) = zip x y ++ [(d, s)]) as Hzip.
  { by rewrite zip_with_app. }
  split; [|done]. split; cbn [fst snd].
  - rewrite !length_app. simpl. lia.
  - intros d'. rewrite Hzip, scores_of_snoc, <- Hdff.
    destruct (decide (d = d')) as [<-|Hne].
    + destruct (dff !! d); by rewrite lookup_insert_eq.
    + destruct (dff !! d); by rewrite lookup_insert_ne.
Qed.

Lemma domain_loop_filed ff_scores i ds st st' :
  filed st -> for_each (domain_point ff_scores i) ds st = Ok st' ->
  filed st' /\
  zip st'.1.1 st'.1.2
  = zip st.1.1 st.1.2 ++ map (fun d => (d, default 0%Q (ff_scores !! i))) ds.
Proof.
  revert st. induction ds as [|d ds IH]; intros st Hst; cbn [for_each].
  - intros [= <-]. by rewrite app_nil_r.
  - intros (st1 & Hstep & Hrun)%bind_Ok.
    destruct (domain_point_filed _ _ _ _ _ Hst Hstep) as [Hst1 Hz1].
    destruct (IH _ Hst1 Hrun) as [Hst' Hz']. split; [done|].
    rewrite Hz', Hz1, <- app_assoc. done.
Qed.

Lemma analyze_domains_loop labels ff_scores
    (concept_domains : gmap string (list D)) n st st' :
  filed st ->
  for_each (fun st '(i, concept) =>
              match concept_domains !! concept with
              | None => Raise KeyError
              | Some ds => for_each (domain_point ff_scores i) ds st
              end)
           (imap (fun i => pair (n + i)) labels) st = Ok st' ->
  filed st' /\
  zip st'.1.1 st'.1.2
  = zip st.1.1 st.1.2 ++
    concat (imap (fun i concept =>
                    map (fun d => (d, default 0%Q (ff_scores !! (n + i))))
                        (default [] (concept_domains !! concept)))
                 labels).
Proof.
  revert n st. induction labels as [|c labels IH]; intros n st Hst.
  - cbn. intros [= <-]. by rewrite app_nil_r.
  - rewrite !imap_cons. cbn [for_each concat].
    intros (st1 & Hstep & Hrun)%bind_Ok.
    destruct (concept_domains !! c) as [ds|] eqn:Hc; [|discriminate].
    destruct (domain_loop_filed _ _ _ _ _ Hst Hstep) as [Hst1 Hz1].
    rewrite Nat.add_0_r in *.
    assert (imap ((fun i => pair (n + i)) ∘ S) labels
            = imap (fun i => pair (S n + i)) labels) as Himap.
    { apply imap_ext. intros i x _. simpl. f_equal. lia. }
    rewrite Himap in Hrun.
    destruct (IH _ _ Hst1 Hrun) as [Hst' Hz']. split; [done|].
    rewrite Hz', Hz1, <- app_assoc. cbn [default]. f_equal. f_equal.
    f_equal. apply imap_ext. intros i x _. simpl.
    by rewrite Nat.add_succ_r.
Qed.

(** X17: when [analyze_domains] gets through its loops, [x] and [y] are the
    two coordinates of the same points, a label's score once for each of its
    domains, and [domain_feat_fit] holds for each domain the scores of its
    points, in their order, and nothing for a domain without points. *)
Theorem analyze_domains_files_scores labels ff_scores
    (concept_domains : gmap string (list D)) x y domain_feat_fit :
  analyze_domains labels ff_scores concept_domains
    = Ok (x, y, domain_feat_fit) ->
  length x = length y /\
  zip x y = domain_points labels ff_scores concept_domains /\
  forall d, domain_feat_fit !! d = scores_of d (zip x y).
Proof.
  unfold analyze_domains. intros Hrun.
  apply (analyze_domains_loop labels ff_scores concept_domains 0) in Hrun
    as [[Hlen Hdff] Hzip].
  - simpl in *. done.
  - split; [done|]. intros d. simpl. by rewrite lookup_empty.
Qed.

(** X18: [analyze_domains] raises when a label has no entry in
    [concept_domains], and when a label with a domain has no score. *)
Theorem analyze_domains_raises labels ff_scores
    (concept_domains : gmap string (list D)) i c :
  labels !! i = Some c ->
  concept_domains !! c = None \/
  (exists d ds, concept_domains !! c = Some (d :: ds)) /\
  length ff_scores <= i ->
  exists e, analyze_domains labels ff_scores concept_domains = Raise e.
Proof.
  intros Hc Hbad. unfold analyze_domains.
  apply (for_each_raises _ _ (i, c)).
  - apply list_elem_of_lookup. exists i. by rewrite list_lookup_imap, Hc.
  - intros [[x y] dff]. destruct Hbad as [->|[(d & ds & ->) Hlen]].
    + by eexists.
    + cbn [for_each]. unfold domain_point at 2. unfold index.
      rewrite (lookup_ge_None_2 _ _ Hlen). by eexists.
Qed.
End AnalyzeDomainsFacts.

(** ** The clusters [do_cluster] returns *)

Lemma do_cluster_domains_snoc sib_clusters cs :
  do_cluster_domains (sib_clusters ++ [cs]) =
    if (0 <? length cs)%nat
    then <[length sib_clusters := cs]> (do_cluster_domains sib_clusters)
    else do_cluster_domains sib_clusters.
Proof.
  unfold do_cluster_domains. rewrite imap_app, foldl_app. simpl.
  by rewrite Nat.add_0_r.
Qed.

Lemma do_cluster_domains_nonempty sib_clusters i cs :
  do_cluster_domains sib_clusters !! i = Some cs <->
  sib_clusters !! i = Some cs /\ cs ≠ [].
Proof.
  induction sib_clusters as [|cs' l IH] using rev_ind.
  - unfold do_cluster_domains. simpl. rewrite lookup_empty. split; [done|].
    by intros [? _].
  - rewrite do_cluster_domains_snoc.
    assert (forall j, j < length l -> (l ++ [cs']) !! j = l !! j) as Hl
      by (intros; by apply lookup_app_l).
    assert ((l ++ [cs']) !! length l = Some cs') as Hlast
      by (by rewrite lookup_app_r, Nat.sub_diag by lia).
    assert (do_cluster_domains l !! i = Some cs <->
            (l ++ [cs']) !! i = Some cs /\ cs ≠ [] /\ i ≠ length l) as IH'.
    { rewrite IH. split.
      - intros [Hi Hne]. pose proof (lookup_lt_Some _ _ _ Hi).
        rewrite Hl by done. split; [done|]. split; [done|lia].
      - intros (Hi & Hne & Hlen). split; [|done].
        pose proof (lookup_lt_Some _ _ _ Hi) as Hlt.
        rewrite length_app in Hlt. simpl in Hlt.
        rewrite <- Hl; [done|lia]. }
    destruct (0 <? length cs')%nat eqn:E.
    + apply Nat.ltb_lt in E. destruct (decide (i = length l)) as [->|Hne].
      * rewrite lookup_insert_eq, Hlast. split.
        -- intros [= <-]. split; [done|]. intros ->. simpl in E. lia.
        -- by intros [[= <-] _].
      * rewrite lookup_insert_ne by done. rewrite IH'. tauto.
    + apply Nat.ltb_ge in E. rewrite IH'. split; [tauto|].
      intros [Hi Hne]. split; [done|]. split; [done|]. intros ->.
      rewrite Hlast in Hi. injection Hi as ->.
      destruct cs; simpl in E; [done|lia].
Qed.

(** X19: the dictionary [do_cluster] returns has the clusters under their
    positions, without the empty ones. *)
Theorem do_cluster_domains_lookup sib_clusters i cs :
  do_cluster_domains sib_clusters !! i = Some cs <->
  sib_clusters !! i = Some cs /\ cs ≠ [].
Proof. apply do_cluster_domains_nonempty. Qed.

(** ** The points of [produce_unified_graph] *)

Lemma pop_snoc {A} (l : list A) x : pop (l ++ [x]) = Ok l.
Proof.
  unfold pop. destruct (l ++ [x]) eqn:E.
  - by destruct l.
  - by rewrite <- E, removelast_last.
Qed.

Section UnifiedGraphFacts.
Context `{Numeric} `{Median}.

(** The colour of a point: "LightGray", or the colour of the last of the
    five domains that holds the concept when the median weight is below
    0.2. *)
Definition point_color (domain_concepts : gmap nat (list string))
    (concept : string) (weights : list Q) : string :=
  if Qltb (np_median weights) (1 # 5)
  then default "LightGray"%string
         (last (omap (fun '(d, color) =>
                        if bool_decide
                             (concept ∈ default [] (domain_concepts !! d))
                        then Some color else None)
                     interesting_domains))
  else "LightGray"%string.

Lemma recolour_loop (domain_concepts : gmap nat (list string))
    (concept : string) (weights : list Q) (ids : list (nat * string))
    (init : list string) (cur : string) (colors : list string) :
  for_each (fun colors '(d, color) =>
              match domain_concepts !! d with
              | None => Raise KeyError
              | Some cs =>
                  if bool_decide (concept ∈ cs)
                     && Qltb (np_median weights) (1 # 5)
                  then colors ← pop colors; Ok (colors ++ [color])
                  else Ok colors
              end) ids (init ++ [cur]) = Ok colors ->
  colors = init ++
    [if Qltb (np_median weights) (1 # 5)
     then default cur
            (last (omap (fun '(d, color) =>
                           if bool_decide
                                (concept ∈ default [] (domain_concepts !! d))
                           then Some color else None) ids))
     else cur].
Proof.
  revert cur. induction ids as [|[d color] ids IH]; intros cur; cbn [for_each].
  - intros [= <-]. by destruct (Qltb _ _).
  - intros (colors1 & Hstep & Hrun)%bind_Ok.
    destruct (domain_concepts !! d) as [cs|] eqn:Hd; [|discriminate].
    change (omap ?f ((d, color) :: ids))
      with (match f (d, color) with
            | Some y => y :: omap f ids
            | None => omap f ids
            end).
    cbn beta iota. rewrite Hd. cbn [default id].
    destruct (bool_decide (concept ∈ cs)) eqn:Hin;
      destruct (Qltb (np_median weights) (1 # 5)) eqn:Hlt; cbn [andb] in Hstep.
    + rewrite pop_snoc in Hstep. injection Hstep as <-.
      apply IH in Hrun. rewrite ?Hlt in Hrun. rewrite Hrun, last_cons.
      by destruct (last _).
    + injection Hstep as <-. apply IH in Hrun. by rewrite ?Hlt in Hrun.
    + injection Hstep as <-. apply IH in Hrun. by rewrite ?Hlt in Hrun.
    + injection Hstep as <-. apply IH in Hrun. by rewrite ?Hlt in Hrun.
Qed.

Lemma unified_colors_Ok domain_concepts concept weights init colors :
  unified_colors domain_concepts concept weights
    (init ++ ["LightGray"%string]) = Ok colors ->
  colors = init ++ [point_color domain_concepts concept weights].
Proof.
  unfold unified_colors, point_color. intros ->%recolour_loop.
  by destruct (Qltb _ _).
Qed.

Lemma unified_point_loop (features : gmap string Feature)
    (feature_map : gmap string Q) (domain_concepts : gmap nat (list string))
    (concept_pearson1 concept_pearson2 : gmap cell Q) (vocab : list string)
    xs ys zs labels colors xs' ys' zs' labels' colors' :
  for_each (unified_point features feature_map domain_concepts
                          concept_pearson1 concept_pearson2)
           vocab (xs, ys, zs, labels, colors)
    = Ok (xs', ys', zs', labels', colors') ->
  let new := filter (fun c => concept_weights features feature_map c ≠ [])
                    vocab in
  labels' = labels ++ new /\
  zs' = zs ++ map (fun c => np_median (concept_weights features feature_map c))
                  new /\
  colors' = colors ++
            map (fun c => point_color domain_concepts c
                            (concept_weights features feature_map c)) new /\
  exists xn yn,
    xs' = xs ++ xn /\ ys' = ys ++ yn /\
    Forall2 (fun c x => concept_pearson1 !! CStr c = Some x) new xn /\
    Forall2 (fun c y => concept_pearson2 !! CStr c = Some y) new yn.
Proof.
  revert xs ys zs labels colors.
  induction vocab as [|c vocab IH]; intros xs ys zs labels colors;
    cbn [for_each].
  - intros [= <- <- <- <- <-]. cbn. rewrite !app_nil_r.
    repeat split; try done. exists [], []. by rewrite !app_nil_r.
  - intros ([[[[xs1 ys1] zs1] labels1] colors1] & Hstep & Hrun)%bind_Ok.
    apply IH in Hrun as (-> & -> & -> & xn & yn & -> & -> & Hx & Hy).
    cbn zeta. rewrite filter_cons. unfold unified_point in Hstep.
    destruct (concept_weights features feature_map c) as [|w ws] eqn:Hw.
    + injection Hstep as <- <- <- <- <-.
      rewrite decide_False by (by intros []).
      repeat split; try done. by exists xn, yn.
    + rewrite decide_True by done.
      apply bind_Ok in Hstep as (colors2 & Hcol%unified_colors_Ok & Hstep).
      destruct (concept_pearson1 !! CStr c) as [x|] eqn:Hx1; [|discriminate].
      destruct (concept_pearson2 !! CStr c) as [y|] eqn:Hy1; [|discriminate].
      cbn in Hstep. injection Hstep as <- <- <- <- <-. subst colors2.
      cbn [map]. rewrite Hw.
      split; [by rewrite <- app_assoc|]. split; [by rewrite <- app_assoc|].
      split; [by rewrite <- app_assoc|].
      exists (x :: xn), (y :: yn).
      split; [by rewrite <- app_assoc|]. split; [by rewrite <- app_assoc|].
      split; by constructor.
Qed.

(** X20: the points of [produce_unified_graph] are the concepts of the
    vocabulary that a scored feature lists, in the order of the vocabulary,
    each with its two correlations and the median of its features' scores. *)
Theorem unified_graph_points pearson1 pearson2 vocab features feature_data
    domain_concepts xs ys zs labels colors :
  produce_unified_graph_points pearson1 pearson2 vocab features feature_data
                               domain_concepts
    = Ok (xs, ys, zs, labels, colors) ->
  let weights := concept_weights features (feature_dict feature_data) in
  exists concept_pearson1 concept_pearson2,
    get_values pearson1 "Concept" "correlation" = Ok concept_pearson1 /\
    get_values pearson2 "Concept" "correlation" = Ok concept_pearson2 /\
    labels = filter (fun c => weights c ≠ []) vocab /\
    Forall2 (fun c x => concept_pearson1 !! CStr c = Some x) labels xs /\
    Forall2 (fun c y => concept_pearson2 !! CStr c = Some y) labels ys /\
    zs = map (fun c => np_median (weights c)) labels.
Proof.
  intros Hrun weights. unfold produce_unified_graph_points in Hrun.
  apply bind_Ok in Hrun as (cp1 & Hcp1 & Hrun).
  apply bind_Ok in Hrun as (cp2 & Hcp2 & Hrun).
  destruct (negb _); [discriminate|]. destruct (negb _); [discriminate|].
  apply unified_point_loop in Hrun
    as (-> & -> & _ & xn & yn & -> & -> & Hx & Hy).
  exists cp1, cp2. by repeat split.
Qed.

(** X21: a point is drawn in "LightGray", unless the median of its weights is
    below 0.2 and one of the domains 16, 17, 18, 26, 30 holds the concept:
    then in the colour of the last such domain. *)
Theorem unified_graph_colors pearson1 pearson2 vocab features feature_data
    domain_concepts xs ys zs labels colors :
  produce_unified_graph_points pearson1 pearson2 vocab features feature_data
                               domain_concepts
    = Ok (xs, ys, zs, labels, colors) ->
  colors = map (fun c => point_color domain_concepts c
                  (concept_weights features (feature_dict feature_data) c))
               labels.
Proof.
  unfold produce_unified_graph_points.
  intros (cp1 & Hcp1 & (cp2 & Hcp2 & Hrun)%bind_Ok)%bind_Ok.
  destruct (negb _); [discriminate|]. destruct (negb _); [discriminate|].
  by apply unified_point_loop in Hrun as (-> & _ & -> & _).
Qed.

Lemma unified_graph_domain_lookup pearson1 pearson2 vocab features
    feature_data domain_concepts c d :
  c ∈ vocab ->
  concept_weights features (feature_dict feature_data) c ≠ [] ->
  d ∈ domain_choices -> domain_concepts !! d = None ->
  exists e, produce_unified_graph_points pearson1 pearson2 vocab features
              feature_data domain_concepts = Raise e.
Proof.
  intros Hc Hw Hd Hnone. unfold produce_unified_graph_points.
  destruct (get_values pearson1 _ _) as [cp1|e]; [|by exists e].
  destruct (get_values pearson2 _ _) as [cp2|e]; [|by exists e].
  cbn [mbind result_bind].
  destruct (negb _); [by eexists|]. destruct (negb _); [by eexists|].
  apply (for_each_raises _ _ c Hc). intros [[[[xs ys] zs] labels] colors].
  unfold unified_point.
  destruct (concept_weights _ _ c) as [|w ws] eqn:Hws; [done|].
  assert (exists color, (d, color) ∈ interesting_domains) as [color Hin].
  { unfold interesting_domains, domain_choices, domain_color_choices in *.
    cbn.
    repeat (apply elem_of_cons in Hd as [->|Hd];
            [eexists; repeat first [by left | right]|]).
    by apply elem_of_nil in Hd. }
  destruct (for_each_raises
              (fun colors '(d, color) =>
                 match domain_concepts !! d with
                 | None => Raise KeyError
                 | Some cs =>
                     if bool_decide (c ∈ cs)
                        && Qltb (np_median (w :: ws)) (1 # 5)
                     then colors ← pop colors; Ok (colors ++ [color])
                     else Ok colors
                 end) interesting_domains (d, color) Hin)
    with (a := colors ++ ["LightGray"%string]) as [e He].
  { intros a. rewrite Hnone. by eexists. }
  unfold unified_colors. rewrite He. by exists e.
Qed.

(** X22: when a concept of the vocabulary has a weight and one of the domains
    16, 17, 18, 26, 30 is not in [domain_concepts], the function raises. *)
Theorem unified_graph_missing_domain pearson1 pearson2 vocab features
    feature_data domain_concepts c d :
  c ∈ vocab ->
  concept_weights features (feature_dict feature_data) c ≠ [] ->
  d ∈ domain_choices -> domain_concepts !! d = None ->
  exists e, produce_unified_graph_points pearson1 pearson2 vocab features
              feature_data domain_concepts = Raise e.
Proof. apply unified_graph_domain_lookup. Qed.

(** X23: with the clusters of [do_cluster] as domains, the function raises as
    soon as a concept has a weight and one of the clusters 16, 17, 18, 26,
    30 is empty or missing. *)
Theorem unified_graph_empty_cluster pearson1 pearson2 vocab features
    feature_data sib_clusters c d :
  c ∈ vocab ->
  concept_weights features (feature_dict feature_data) c ≠ [] ->
  d ∈ domain_choices -> default [] (sib_clusters !! d) = [] ->
  exists e, produce_unified_graph_points pearson1 pearson2 vocab features
              feature_data (do_cluster_domains sib_clusters) = Raise e.
Proof.
  intros Hc Hw Hd Hempty.
  apply (unified_graph_domain_lookup _ _ _ _ _ _ c d Hc Hw Hd).
  destruct (do_cluster_domains sib_clusters !! d) as [cs|] eqn:E; [|done].
  apply do_cluster_domains_nonempty in E as [E Hne].
  rewrite E in Hempty. done.
Qed.
End UnifiedGraphFacts.

(** ** The points of [produce_unified_domain_graph] *)

Lemma elem_of_all_domains (domain_concepts : gmap nat (list string)) d :
  d ∈ all_domains domain_concepts <->
  exists cs, domain_concepts !! d = Some cs /\ 7 < length cs.
Proof.
  unfold all_domains. rewrite sorted_perm, list_elem_of_fmap. split.
  - intros ([d' cs] & -> & [Hlen Hin]%list_elem_of_filter). simpl in *.
    apply elem_of_map_to_list in Hin. apply Is_true_true, Nat.ltb_lt in Hlen.
    by exists cs.
  - intros (cs & Hd & Hlen). exists (d, cs). split; [done|].
    apply list_elem_of_filter. split.
    + simpl. by apply Is_true_true, Nat.ltb_lt.
    + by apply elem_of_map_to_list.
Qed.

Lemma nat_ltb_asym a b : Nat.ltb a b = true -> Nat.ltb b a = false.
Proof. rewrite Nat.ltb_lt, Nat.ltb_ge. lia. Qed.

Lemma all_domains_sorted (domain_concepts : gmap nat (list string)) :
  StronglySorted le (all_domains domain_concepts).
Proof.
  unfold all_domains.
  pose proof (sorted_keys Nat.ltb id nat_ltb_asym
                (map fst (filter (fun p : nat * list string =>
                                    (7 <? length p.2)%nat)
                                 (map_to_list domain_concepts)))) as Hs.
  rewrite map_id in Hs. apply Sorted_StronglySorted; [intros ???; lia|].
  induction Hs as [|a l Hs IH Hhd]; constructor; [done|].
  destruct Hhd as [|b l Hab]; constructor.
  unfold key_le in Hab. apply Nat.ltb_ge in Hab. done.
Qed.

Lemma StronglySorted_filter_le (P : nat -> Prop) `{forall x, Decision (P x)}
    (l : list nat) :
  StronglySorted le l -> StronglySorted le (filter P l).
Proof.
  induction 1 as [|x l Hs IH Hall]; [constructor|].
  rewrite filter_cons. destruct (decide (P x)); [|done].
  constructor; [done|]. apply Forall_forall. intros y [_ Hy]%list_elem_of_filter.
  rewrite Forall_forall in Hall. by apply Hall.
Qed.

Section UnifiedDomainGraphFacts.
Context `{Median} `{Variance}.

(** The weights of a domain: the score of each scored feature, once for
    each concept of the domain that the feature lists. *)
Definition domain_scores (features : gmap string Feature)
    (feature_map : gmap string Q) (domain_concepts : gmap nat (list string))
    (domain : nat) : list Q :=
  flat_map (fun feature =>
              omap (fun concept => if decide (concept ∈ concepts feature)
                                   then feature_map !! name feature else None)
                   (default [] (domain_concepts !! domain)))
           (map snd (map_to_list features)).

Lemma domain_weights_Ok features feature_map domain_concepts domain weights :
  domain_weights features feature_map domain_concepts domain = Ok weights ->
  weights = domain_scores features feature_map domain_concepts domain.
Proof.
  unfold domain_weights, domain_scores. intros Hrun.
  rewrite <- (app_nil_l (flat_map _ _)). revert Hrun. generalize (@nil Q).
  induction (map snd (map_to_list features)) as [|feature l IH]; intros acc;
    cbn [for_each flat_map].
  - intros [= <-]. by rewrite app_nil_r.
  - intros (acc1 & Hstep & Hrun)%bind_Ok.
    destruct (domain_concepts !! domain) as [cs|] eqn:Hd; [|discriminate].
    injection Hstep as <-. apply IH in Hrun. cbn [default] in *.
    by rewrite <- app_assoc in Hrun.
Qed.

Lemma domain_weights_returns features feature_map domain_concepts domain cs :
  domain_concepts !! domain = Some cs ->
  domain_weights features feature_map domain_concepts domain
  = Ok (domain_scores features feature_map domain_concepts domain).
Proof.
  intros Hd. unfold domain_weights, domain_scores. rewrite Hd. cbn [default].
  rewrite <- (app_nil_l (flat_map _ _)). generalize (@nil Q).
  induction (map snd (map_to_list features)) as [|feature l IH]; intros acc;
    cbn [for_each flat_map]; [by rewrite app_nil_r|].
  cbn [mbind result_bind]. by rewrite IH, app_assoc.
Qed.

Lemma unified_domain_loop features feature_map domain_concepts
    (p1m p1v p2m p2v : gmap nat Q) (domains : list nat)
    xs ys zs x_vars y_vars z_vars labels
    xs' ys' zs' x_vars' y_vars' z_vars' labels' :
  for_each (unified_domain_point features feature_map domain_concepts
                                 p1m p1v p2m p2v)
           domains (xs, ys, zs, x_vars, y_vars, z_vars, labels)
    = Ok (xs', ys', zs', x_vars', y_vars', z_vars', labels') ->
  let weights := domain_scores features feature_map domain_concepts in
  let new := filter (fun d => weights d ≠ []) domains in
  labels' = labels ++ new /\
  zs' = zs ++ map (fun d => np_median (weights d)) new /\
  z_vars' = z_vars ++ map (fun d => np_var (weights d)) new /\
  exists xn yn xvn yvn,
    xs' = xs ++ xn /\ ys' = ys ++ yn /\
    x_vars' = x_vars ++ xvn /\ y_vars' = y_vars ++ yvn /\
    Forall2 (fun d x => p1m !! d = Some x) new xn /\
    Forall2 (fun d y => p2m !! d = Some y) new yn /\
    Forall2 (fun d x => p1v !! d = Some x) new xvn /\
    Forall2 (fun d y => p2v !! d = Some y) new yvn.
Proof.
  revert xs ys zs x_vars y_vars z_vars labels.
  induction domains as [|d domains IH];
    intros xs ys zs x_vars y_vars z_vars labels; cbn [for_each].
  - intros [= <- <- <- <- <- <- <-]. cbn. rewrite !app_nil_r.
    split; [done|]. split; [done|]. split; [done|].
    exists [], [], [], []. rewrite !app_nil_r. repeat split; constructor.
  - intros ([[[[[[xs1 ys1] zs1] xv1] yv1] zv1] labels1] & Hstep & Hrun)%bind_Ok.
    apply IH in Hrun
      as (-> & -> & -> & xn & yn & xvn & yvn & -> & -> & -> & -> &
          Hx & Hy & Hxv & Hyv).
    cbn zeta. rewrite filter_cons. unfold unified_domain_point in Hstep.
    apply bind_Ok in Hstep as (weights & ->%domain_weights_Ok & Hstep).
    destruct (domain_scores features feature_map domain_concepts d)
      as [|w ws] eqn:Hw.
    + injection Hstep as <- <- <- <- <- <- <-.
      rewrite decide_False by (by intros []).
      split; [done|]. split; [done|]. split; [done|].
      by exists xn, yn, xvn, yvn.
    + rewrite decide_True by done. unfold at_domain in Hstep.
      destruct (p1m !! d) as [x|] eqn:Hx1; [|discriminate].
      destruct (p2m !! d) as [y|] eqn:Hy1; [|discriminate].
      destruct (p1v !! d) as [xv|] eqn:Hxv1; [|discriminate].
      destruct (p2v !! d) as [yv|] eqn:Hyv1; [|discriminate].
      cbn in Hstep. injection Hstep as <- <- <- <- <- <- <-.
      cbn [map]. rewrite Hw.
      split; [by rewrite <- app_assoc|]. split; [by rewrite <- app_assoc|].
      split; [by rewrite <- app_assoc|].
      exists (x :: xn), (y :: yn), (xv :: xvn), (yv :: yvn).
      split; [by rewrite <- app_assoc|]. split; [by rewrite <- app_assoc|].
      split; [by rewrite <- app_assoc|]. split; [by rewrite <- app_assoc|].
      repeat split; by constructor.
Qed.

(** X24: the points of [produce_unified_domain_graph] are the domains with
    more than 7 concepts for which some scored feature lists one of their
    concepts, in ascending order; each comes with its two means and
    variances and with the median and the variance of its weights. *)
Theorem unified_domain_graph_points
    (domain_p1_means domain_p1_vars domain_p2_means domain_p2_vars : gmap nat Q)
    features feature_data domain_concepts
    xs ys zs x_vars y_vars z_vars labels :
  produce_unified_domain_graph_points domain_p1_means domain_p1_vars
    domain_p2_means domain_p2_vars features feature_data domain_concepts
    = Ok (xs, ys, zs, x_vars, y_vars, z_vars, labels) ->
  let weights := domain_scores features (feature_dict feature_data)
                               domain_concepts in
  labels = filter (fun d => weights d ≠ []) (all_domains domain_concepts) /\
  StronglySorted le labels /\
  (forall d, d ∈ labels ->
     exists cs, domain_concepts !! d = Some cs /\ 7 < length cs) /\
  zs = map (fun d => np_median (weights d)) labels /\
  z_vars = map (fun d => np_var (weights d)) labels /\
  Forall2 (fun d x => domain_p1_means !! d = Some x) labels xs /\
  Forall2 (fun d y => domain_p2_means !! d = Some y) labels ys /\
  Forall2 (fun d x => domain_p1_vars !! d = Some x) labels x_vars /\
  Forall2 (fun d y => domain_p2_vars !! d = Some y) labels y_vars.
Proof.
  intros Hrun weights. unfold produce_unified_domain_graph_points in Hrun.
  destruct (negb _); [discriminate|].
  apply unified_domain_loop in Hrun
    as (-> & -> & -> & xn & yn & xvn & yvn & -> & -> & -> & -> &
        Hx & Hy & Hxv & Hyv).
  cbn [app]. split; [done|].
  split; [apply StronglySorted_filter_le, all_domains_sorted|].
  split; [|done].
  intros d [_ Hd]%list_elem_of_filter. by apply elem_of_all_domains.
Qed.

(** X25: [produce_unified_domain_graph] raises when a domain with more than 7
    concepts, one of them listed by a scored feature, lacks one of its means
    or variances. *)
Theorem unified_domain_graph_missing_mean
    (domain_p1_means domain_p1_vars domain_p2_means domain_p2_vars : gmap nat Q)
    features feature_data domain_concepts d cs :
  domain_concepts !! d = Some cs -> 7 < length cs ->
  domain_scores features (feature_dict feature_data) domain_concepts d ≠ [] ->
  domain_p1_means !! d = None \/ domain_p2_means !! d = None \/
  domain_p1_vars !! d = None \/ domain_p2_vars !! d = None ->
  exists e, produce_unified_domain_graph_points domain_p1_means domain_p1_vars
              domain_p2_means domain_p2_vars features feature_data
              domain_concepts = Raise e.
Proof.
  intros Hd Hlen Hw Hmiss. unfold produce_unified_domain_graph_points.
  destruct (negb _); [by eexists|].
  apply (for_each_raises _ _ d).
  { apply elem_of_all_domains. by exists cs. }
  intros [[[[[[xs ys] zs] xv] yv] zv] labels]. unfold unified_domain_point.
  rewrite (domain_weights_returns _ _ _ _ _ Hd). cbn [mbind result_bind].
  destruct (domain_scores _ _ _ d) as [|w ws]; [done|]. unfold at_domain.
  destruct (domain_p1_means !! d); [|by eexists].
  destruct (domain_p2_means !! d); [|by eexists].
  destruct (domain_p1_vars !! d); [|by eexists].
  destruct (domain_p2_vars !! d); [|by eexists].
  by destruct Hmiss as [?|[?|[?|?]]].
Qed.
End UnifiedDomainGraphFacts.

Lemma load_features_concepts_short_row_witness :
  exists e, load_features_concepts (Some Sample.truncated_catalog) = Raise e.
Proof.
  apply (load_features_concepts_short_row Sample.truncated_catalog "piano").
  - vm_compute. apply elem_of_cons. right. apply elem_of_cons. by left.
  - vm_compute. lia.
Defined.

Lemma load_features_concepts_own_names_witness :
  exists features cs,
    load_features_concepts (Some Sample.catalog_file) = Ok (features, cs) /\
    (forall nm f, features !! nm = Some f ->
       name f = nm /\ "Concept"%string ∉ concepts f /\
       "dunebuggy"%string ∉ concepts f) /\
    "Concept"%string ∉ cs /\ "dunebuggy"%string ∉ cs.
Proof.
  destruct (load_features_concepts (Some Sample.catalog_file))
    as [[features cs]|e] eqn:E.
  - exists features, cs. split; [done|].
    exact (load_features_concepts_own_names _ _ _ E).
  - vm_compute in E. discriminate.
Defined.

Lemma load_features_concepts_first_row_witness :
  exists features cs f,
    load_features_concepts (Some Sample.relabelled_catalog) = Ok (features, cs) /\
    features !! "has_keys"%string = Some f /\
    br_label f = "visual-form_and_surface"%string.
Proof.
  destruct (load_features_concepts (Some Sample.relabelled_catalog))
    as [[features cs]|e] eqn:E.
  - destruct (load_features_concepts_first_row Sample.relabelled_catalog
                features cs
                [Sample.catalog_line "Concept" "Feature" "BR_Label"
                 +:+ String Text.lf ""]
                (Sample.catalog_line "accordion" "has_keys"
                                     "visual-form_and_surface"
                 +:+ String Text.lf "")
                [Sample.catalog_line "piano" "has_keys" "taxonomic"]
                "accordion" "has_keys"
                ["wb"; "c"; "h"; "visual-form_and_surface"; "1"; "2"; "3"; "4";
                 "D"]%string)
      as (f & Hf & Hlab).
    + exact E.
    + vm_compute. reflexivity.
    + vm_compute. reflexivity.
    + discriminate.
    + discriminate.
    + constructor; [|constructor].
      intros c r Hs. vm_compute in Hs. injection Hs as <- _ _. by left.
    + exists features, cs, f. split; [done|]. split; [done|].
      destruct Hlab as (_ & _ & _ & Hbr & _). simpl in Hbr. congruence.
  - vm_compute in E. discriminate.
Defined.

Lemma load_embeddings_blank_line_witness :
  exists e, @load_embeddings Exact.numeric Sample.gapped_glove
              Sample.wanted_concepts = Raise e.
Proof.
  apply (@load_embeddings_blank_line Exact.numeric Sample.gapped_glove
           Sample.wanted_concepts
           (Sample.text ["dog 0.5 1"; ""; "cat 0.25 2"]%string)
           (String Text.lf "")).
  - reflexivity.
  - reflexivity.
  - vm_compute. apply elem_of_cons. right. apply elem_of_cons. by left.
  - reflexivity.
Defined.

Lemma load_embeddings_keeps_duplicates_witness :
  exists fs' vocab embeddings,
    @load_embeddings Exact.numeric Sample.doubled_glove Sample.wanted_concepts
      = Ok (fs', (vocab, embeddings)) /\
    vocab = ["dog"; "dog"]%string /\
    length vocab =
      length (filter (fun l => wanted_line Sample.wanted_concepts l = true)
                     (Text.file_lines Sample.doubled_glove_file)) /\
    length embeddings = length vocab.
Proof.
  destruct (@load_embeddings Exact.numeric Sample.doubled_glove
              Sample.wanted_concepts) as [[fs' [vocab embeddings]]|e] eqn:E.
  - exists fs', vocab, embeddings. split; [done|].
    split; [by vm_compute in E; injection E as <- <- <-|].
    exact (@load_embeddings_keeps_duplicates Exact.numeric
             Sample.doubled_glove Sample.wanted_concepts
             Sample.doubled_glove_file fs' vocab embeddings
             eq_refl eq_refl E).
  - vm_compute in E. discriminate.
Defined.

Lemma get_values_bad_row_witness :
  exists e, @get_values Exact.numeric (Some Sample.broken_rows)
              "Concept" "correlation" = Raise e.
Proof.
  apply (@get_values_bad_row Exact.numeric Sample.broken_rows
           "Concept" "correlation" (<["Concept"%string := CStr "cat"]> ∅)).
  - discriminate.
  - apply elem_of_cons. right. apply elem_of_cons. by left.
  - left. reflexivity.
Defined.

Lemma get_values_keys_witness :
  exists m,
    @get_values Exact.numeric (Some Sample.pearson_rows) "Concept" "correlation"
      = Ok m /\
    forall k, is_Some (m !! k) <->
              exists row, row ∈ Sample.pearson_rows /\
                          row !! "Concept"%string = Some k.
Proof.
  destruct (@get_values Exact.numeric (Some Sample.pearson_rows)
              "Concept" "correlation") as [m|e] eqn:E.
  - exists m. split; [done|].
    apply (@get_values_keys Exact.numeric Sample.pearson_rows
             "Concept" "correlation" m); [discriminate|exact E].
  - vm_compute in E. discriminate.
Defined.

Lemma loocv_feature_score_count_witness :
  exists C' scores ycol,
    @loocv_feature Exact.numeric first_coordinate first_drawn 1%Q
      Sample.three_rows Sample.middle_positive 0 tt tt = Ok (C', scores) /\
    column Sample.middle_positive 0 = Ok ycol /\ C' = 1%Q /\
    length scores = min (length (nonzero ycol)) 5.
Proof.
  destruct (@loocv_feature Exact.numeric first_coordinate first_drawn 1%Q
              Sample.three_rows Sample.middle_positive 0 tt tt)
    as [[C' scores]|e] eqn:E.
  - destruct (@loocv_feature_score_count Exact.numeric first_coordinate
                first_drawn 1%Q Sample.three_rows Sample.middle_positive
                0 tt tt C' scores E) as (ycol & Hcol & HC & Hlen).
    by exists C', scores, ycol.
  - vm_compute in E. discriminate.
Defined.


Lemma main_report_lines_witness :
  exists lines tables fcat_med,
    @main_report Exact.numeric Sample.clash_features Sample.clash_scores
      = Ok (lines, tables, fcat_med) /\
    map (fun l : string * string * nat * Q => (l.1.1.1, l.1.2, l.2)) lines
      ≡ₚ scored Sample.clash_scores /\
    Sorted Qle (map (fun l : string * string * nat * Q => l.2) lines) /\
    (forall nm label n_entries score, (nm, label, n_entries, score) ∈ lines ->
       br_label <$> Sample.clash_features !! nm = Some label).
Proof.
  destruct (@main_report Exact.numeric Sample.clash_features Sample.clash_scores)
    as [[[lines tables] fcat_med]|e] eqn:E.
  - exists lines, tables, fcat_med. split; [done|].
    exact (@main_report_lines Exact.numeric _ _ _ _ _ E).
  - vm_compute in E. discriminate.
Defined.

Lemma main_report_unknown_feature_witness :
  @main_report Exact.numeric Sample.clash_features Sample.stray_scores
  = Raise KeyError.
Proof.
  apply (@main_report_unknown_feature Exact.numeric Sample.clash_features
           Sample.stray_scores "has_tail" 3 (1 # 2)%Q).
  - apply elem_of_cons. right. apply elem_of_cons. by left.
  - reflexivity.
Defined.

Lemma main_report_fcat_med_witness :
  exists lines tables fcat_med,
    @main_report Exact.numeric Sample.clash_features Sample.clash_scores
      = Ok (lines, tables, fcat_med) /\
    fcat_med !! "function"%string = Some (1 # 5)%Q /\
    fcat_med !! "taxonomic"%string = Some (1 # 5)%Q /\
    fcat_med !! "visual"%string = None.
Proof.
  destruct (@main_report Exact.numeric Sample.clash_features Sample.clash_scores)
    as [[[lines tables] fcat_med]|e] eqn:E.
  - exists lines, tables, fcat_med. split; [done|].
    rewrite !(@main_report_fcat_med Exact.numeric _ _ _ _ _ _ E).
    split; [|split]; vm_compute; reflexivity.
  - vm_compute in E. discriminate.
Defined.

Lemma do_cluster_missing_weight_witness :
  mean_metric (@do_cluster_concept_vals Exact.numeric Sample.two_words
                 Sample.clash_features Sample.low_scores)
              Sample.labels !! 2 = Some NaN <->
  ~ ("rock"%string ∈ Sample.two_words /\
     exists f_name feature n v,
       Sample.clash_features !! f_name = Some feature /\
       "rock"%string ∈ concepts feature /\
       (f_name, n, v) ∈ Sample.low_scores).
Proof.
  apply (@do_cluster_missing_weight Exact.numeric Sample.two_words
           Sample.clash_features Sample.low_scores Sample.labels 2 "rock").
  reflexivity.
Defined.

Lemma analyze_domains_files_scores_witness :
  exists x y domain_feat_fit,
    analyze_domains Sample.two_words [(1 # 10)%Q; (1 # 5)%Q]
                    Sample.two_domains = Ok (x, y, domain_feat_fit) /\
    x = [16; 18; 30] /\
    length x = length y /\
    zip x y = domain_points Sample.two_words [(1 # 10)%Q; (1 # 5)%Q]
                            Sample.two_domains /\
    forall d, domain_feat_fit !! d = scores_of d (zip x y).
Proof.
  destruct (analyze_domains Sample.two_words [(1 # 10)%Q; (1 # 5)%Q]
                            Sample.two_domains)
    as [[[x y] domain_feat_fit]|e] eqn:E.
  - exists x, y, domain_feat_fit. split; [done|].
    split; [by vm_compute in E; injection E as <- <- <-|].
    exact (analyze_domains_files_scores _ _ _ _ _ _ E).
  - vm_compute in E. discriminate.
Defined.

Lemma analyze_domains_raises_witness :
  exists e, analyze_domains ["cat"; "owl"]%string [(1 # 10)%Q; (1 # 5)%Q]
                            Sample.two_domains = Raise e.
Proof.
  apply (analyze_domains_raises ["cat"; "owl"]%string [(1 # 10)%Q; (1 # 5)%Q]
           Sample.two_domains 1 "owl").
  - reflexivity.
  - left. reflexivity.
Defined.

Lemma unified_graph_points_witness :
  exists xs ys zs labels colors concept_pearson1 concept_pearson2,
    @produce_unified_graph_points Exact.numeric Exact.q_median
      (Some Sample.pearson_rows) (Some Sample.pearson_rows)
      Sample.two_words Sample.clash_features Sample.low_scores
      Sample.five_domains = Ok (xs, ys, zs, labels, colors) /\
    labels = ["cat"; "dog"]%string /\
    @get_values Exact.numeric (Some Sample.pearson_rows) "Concept" "correlation"
      = Ok concept_pearson1 /\
    @get_values Exact.numeric (Some Sample.pearson_rows) "Concept" "correlation"
      = Ok concept_pearson2 /\
    labels = filter (fun c => concept_weights Sample.clash_features
                                (feature_dict Sample.low_scores) c ≠ [])
                    Sample.two_words /\
    Forall2 (fun c x => concept_pearson1 !! CStr c = Some x) labels xs /\
    Forall2 (fun c y => concept_pearson2 !! CStr c = Some y) labels ys /\
    zs = map (fun c => @np_median Exact.q_median
                         (concept_weights Sample.clash_features
                            (feature_dict Sample.low_scores) c)) labels.
Proof.
  destruct (@produce_unified_graph_points Exact.numeric Exact.q_median
              (Some Sample.pearson_rows) (Some Sample.pearson_rows)
              Sample.two_words Sample.clash_features Sample.low_scores
              Sample.five_domains)
    as [[[[[xs ys] zs] labels] colors]|e] eqn:E.
  - destruct (@unified_graph_points Exact.numeric Exact.q_median
                _ _ _ _ _ _ _ _ _ _ _ E) as (cp1 & cp2 & Hrest).
    exists xs, ys, zs, labels, colors, cp1, cp2. split; [done|].
    split; [by vm_compute in E; injection E as <- <- <- <- <-|].
    exact Hrest.
  - vm_compute in E. discriminate.
Defined.

Lemma unified_graph_colors_witness :
  exists xs ys zs labels colors,
    @produce_unified_graph_points Exact.numeric Exact.q_median
      (Some Sample.pearson_rows) (Some Sample.pearson_rows)
      Sample.two_words Sample.clash_features Sample.low_scores
      Sample.five_domains = Ok (xs, ys, zs, labels, colors) /\
    colors = ["Salmon"; "MediumPurple"]%string /\
    colors = map (fun c => @point_color Exact.q_median Sample.five_domains c
                    (concept_weights Sample.clash_features
                                     (feature_dict Sample.low_scores) c))
                 labels.
Proof.
  destruct (@produce_unified_graph_points Exact.numeric Exact.q_median
              (Some Sample.pearson_rows) (Some Sample.pearson_rows)
              Sample.two_words Sample.clash_features Sample.low_scores
              Sample.five_domains)
    as [[[[[xs ys] zs] labels] colors]|e] eqn:E.
  - exists xs, ys, zs, labels, colors. split; [done|].
    split; [by vm_compute in E; injection E as <- <- <- <- <-|].
    exact (@unified_graph_colors Exact.numeric Exact.q_median
             _ _ _ _ _ _ _ _ _ _ _ E).
  - vm_compute in E. discriminate.
Defined.

Lemma unified_graph_missing_domain_witness :
  exists e,
    @produce_unified_graph_points Exact.numeric Exact.q_median
      (Some Sample.pearson_rows) (Some Sample.pearson_rows)
      Sample.two_words Sample.clash_features Sample.low_scores
      (delete 26 Sample.five_domains) = Raise e.
Proof.
  apply (@unified_graph_missing_domain Exact.numeric Exact.q_median
           (Some Sample.pearson_rows) (Some Sample.pearson_rows)
           Sample.two_words Sample.clash_features Sample.low_scores
           (delete 26 Sample.five_domains) "cat" 26).
  - by left.
  - vm_compute. discriminate.
  - unfold domain_choices. do 3 right. by left.
  - reflexivity.
Defined.

Lemma unified_graph_empty_cluster_witness :
  exists e,
    @produce_unified_graph_points Exact.numeric Exact.q_median
      (Some Sample.pearson_rows) (Some Sample.pearson_rows)
      Sample.two_words Sample.clash_features Sample.low_scores
      (do_cluster_domains (replicate 17 ["cat"; "dog"]%string)) = Raise e.
Proof.
  apply (@unified_graph_empty_cluster Exact.numeric Exact.q_median
           (Some Sample.pearson_rows) (Some Sample.pearson_rows)
           Sample.two_words Sample.clash_features Sample.low_scores
           (replicate 17 ["cat"; "dog"]%string) "cat" 17).
  - by left.
  - vm_compute. discriminate.
  - unfold domain_choices. right. by left.
  - reflexivity.
Defined.

Lemma unified_domain_graph_points_witness :
  exists xs ys zs x_vars y_vars z_vars labels,
    @produce_unified_domain_graph_points Exact.q_median Exact.q_var
      Sample.domain_value Sample.domain_value Sample.domain_value
      Sample.domain_value Sample.clash_features Sample.low_scores
      Sample.large_domains
      = Ok (xs, ys, zs, x_vars, y_vars, z_vars, labels) /\
    labels = [3] /\ zs = [(1 # 10)%Q] /\
    labels = filter (fun d => domain_scores Sample.clash_features
                                (feature_dict Sample.low_scores)
                                Sample.large_domains d ≠ [])
                    (all_domains Sample.large_domains) /\
    StronglySorted le labels /\
    (forall d, d ∈ labels ->
       exists cs, Sample.large_domains !! d = Some cs /\ 7 < length cs) /\
    zs = map (fun d => @np_median Exact.q_median
                         (domain_scores Sample.clash_features
                            (feature_dict Sample.low_scores)
                            Sample.large_domains d)) labels /\
    z_vars = map (fun d => @np_var Exact.q_var
                             (domain_scores Sample.clash_features
                                (feature_dict Sample.low_scores)
                                Sample.large_domains d)) labels /\
    Forall2 (fun d x => Sample.domain_value !! d = Some x) labels xs /\
    Forall2 (fun d y => Sample.domain_value !! d = Some y) labels ys /\
    Forall2 (fun d x => Sample.domain_value !! d = Some x) labels x_vars /\
    Forall2 (fun d y => Sample.domain_value !! d = Some y) labels y_vars.
Proof.
  destruct (@produce_unified_domain_graph_points Exact.q_median Exact.q_var
              Sample.domain_value Sample.domain_value Sample.domain_value
              Sample.domain_value Sample.clash_features Sample.low_scores
              Sample.large_domains)
    as [[[[[[[xs ys] zs] x_vars] y_vars] z_vars] labels]|e] eqn:E.
  - exists xs, ys, zs, x_vars, y_vars, z_vars, labels. split; [done|].
    split; [by vm_compute in E; injection E as <- <- <- <- <- <- <-|].
    split; [by vm_compute in E; injection E as <- <- <- <- <- <- <-|].
    exact (@unified_domain_graph_points Exact.q_median Exact.q_var
             _ _ _ _ _ _ _ _ _ _ _ _ _ _ E).
  - vm_compute in E. discriminate.
Defined.

Lemma unified_domain_graph_missing_mean_witness :
  exists e,
    @produce_unified_domain_graph_points Exact.q_median Exact.q_var
      Sample.domain_value ∅ Sample.domain_value Sample.domain_value
      Sample.clash_features Sample.low_scores Sample.large_domains
    = Raise e.
Proof.
  apply (@unified_domain_graph_missing_mean Exact.q_median Exact.q_var
           Sample.domain_value ∅ Sample.domain_value Sample.domain_value
           Sample.clash_features Sample.low_scores Sample.large_domains 3
           ["cat"; "dog"; "a"; "b"; "c"; "d"; "e"; "f"]%string).
  - reflexivity.
  - simpl. lia.
  - vm_compute. discriminate.
  - right. right. left. reflexivity.
Defined.
